(** * A shallow embedding of the L3ARCH archiver (lab4)

    The development follows the three modules of [src/lab4]:
    - [archiver_huffman.py]: the Huffman coder, [build_archive], [extract_archive];
    - [universal_decoder.py]: the version dispatcher and the decoders v0..v3;
    - [intelligent_coder.py]: the per-file selector and the v3 writer.

    Python values are modelled as follows.
    - [int] is [Z]; [bytes] and [bytearray] are [list byte];
    - a [str] of ['0']/['1'] characters (the bit strings of the coder) is a
      [list bool], [false] for ['0'] and [true] for ['1'];
    - a [dict] is an association list in insertion order ([dict_set] updates
      in place or appends, as CPython's ordered dict does);
    - an exception is a value of [exn] carried by [result];
    - the file system effects of a decoder ([mkdir], [open(...,'wb').write],
      [print]) are recorded in order as a list of [event]s; an exception
      leaves the events emitted before it in place.  The events are the calls
      the decoder makes; a [world] says which of them go through, and
      [run_in] is the run in a given world ([run]: in one that lets every
      call through).
    Library code ([heapq], [struct], [pathlib]) is written out after its
    CPython reference implementation; [crc32], [zlib.decompress] and
    [bytes.decode('utf-8')] are parameters ([Externals]). *)

From Stdlib Require Import ZArith Lia List Strings.Byte Strings.String Strings.Ascii.
From Stdlib Require Import Reals Lra.
From stdpp Require Import base numbers option list.

Local Open Scope Z_scope.

(** ** Exceptions and results *)

Inductive exn : Type :=
  | IndexError | AttributeError | KeyError | ValueError | StructError
  | OverflowError | RuntimeError | NameError | TypeError | UnicodeDecodeError
  | ZlibError | OSError.

Inductive result (A : Type) : Type :=
  | Ok (a : A)
  | Err (e : exn).
Arguments Ok {A} a.
Arguments Err {A} e.

#[global] Instance result_ret : MRet result := @Ok.
#[global] Instance result_bind : MBind result :=
  fun A B f m => match m with Ok a => f a | Err e => Err e end.

Abbreviation bytes := (list byte).
Abbreviation bits := (list bool).

#[global] Instance byte_eq_decision : EqDecision byte := Byte.byte_eq_dec.

Definition byte_to_Z (b : byte) : Z := Z.of_N (Byte.to_N b).

Definition byte_of_Z (z : Z) : byte :=
  match Byte.of_N (Z.to_N (z mod 256)) with
  | Some b => b
  | None => x00
  end.

(** [len(x)] *)
Definition len {A} (l : list A) : Z := Z.of_nat (length l).

(** ** [dict]: insertion-ordered association list *)

Definition dict (K V : Type) : Type := list (K * V).

Fixpoint dict_get {K V} `{EqDecision K} (d : dict K V) (k : K) : option V :=
  match d with
  | [] => None
  | (k', v) :: d' => if decide (k' = k) then Some v else dict_get d' k
  end.

(** [d[k] = v]: an existing key keeps its position. *)
Fixpoint dict_set {K V} `{EqDecision K} (d : dict K V) (k : K) (v : V) : dict K V :=
  match d with
  | [] => [(k, v)]
  | (k', v') :: d' =>
      if decide (k' = k) then (k, v) :: d' else (k', v') :: dict_set d' k v
  end.

(** [collections.Counter(data)]: counts in first-occurrence order. *)
Definition Counter (data : bytes) : dict byte Z :=
  foldl (fun d b => dict_set d b (default 0 (dict_get d b) + 1)) [] data.

(** ** [struct] with the little-endian unsigned formats the archiver uses *)

Fixpoint le_bytes (w : nat) (x : Z) : bytes :=
  match w with
  | O => []
  | S w' => byte_of_Z (x mod 256) :: le_bytes w' (x / 256)
  end.

Fixpoint le_int (bs : bytes) : Z :=
  match bs with
  | [] => 0
  | b :: bs' => byte_to_Z b + 256 * le_int bs'
  end.

(** [struct.pack('<B' | '<H' | '<I' | '<Q', x)] for [w] = 1, 2, 4, 8:
    [struct.error] when [x] is out of range. *)
Definition pack_uint (w : nat) (x : Z) : result bytes :=
  if decide (0 <= x < 256 ^ Z.of_nat w) then Ok (le_bytes w x) else Err StructError.

(** [struct.unpack(fmt, buf)[0]]: the buffer must have exactly [w] bytes. *)
Definition unpack_uint (w : nat) (buf : bytes) : result Z :=
  if decide (length buf = w) then Ok (le_int buf) else Err StructError.

(** [struct.unpack_from(fmt, buf, offset)]: [w] bytes must be available
    at [offset]. *)
Definition unpack_from_uint (w : nat) (buf : bytes) (offset : nat) : result Z :=
  if decide (offset + w <= length buf)%nat
  then Ok (le_int (take w (drop offset buf)))
  else Err StructError.

(** [struct.pack('<BI', sym, fr)] and [struct.unpack_from('<BI', buf, offset)]:
    no alignment under ['<'], so 1 + 4 bytes. *)
Definition pack_BI (sym : byte) (fr : Z) : result bytes :=
  fr_bytes ← pack_uint 4 fr; Ok (sym :: fr_bytes).

Definition unpack_from_BI (buf : bytes) (offset : nat) : result (byte * Z) :=
  if decide (offset + 5 <= length buf)%nat
  then match drop offset buf with
       | sym :: rest => Ok (sym, le_int (take 4 rest))
       | [] => Err StructError
       end
  else Err StructError.

(** ** Bit strings and big integers

    [int(bits, 2)], [int.to_bytes(n, 'big')], [int.from_bytes(b, 'big')],
    [bin(n)[2:]] and [str.zfill]. *)

Definition bit_to_Z (b : bool) : Z := if b then 1 else 0.

(** [int(s, 2)]: [ValueError] on the empty string. *)
Definition int_base2 (s : bits) : result Z :=
  match s with
  | [] => Err ValueError
  | _ => Ok (foldl (fun acc b => 2 * acc + bit_to_Z b) 0 s)
  end.

Fixpoint be_bytes (w : nat) (x : Z) : bytes :=
  match w with
  | O => []
  | S w' => be_bytes w' (x / 256) ++ [byte_of_Z (x mod 256)]
  end.

(** [x.to_bytes(w, 'big')]: [OverflowError] when [x] does not fit. *)
Definition to_bytes_big (x : Z) (w : nat) : result bytes :=
  if decide (0 <= x < 256 ^ Z.of_nat w) then Ok (be_bytes w x) else Err OverflowError.

(** [int.from_bytes(b, 'big')] *)
Definition from_bytes_big (b : bytes) : Z :=
  foldl (fun acc x => 256 * acc + byte_to_Z x) 0 b.

Fixpoint bin_pos (p : positive) : bits :=
  match p with
  | xH => [true]
  | xO p' => bin_pos p' ++ [false]
  | xI p' => bin_pos p' ++ [true]
  end.

(** [bin(n)[2:]] for [n >= 0]: no leading zero, ["0"] for zero. *)
Definition bin_digits (n : Z) : bits :=
  match n with
  | Zpos p => bin_pos p
  | _ => [false]
  end.

(** [s.zfill(width)] for a string with no sign. *)
Definition zfill (width : nat) (s : bits) : bits :=
  repeat false (width - length s) ++ s.

(** [s[:-k]] for [k > 0] *)
Definition drop_last {A} (k : nat) (s : list A) : list A :=
  take (length s - k) s.

(** ** [heapq] (after CPython's [Lib/heapq.py])

    The [while] loops run on fuel; [_siftdown] needs at most [pos] rounds and
    [_siftup] at most [len(heap)], which is the fuel the callers give
    ([siftdown_loop_fuel] and [siftup_loop_fuel] below show that more fuel
    changes nothing).  An index the loop guards keep in range is read with
    [!!]; the out-of-range branch returns the heap as it is. *)

Section heapq.
Context {A : Type} (lt : A -> A -> bool).

Fixpoint siftdown_loop (fuel : nat) (heap : list A) (startpos pos : nat)
    (newitem : A) : list A :=
  match fuel with
  | O => <[pos := newitem]> heap
  | S fuel' =>
      if decide (startpos < pos)%nat then
        let parentpos := Nat.shiftr (pos - 1) 1 in
        match heap !! parentpos with
        | Some parent =>
            if lt newitem parent
            then siftdown_loop fuel' (<[pos := parent]> heap) startpos parentpos newitem
            else <[pos := newitem]> heap
        | None => heap
        end
      else <[pos := newitem]> heap
  end.

Definition _siftdown (heap : list A) (startpos pos : nat) : list A :=
  match heap !! pos with
  | Some newitem => siftdown_loop pos heap startpos pos newitem
  | None => heap
  end.

Fixpoint siftup_loop (fuel : nat) (heap : list A) (endpos pos childpos : nat)
    : list A * nat :=
  match fuel with
  | O => (heap, pos)
  | S fuel' =>
      if decide (childpos < endpos)%nat then
        let rightpos := (childpos + 1)%nat in
        match heap !! childpos with
        | Some c =>
            let childpos' :=
              match heap !! rightpos with
              | Some r =>
                  if bool_decide (rightpos < endpos)%nat && negb (lt c r)
                  then rightpos else childpos
              | None => childpos
              end in
            match heap !! childpos' with
            | Some c' =>
                siftup_loop fuel' (<[pos := c']> heap) endpos childpos'
                  (2 * childpos' + 1)%nat
            | None => (heap, pos)
            end
        | None => (heap, pos)
        end
      else (heap, pos)
  end.

Definition _siftup (heap : list A) (pos : nat) : list A :=
  let endpos := length heap in
  let startpos := pos in
  match heap !! pos with
  | Some newitem =>
      let '(heap', pos') := siftup_loop endpos heap endpos pos (2 * pos + 1)%nat in
      _siftdown (<[pos' := newitem]> heap') startpos pos'
  | None => heap
  end.

(** [for i in reversed(range(n//2)): _siftup(x, i)] *)
Definition heapify (x : list A) : list A :=
  foldl _siftup x (rev (seq 0 (length x / 2)%nat)).

Definition heappush (heap : list A) (item : A) : list A :=
  _siftdown (heap ++ [item]) 0 (length heap).

(** [heappop]: [heap.pop()] raises [IndexError] on the empty heap. *)
Definition heappop (heap : list A) : result (A * list A) :=
  match last heap with
  | None => Err IndexError
  | Some lastelt =>
      let heap' := removelast heap in
      match heap' with
      | [] => Ok (lastelt, [])
      | returnitem :: _ => Ok (returnitem, _siftup (<[0%nat := lastelt]> heap') 0)
      end
  end.
End heapq.

(** ** The Huffman tree

    [class Node] of [archiver_huffman.py]; [class HNode] of
    [universal_decoder.py] is the same class under another name. *)

Inductive Node : Type :=
  mkNode { freq : Z; symbol : option byte; left : option Node; right : option Node }.

(** [self.symbol or 0] *)
Definition symbol_or_0 (n : Node) : Z :=
  match symbol n with
  | Some b => byte_to_Z b
  | None => 0
  end.

(** [Node.__lt__] *)
Definition Node_lt (self other : Node) : bool :=
  if decide (freq self = freq other)
  then bool_decide (symbol_or_0 self < symbol_or_0 other)
  else bool_decide (freq self < freq other).

(** [heap = [Node(fr, sym) for sym, fr in freqs.items()]] *)
Definition leaf_nodes (freqs : dict byte Z) : list Node :=
  map (fun '(sym, fr) => mkNode fr (Some sym) None None) freqs.

(** [while len(heap) > 1: a = heappop(heap); b = heappop(heap);
    heappush(heap, Node(a.freq + b.freq, None, a, b))] *)
Fixpoint merge_loop (fuel : nat) (heap : list Node) : result (list Node) :=
  match fuel with
  | O => Ok heap
  | S fuel' =>
      if decide (1 < length heap)%nat then
        '(a, heap1) ← heappop Node_lt heap;
        '(b, heap2) ← heappop Node_lt heap1;
        merge_loop fuel'
          (heappush Node_lt heap2 (mkNode (freq a + freq b) None (Some a) (Some b)))
      else Ok heap
  end.

(** [build_codes(node, prefix, codebook)]; [node.symbol] on [None] raises
    [AttributeError]. *)
Fixpoint build_codes (node : Node) (prefix : bits) (codebook : dict byte bits)
    : result (dict byte bits) :=
  match node with
  | mkNode _ (Some sym) _ _ =>
      Ok (dict_set codebook sym (match prefix with [] => [false] | _ => prefix end))
  | mkNode _ None l r =>
      match l with
      | None => Err AttributeError
      | Some l' =>
          codebook' ← build_codes l' (prefix ++ [false]) codebook;
          match r with
          | None => Err AttributeError
          | Some r' => build_codes r' (prefix ++ [true]) codebook'
          end
      end
  end.

(** ["".join(codebook[b] for b in data)] *)
Fixpoint join_codes (codebook : dict byte bits) (data : bytes) : result bits :=
  match data with
  | [] => Ok []
  | b :: data' =>
      match dict_get codebook b with
      | None => Err KeyError
      | Some code => rest ← join_codes codebook data'; Ok (code ++ rest)
      end
  end.

(** [for sym, fr in freqs.items(): service += struct.pack("<BI", sym, fr)] *)
Fixpoint pack_table (freqs : dict byte Z) : result bytes :=
  match freqs with
  | [] => Ok []
  | (sym, fr) :: freqs' =>
      row ← pack_BI sym fr; rest ← pack_table freqs'; Ok (row ++ rest)
  end.

(** [for _ in range(num_syms): sym, fr = unpack_from("<BI", service, offset);
    offset += 5; freqs[sym] = fr] *)
Fixpoint read_table (n : nat) (service : bytes) (offset : nat) (freqs : dict byte Z)
    : result (dict byte Z) :=
  match n with
  | O => Ok freqs
  | S n' =>
      '(sym, fr) ← unpack_from_BI service offset;
      read_table n' service (offset + 5)%nat (dict_set freqs sym fr)
  end.

(** [bin(int.from_bytes(encoded, 'big'))[2:].zfill(len(encoded) * 8)], then
    [if padding: bitstr = bitstr[:-padding]] *)
Definition bitstr_of (encoded : bytes) (padding : Z) : bits :=
  let bitstr := zfill (length encoded * 8) (bin_digits (from_bytes_big encoded)) in
  if decide (padding = 0) then bitstr else drop_last (Z.to_nat padding) bitstr.

(** The decoding loop; [stop] is the test that breaks out of it
    ([len(out) == orig_size] in the archiver, [>=] in the universal decoder). *)
Fixpoint decode_walk (stop : Z -> bool) (root : Node) (bitstr : bits) (node : Node)
    (out : bytes) : result bytes :=
  match bitstr with
  | [] => Ok out
  | bit :: rest =>
      match (if bit then right node else left node) with
      | None => Err AttributeError
      | Some node' =>
          match symbol node' with
          | Some s =>
              let out' := out ++ [s] in
              if stop (len out') then Ok out' else decode_walk stop root rest root out'
          | None => decode_walk stop root rest node' out
          end
      end
  end.

(** [x[:n]] *)
Definition slice_to {A} (n : Z) (x : list A) : list A :=
  if decide (0 <= n) then take (Z.to_nat n) x else take (Z.to_nat (len x + n)) x.

Module archiver_huffman.

Definition SIGNATURE : bytes := [x4c; x33; x41; x52; x43; x48; x30; x34].
Definition SIGNATURE_PREFIX : bytes := [x4c; x33; x41; x52; x43; x48].
Definition VERSION : Z := 2.
Definition ALG_NOCTX_NONE : Z := 0.
Definition ALG_NOCTX_ZLIB : Z := 2.
Definition ALG_NOCTX_HUFFMAN : Z := 3.
Definition ALG_PROT_NONE : Z := 0.
Definition ALG_PROT_CRC32 : Z := 11.
Definition RESERVED : Z := 0.
Definition ENTRY_DIR : Z := 0.
Definition ENTRY_FILE : Z := 1.

(** [build_huffman_tree]: no test for the empty heap, so [heap[0]] raises
    [IndexError] there. *)
Definition build_huffman_tree (freqs : dict byte Z) : result Node :=
  let heap := heapify Node_lt (leaf_nodes freqs) in
  if decide (length heap = 1%nat) then
    match heap with
    | only :: _ => Ok (mkNode (freq only) None (Some only) None)
    | [] => Err IndexError
    end
  else
    heap' ← merge_loop (length heap) heap;
    match heap' with
    | root :: _ => Ok root
    | [] => Err IndexError
    end.

(** The first statements of [huffman_encode]: the concatenated codes of
    the input, before they are padded to a byte boundary. *)
Definition huffman_bits (data : bytes) : result bits :=
  let freqs := Counter data in
  root ← build_huffman_tree freqs;
  codebook ← build_codes root [] [];
  join_codes codebook data.

Definition huffman_encode (data : bytes) : result (bytes * bytes) :=
  let freqs := Counter data in
  bitstr ← huffman_bits data;
  let padding := (8 - len bitstr mod 8) mod 8 in
  let bitstr := bitstr ++ repeat false (Z.to_nat padding) in
  n ← int_base2 bitstr;
  encoded ← to_bytes_big n (Z.to_nat (len bitstr / 8));
  s_padding ← pack_uint 2 padding;
  s_count ← pack_uint 2 (len freqs);
  s_table ← pack_table freqs;
  Ok (encoded, s_padding ++ s_count ++ s_table).

Definition huffman_decode (encoded service : bytes) (orig_size : Z) : result bytes :=
  padding ← unpack_from_uint 2 service 0;
  num_syms ← unpack_from_uint 2 service 2;
  freqs ← read_table (Z.to_nat num_syms) service 4 [];
  root ← build_huffman_tree freqs;
  decode_walk (fun n => bool_decide (n = orig_size)) root
    (bitstr_of encoded padding) root [].

End archiver_huffman.

Module universal_decoder.

Definition SIGNATURE_PREFIX : bytes := [x4c; x33; x41; x52; x43; x48].
Definition ALG_PROT_CRC32 : Z := 11.

(** [build_huffman_tree]: [None] for the empty table. *)
Definition build_huffman_tree (freqs : dict byte Z) : result (option Node) :=
  let heap := heapify Node_lt (leaf_nodes freqs) in
  if decide (length heap = 0%nat) then Ok None
  else if decide (length heap = 1%nat) then
    match heap with
    | only :: _ => Ok (Some (mkNode (freq only) None (Some only) None))
    | [] => Err IndexError
    end
  else
    heap' ← merge_loop (length heap) heap;
    match heap' with
    | root :: _ => Ok (Some root)
    | [] => Err IndexError
    end.

Definition huffman_decode_bytes (encoded_bytes service_bytes : bytes) (orig_size : Z)
    : result bytes :=
  if decide (len service_bytes < 4) then Ok []
  else
    padding ← unpack_from_uint 2 service_bytes 0;
    num_syms ← unpack_from_uint 2 service_bytes 2;
    freqs ← read_table (Z.to_nat num_syms) service_bytes 4 [];
    root ← build_huffman_tree freqs;
    match root with
    | None => Ok []
    | Some root =>
        out ← decode_walk (fun n => bool_decide (orig_size <= n)) root
                (bitstr_of encoded_bytes padding) root [];
        Ok (slice_to orig_size out)
    end.

End universal_decoder.

(** ** Library functions taken as parameters

    [binascii.crc32], [zlib.decompress] and the validity test behind
    [bytes.decode('utf-8')].  A Python [str] is represented by the [string]
    of its UTF-8 bytes, so [str.encode('utf-8')] is the identity on the
    representation and [decode] is the validity test. *)

Record Externals : Type := {
  crc32 : bytes -> Z;
  zlib_decompress : bytes -> result bytes;
  utf8_valid : bytes -> bool
}.

Definition str_encode (s : string) : bytes := list_byte_of_string s.

Definition bytes_decode (X : Externals) (b : bytes) : result string :=
  if utf8_valid X b then Ok (string_of_list_byte b) else Err UnicodeDecodeError.

(** ** [pathlib] (POSIX flavour) *)

Record Path : Type := mkPath { is_abs : bool; parts : list string }.

Fixpoint split_slash (cur : string) (s : string) : list string :=
  match s with
  | EmptyString => [cur]
  | String c s' =>
      if Ascii.eqb c "/"%char then cur :: split_slash EmptyString s'
      else split_slash (cur ++ String c EmptyString)%string s'
  end.

Definition kept_part (p : string) : bool :=
  negb (String.eqb p "") && negb (String.eqb p ".").

(** [Path(s)]: empty and ["."] components are dropped, [".."] is kept. *)
Definition Path_of (s : string) : Path :=
  {| is_abs := match s with String c _ => Ascii.eqb c "/"%char | EmptyString => false end;
     parts := List.filter kept_part (split_slash EmptyString s) |}.

(** [a / b]: an absolute right operand replaces the left one. *)
Definition joinpath (a b : Path) : Path :=
  if is_abs b then b else {| is_abs := is_abs a; parts := parts a ++ parts b |}.

(** [p.parent] *)
Definition parent (p : Path) : Path :=
  {| is_abs := is_abs p; parts := removelast (parts p) |}.




(** ** Effects of a decoder *)

Inductive decoder_id : Type := V0 | V1 | V2 | V3 | Extract.

Inductive message : Type :=
  | MsgSignatureOk (version : Z)
  | MsgCrcMismatch (d : decoder_id) (relpath : string)
  | MsgRestored (d : decoder_id) (relpath : string)
  | MsgRestoredV0 (outfile : Path) (n : Z).

Inductive event : Type :=
  | EMkdir (p : Path)
  | EWrite (p : Path) (data : bytes)
  | EPrint (m : message).

(** A decoder reads the archive through a cursor, emits events and may
    raise: state (rest of the file), writer (events), error.  An event is a
    call the decoder makes into the world around it ([mkdir], [open] and
    [write], [print]); what the world answers is settled apart, by [perform]
    below: a decoder never looks at the result of such a call and catches no
    exception. *)
Definition io (A : Type) : Type := bytes -> list event * result (A * bytes).

#[global] Instance io_ret : MRet io := fun A a rest => ([], Ok (a, rest)).
#[global] Instance io_bind : MBind io := fun A B f m rest =>
  match m rest with
  | (evs, Ok (a, rest')) => let '(evs', r) := f a rest' in (evs ++ evs', r)
  | (evs, Err e) => (evs, Err e)
  end.

Definition emit (e : event) : io unit := fun rest => ([e], Ok (tt, rest)).
Definition lift {A} (r : result A) : io A := fun rest =>
  match r with Ok a => ([], Ok (a, rest)) | Err e => ([], Err e) end.
Definition raise {A} (e : exn) : io A := fun _ => ([], Err e).

(** [f.read(n)]: fewer bytes at the end of the file, and the whole rest
    of it for a negative [n].  The sizes read are those [read] accepts,
    below 2^63. *)
Definition f_read (n : Z) : io bytes := fun rest =>
  if decide (n < 0) then ([], Ok (rest, []))
  else ([], Ok (take (Z.to_nat n) rest, drop (Z.to_nat n) rest)).

(** [f.read(1)[0]]: [IndexError] at the end of the file. *)
Definition read_u8 : io Z :=
  b ← f_read 1;
  match b with
  | [] => raise IndexError
  | x :: _ => mret (byte_to_Z x)
  end.

(** [struct.unpack(fmt, f.read(w))[0]] *)
Definition read_uint (w : nat) : io Z :=
  b ← f_read (Z.of_nat w); lift (unpack_uint w b).

Fixpoint for_each {A} (body : A -> io unit) (l : list A) : io unit :=
  match l with
  | [] => mret tt
  | a :: l' => body a;; for_each body l'
  end.

(** What a run leaves behind: the events, and the exception if one was raised. *)
Definition outcome : Type := list event * option exn.

(** A run in a world that lets every call through. *)
Definition run (m : io unit) (file : bytes) : outcome :=
  match m file with
  | (evs, Ok _) => (evs, None)
  | (evs, Err e) => (evs, Some e)
  end.

(** ** The world of a run

    [mkdir] raises when a component of the path is a file, [open] and
    [write] when the name is empty, holds a NUL byte or names a directory,
    or when the disk is full, [print] when the stream is closed.  A [world]
    says, from the calls made so far, whether the next call goes through
    ([None]) or which exception it raises. *)
Definition world : Type := list event -> event -> option exn.

(** The calls [todo] made in order after the calls [made]: the first call
    the world refuses raises, and no call is made after it. *)
Fixpoint perform (w : world) (made todo : list event) : outcome :=
  match todo with
  | [] => (made, None)
  | call :: todo' =>
      match w made call with
      | Some e => (made, Some e)
      | None => perform w (made ++ [call]) todo'
      end
  end.

(** A computation in a world, after the calls [made]: its calls are made as
    far as the world lets them; when all go through, the result is the
    computation's own. *)
Definition in_world {A} (w : world) (made : list event)
    (out : list event * result A) : list event * result A :=
  match perform w made out.1 with
  | (made', Some e) => (made', Err e)
  | (made', None) => (made', out.2)
  end.

(** A run in the world [w]. *)
Definition run_in (w : world) (m : io unit) (file : bytes) : outcome :=
  match in_world w [] (m file) with
  | (evs, Ok _) => (evs, None)
  | (evs, Err e) => (evs, Some e)
  end.

(** ** Header and table of contents

    [extract_archive], [decode_v1], [decode_v2] and [decode_v3] open with
    the same statements; they are written once here. *)

Record header : Type := {
  version : Z; alg_ctx : Z; alg_noctx : Z; alg_prot : Z;
  header_size : Z; num_entries : Z
}.

Record entry_meta : Type := {
  entry_type : Z; relpath : string; orig_size : Z; stored_size : Z; service : bytes
}.

Definition L3ARCH : bytes := [x4c; x33; x41; x52; x43; x48].

Definition read_header : io header :=
  sig ← f_read 8;
  if decide (take 6 sig = L3ARCH) then
    version ← read_uint 2;
    alg_ctx ← read_u8;
    alg_noctx ← read_u8;
    alg_prot ← read_u8;
    _ ← f_read 1;
    header_size ← read_uint 8;
    num_entries ← read_uint 4;
    mret {| version := version; alg_ctx := alg_ctx; alg_noctx := alg_noctx;
            alg_prot := alg_prot; header_size := header_size;
            num_entries := num_entries |}
  else raise ValueError.

Definition read_entry (X : Externals) : io entry_meta :=
  entry_type ← read_u8;
  path_len ← read_uint 2;
  path_bytes ← f_read path_len;
  relpath ← lift (bytes_decode X path_bytes);
  orig_size ← read_uint 8;
  stored_size ← read_uint 8;
  service_len ← read_uint 4;
  service ← (if decide (service_len = 0) then mret [] else f_read service_len);
  mret {| entry_type := entry_type; relpath := relpath; orig_size := orig_size;
          stored_size := stored_size; service := service |}.

Fixpoint read_entries (X : Externals) (n : nat) : io (list entry_meta) :=
  match n with
  | O => mret []
  | S n' => e ← read_entry X; es ← read_entries X n'; mret (e :: es)
  end.

(** [stored_bytes = f.read(stored_size) if stored_size else b''] *)
Definition read_stored (e : entry_meta) : io bytes :=
  if decide (stored_size e = 0) then mret [] else f_read (stored_size e).

(** [struct.unpack('<I', service[-4:])[0]] and [service[:-4]] *)
Definition last4 (service : bytes) : bytes := drop (length service - 4) service.

(** [if crc_val is not None and (crc32(raw) & 0xffffffff) != crc_val: print(...)] *)
Definition check_crc (X : Externals) (d : decoder_id) (relpath : string)
    (crc_val : option Z) (raw : bytes) : io unit :=
  match crc_val with
  | Some c =>
      if decide (Z.land (crc32 X raw) 4294967295 = c) then mret tt
      else emit (EPrint (MsgCrcMismatch d relpath))
  | None => mret tt
  end.

(** The body of the restoring loop of [archiver_huffman.extract_archive]. *)
Definition extract_entry (X : Externals) (h : header) (out_dir_path : Path)
    (e : entry_meta) : io unit :=
  let target_path := joinpath out_dir_path (Path_of (relpath e)) in
  emit (EMkdir (parent target_path));;
  stored_bytes ← read_stored e;
  if decide (entry_type e = archiver_huffman.ENTRY_FILE) then
    raw ← (if decide (alg_noctx h = archiver_huffman.ALG_NOCTX_HUFFMAN) then
             '(crc_val, service') ←
               (if decide (alg_prot h = archiver_huffman.ALG_PROT_CRC32
                           /\ 6 < len (service e))
                then c ← lift (unpack_uint 4 (last4 (service e)));
                     mret (Some c, drop_last 4 (service e))
                else mret (None, service e));
             raw ← lift (archiver_huffman.huffman_decode stored_bytes service'
                           (orig_size e));
             check_crc X Extract (relpath e) crc_val raw;;
             mret raw
           else mret stored_bytes);
    emit (EWrite target_path raw);;
    emit (EPrint (MsgRestored Extract (relpath e)))
  else mret tt.

Definition extract_archive (X : Externals) (out_dir : Path) : io unit :=
  h ← read_header;
  entries_meta ← read_entries X (Z.to_nat (num_entries h));
  emit (EMkdir out_dir);;
  for_each (extract_entry X h out_dir) entries_meta.

(** [universal_decoder.decode_v0]: [f.seek(8)], the length, the data. *)
Definition decode_v0 (outdir : Path) : io unit :=
  _ ← f_read 8;
  orig_len ← read_uint 8;
  data ← f_read orig_len;
  if decide (len data = orig_len) then
    emit (EMkdir outdir);;
    let outfile := joinpath outdir (Path_of "restored_v0.bin") in
    emit (EWrite outfile data);;
    emit (EPrint (MsgRestoredV0 outfile (len data)))
  else raise ValueError.

Definition decode_v1_entry (X : Externals) (h : header) (outdir : Path)
    (e : entry_meta) : io unit :=
  let target := joinpath outdir (Path_of (relpath e)) in
  emit (EMkdir (parent target));;
  stored_bytes ← read_stored e;
  expected_crc ←
    (if decide (alg_prot h = universal_decoder.ALG_PROT_CRC32 /\ 4 <= len (service e))
     then c ← lift (unpack_uint 4 (take 4 (service e))); mret (Some c)
     else mret None);
  raw ← (if decide (alg_noctx h = 2) then lift (zlib_decompress X stored_bytes)
         else mret stored_bytes);
  check_crc X V1 (relpath e) expected_crc raw;;
  emit (EWrite target raw);;
  emit (EPrint (MsgRestored V1 (relpath e))).

Definition decode_v1 (X : Externals) (outdir : Path) : io unit :=
  h ← read_header;
  entries_meta ← read_entries X (Z.to_nat (num_entries h));
  emit (EMkdir outdir);;
  for_each (decode_v1_entry X h outdir) entries_meta.

Definition decode_v2_entry (X : Externals) (h : header) (outdir : Path)
    (e : entry_meta) : io unit :=
  let target := joinpath outdir (Path_of (relpath e)) in
  emit (EMkdir (parent target));;
  stored_bytes ← read_stored e;
  raw ← (if decide (alg_noctx h = 3) then
           '(crc_val, service') ←
             (if decide (alg_prot h = universal_decoder.ALG_PROT_CRC32
                         /\ 4 <= len (service e))
              then c ← lift (unpack_uint 4 (last4 (service e)));
                   mret (Some c, drop_last 4 (service e))
              else mret (None, service e));
           raw ← lift (universal_decoder.huffman_decode_bytes stored_bytes service'
                         (orig_size e));
           check_crc X V2 (relpath e) crc_val raw;;
           mret raw
         else if decide (alg_noctx h = 2) then lift (zlib_decompress X stored_bytes)
         else mret stored_bytes);
  emit (EWrite target raw);;
  emit (EPrint (MsgRestored V2 (relpath e))).

Definition decode_v2 (X : Externals) (outdir : Path) : io unit :=
  h ← read_header;
  entries_meta ← read_entries X (Z.to_nat (num_entries h));
  emit (EMkdir outdir);;
  for_each (decode_v2_entry X h outdir) entries_meta.

(** [decode_v3] calls [huffman_decode], a name [universal_decoder.py] neither
    defines nor imports (its own decoder is [huffman_decode_bytes]): the call
    raises [NameError] when the Huffman branch is reached. *)
Definition decode_v3_entry (X : Externals) (h : header) (outdir : Path)
    (e : entry_meta) : io unit :=
  let target := joinpath outdir (Path_of (relpath e)) in
  emit (EMkdir (parent target));;
  stored_bytes ← read_stored e;
  if decide (entry_type e = 1) then
    let algorithm_code := match service e with b :: _ => byte_to_Z b | [] => 0 end in
    let meta_info := match service e with _ :: m => m | [] => [] end in
    raw_data ← (if decide (algorithm_code = 0) then mret stored_bytes
                else if decide (algorithm_code = 3) then raise NameError
                else raise ValueError);
    (if decide (alg_prot h = 11 /\ 4 <= len meta_info) then
       crc_val ← lift (unpack_uint 4 (last4 meta_info));
       check_crc X V3 (relpath e) (Some crc_val) raw_data
     else mret tt);;
    emit (EWrite target raw_data);;
    emit (EPrint (MsgRestored V3 (relpath e)))
  else mret tt.

Definition decode_v3 (X : Externals) (outdir : Path) : io unit :=
  h ← read_header;
  entries_meta ← read_entries X (Z.to_nat (num_entries h));
  emit (EMkdir outdir);;
  for_each (decode_v3_entry X h outdir) entries_meta.

(** The decoder a version number selects in [universal_decode]. *)
Definition route (X : Externals) (version : Z) (outdir : Path) : io unit :=
  if decide (version = 0) then decode_v0 outdir
  else if decide (version = 1) then decode_v1 X outdir
  else if decide (version = 2) then decode_v2 X outdir
  else if decide (version = 3) then decode_v3 X outdir
  else raise RuntimeError.

(** [universal_decode]: the version is read from [head[6:8]], the last two
    bytes of the 8-byte signature field; the chosen decoder then opens the
    archive again and reads it from its first byte. *)
Definition universal_decode (X : Externals) (archive : bytes) (outdir : Path) : outcome :=
  let head := take 8 archive in
  if decide (take 6 head = L3ARCH) then
    match unpack_uint 2 (drop 6 head) with
    | Ok version =>
        let '(evs, exc) := run (route X version outdir) archive in
        (EPrint (MsgSignatureOk version) :: evs, exc)
    | Err e => ([], Some e)
    end
  else ([], Some ValueError).

(** ** The writers *)

(** One row of the table of contents, as both [build_archive] and
    [save_archive_v3] pack it. *)
Definition toc_row (type : Z) (relpath : string) (orig_size stored_size : Z)
    (service_bytes : bytes) : result bytes :=
  let relpath_bytes := str_encode relpath in
  b_type ← pack_uint 1 type;
  b_plen ← pack_uint 2 (len relpath_bytes);
  b_orig ← pack_uint 8 orig_size;
  b_stored ← pack_uint 8 stored_size;
  b_slen ← pack_uint 4 (len service_bytes);
  Ok (b_type ++ b_plen ++ relpath_bytes ++ b_orig ++ b_stored ++ b_slen ++ service_bytes).

(** The fixed header both writers emit, up to the entry count. *)
Definition pack_header (signature : bytes) (version alg_ctx alg_noctx alg_prot reserved
    header_size n : Z) : result bytes :=
  b_version ← pack_uint 2 version;
  b_ctx ← pack_uint 1 alg_ctx;
  b_noctx ← pack_uint 1 alg_noctx;
  b_prot ← pack_uint 1 alg_prot;
  b_res ← pack_uint 1 reserved;
  b_hsize ← pack_uint 8 header_size;
  b_n ← pack_uint 4 n;
  Ok (signature ++ b_version ++ b_ctx ++ b_noctx ++ b_prot ++ b_res ++ b_hsize ++ b_n).

Definition FIXED_HEADER_LEN : Z := 8 + 2 + 1 + 1 + 1 + 1 + 8 + 4.

(** An entry handed to [build_archive], with the bytes its [orig_path] holds. *)
Record file_entry : Type := { fe_type : Z; fe_relpath : string; fe_raw : bytes }.

(** The first loop of [build_archive]: (stored, service) of one entry. *)
Definition encode_entry (X : Externals) (huffman crc : bool) (ent : file_entry)
    : result (bytes * bytes) :=
  '(stored, service) ←
    (if huffman then archiver_huffman.huffman_encode (fe_raw ent)
     else Ok (fe_raw ent, []));
  if crc then
    b_crc ← pack_uint 4 (Z.land (crc32 X (fe_raw ent)) 4294967295);
    Ok (stored, service ++ b_crc)
  else Ok (stored, service).

Fixpoint encode_entries (X : Externals) (huffman crc : bool) (entries : list file_entry)
    : result (list (bytes * bytes)) :=
  match entries with
  | [] => Ok []
  | ent :: entries' =>
      r ← encode_entry X huffman crc ent;
      rs ← encode_entries X huffman crc entries';
      Ok (r :: rs)
  end.

Fixpoint build_table (entries : list file_entry) (coded : list (bytes * bytes))
    : result bytes :=
  match entries, coded with
  | ent :: entries', (stored, service) :: coded' =>
      row ← toc_row (fe_type ent) (fe_relpath ent) (len (fe_raw ent)) (len stored) service;
      rest ← build_table entries' coded';
      Ok (row ++ rest)
  | _, _ => Ok []
  end.

(** [archiver_huffman.build_archive]: the bytes written to [out_path]. *)
Definition build_archive (X : Externals) (entries : list file_entry) (huffman crc : bool)
    : result bytes :=
  let alg_noctx := if huffman then archiver_huffman.ALG_NOCTX_HUFFMAN
                   else archiver_huffman.ALG_NOCTX_NONE in
  let alg_prot := if crc then archiver_huffman.ALG_PROT_CRC32
                  else archiver_huffman.ALG_PROT_NONE in
  coded ← encode_entries X huffman crc entries;
  table_bytes ← build_table entries coded;
  let header_size := FIXED_HEADER_LEN + len table_bytes in
  head ← pack_header archiver_huffman.SIGNATURE archiver_huffman.VERSION 0 alg_noctx
           alg_prot archiver_huffman.RESERVED header_size (len entries);
  Ok (head ++ table_bytes ++ concat (map fst coded)).

(** [intelligent_coder.intelligent_encode_file]: [None] is what the function
    returns when a forced algorithm is neither 0 nor 3 (it falls off its end). *)
Definition intelligent_encode_file (X : Externals) (data : bytes)
    (force_algorithm : option Z) (enable_crc : bool)
    : result (option (Z * bytes * bytes * Z)) :=
  let n_original := len data in
  match force_algorithm with
  | Some alg =>
      if decide (alg = 0) then Ok (Some (0, data, [], n_original))
      else if decide (alg = 3) then
        '(encoded, meta) ← archiver_huffman.huffman_encode data;
        let final_size := len encoded + len meta in
        if enable_crc then
          b_crc ← pack_uint 4 (Z.land (crc32 X data) 4294967295);
          Ok (Some (3, encoded, meta ++ b_crc, final_size + 4))
        else Ok (Some (3, encoded, meta, final_size))
      else Ok None
  | None =>
      '(encoded, meta) ← archiver_huffman.huffman_encode data;
      let n_compressed_data := len encoded in
      let n_meta := len meta in
      let n_compressed_total :=
        if enable_crc then n_compressed_data + n_meta + 4
        else n_compressed_data + n_meta in
      if decide (n_original <= n_compressed_total) then
        Ok (Some (0, data, [], n_original))
      else
        let final_size := n_compressed_total in
        if enable_crc then
          b_crc ← pack_uint 4 (Z.land (crc32 X data) 4294967295);
          Ok (Some (3, encoded, meta ++ b_crc, final_size + 4))
        else Ok (Some (3, encoded, meta, final_size))
  end.

(** An entry of [create_intelligent_archive], with its data block. *)
Record v3_entry : Type := {
  v3_type : Z; v3_relpath : string; v3_orig_size : Z; v3_stored_size : Z;
  v3_service : bytes; v3_algorithm_code : Z; v3_block : bytes
}.

(** [bytes([x])]: [ValueError] outside [range(256)]. *)
Definition bytes_of_int (x : Z) : result bytes :=
  if decide (0 <= x < 256) then Ok [byte_of_Z x] else Err ValueError.

Fixpoint v3_table (entries : list v3_entry) : result bytes :=
  match entries with
  | [] => Ok []
  | entry :: entries' =>
      code ← bytes_of_int (v3_algorithm_code entry);
      row ← toc_row (v3_type entry) (v3_relpath entry) (v3_orig_size entry)
              (v3_stored_size entry) (code ++ v3_service entry);
      rest ← v3_table entries';
      Ok (row ++ rest)
  end.

(** [intelligent_coder.save_archive_v3]: the bytes written to [output_path]. *)
Definition save_archive_v3 (entries : list v3_entry) (enable_crc : bool) : result bytes :=
  let alg_prot := if enable_crc then archiver_huffman.ALG_PROT_CRC32 else 0 in
  table_bytes ← v3_table entries;
  let header_size := FIXED_HEADER_LEN + len table_bytes in
  head ← pack_header archiver_huffman.SIGNATURE 3 0 0 alg_prot 0 header_size (len entries);
  Ok (head ++ table_bytes ++ concat (map v3_block entries)).

(** The loop of [create_intelligent_archive] over the files read, each given
    as (name, data); unpacking a [None] result raises [TypeError]. *)
Fixpoint intelligent_entries (X : Externals) (inputs : list (string * bytes))
    (force_algorithm : option Z) (enable_crc : bool) : result (list v3_entry) :=
  match inputs with
  | [] => Ok []
  | (name, data) :: inputs' =>
      r ← intelligent_encode_file X data force_algorithm enable_crc;
      match r with
      | None => Err TypeError
      | Some (algorithm_code, encoded_data, meta_info, _) =>
          rest ← intelligent_entries X inputs' force_algorithm enable_crc;
          Ok ({| v3_type := 1; v3_relpath := name; v3_orig_size := len data;
                 v3_stored_size := len encoded_data; v3_service := meta_info;
                 v3_algorithm_code := algorithm_code; v3_block := encoded_data |} :: rest)
      end
  end.

(** [create_intelligent_archive]: [None] stands for the [False] returned when
    there is nothing to archive. *)
Definition create_intelligent_archive (X : Externals) (inputs : list (string * bytes))
    (force_algorithm : option Z) (enable_crc : bool) : result (option bytes) :=
  entries ← intelligent_entries X inputs force_algorithm enable_crc;
  match entries with
  | [] => Ok None
  | _ => archive ← save_archive_v3 entries enable_crc; Ok (Some archive)
  end.

(** ** A concrete instance of the library parameters, for the examples *)

Fixpoint crc_shift (k : nat) (c : Z) : Z :=
  match k with
  | O => c
  | S k' =>
      crc_shift k' (if Z.testbit c 0 then Z.lxor (Z.shiftr c 1) 3988292384
                    else Z.shiftr c 1)
  end.

(** CRC-32 (IEEE 802.3, reflected), the function [binascii.crc32] computes. *)
Definition crc32_ieee (data : bytes) : Z :=
  Z.lxor
    (foldl (fun c b => crc_shift 8 (Z.lxor c (byte_to_Z b))) 4294967295 data)
    4294967295.

(** ASCII text is valid UTF-8; the examples use no other. *)
Definition ascii_only (b : bytes) : bool :=
  forallb (fun x => bool_decide (byte_to_Z x < 128)) b.

Definition py : Externals :=
  {| crc32 := crc32_ieee;
     zlib_decompress := fun _ => Err ZlibError;
     utf8_valid := ascii_only |}.

(** A service blob is truncated when it is shorter than the layout it
    declares: 2 + 2 bytes, then 5 bytes for each of the symbols counted in
    its bytes 2..3. *)
Definition service_truncated (service : bytes) : Prop :=
  len service < 4 \/ len service < 4 + 5 * le_int (take 2 (drop 2 service)).

(** ** Example inputs *)

Definition out_dir : Path := Path_of "out".

(** A protected header with the given codec. *)
Definition protected_header (codec : Z) : header :=
  {| version := 2; alg_ctx := 0; alg_noctx := codec; alg_prot := 11;
     header_size := 0; num_entries := 1 |}.

(** The entry of a two-byte file whose service blob is a checksum of zeros. *)
Definition entry_zero_crc : entry_meta :=
  {| entry_type := 1; relpath := "a.txt"; orig_size := 2; stored_size := 2;
     service := [x00; x00; x00; x00] |}.

(** The service blob [huffman_encode(b"AB")] returns (padding 6, two
    symbols), followed by a checksum. *)
Definition table_AB : bytes :=
  [x06; x00; x02; x00; x41; x01; x00; x00; x00; x42; x01; x00; x00; x00].

Definition entry_AB (checksum : bytes) : entry_meta :=
  {| entry_type := 1; relpath := "a.txt"; orig_size := 2; stored_size := 1;
     service := table_AB ++ checksum |}.

(** A two-byte file, the archive [build_archive] writes for it with
    [crc=True] and no compression, and that archive with the last bit of
    its payload flipped. *)
Definition hi_entry : file_entry :=
  {| fe_type := 1; fe_relpath := "a.txt"; fe_raw := [x68; x69] |}.

Definition store_archive : bytes :=
  match build_archive py [hi_entry] false true with Ok a => a | Err _ => [] end.

Definition tampered_store_archive : bytes := removelast store_archive ++ [x68].

(** The paths a run writes to. *)
Definition written (evs : list event) : list Path :=
  omap (fun ev => match ev with EWrite p _ => Some p | _ => None end) evs.



(** A computation that writes nowhere but at [target]. *)
Definition writes_only {A} (target : Path) (m : io A) : Prop :=
  forall rest p, In p (written (m rest).1) -> p = target.

(** Two files for [build_archive], and one input of the intelligent coder. *)
Definition two_files : list file_entry :=
  [ {| fe_type := 1; fe_relpath := "a.txt";
       fe_raw := [x61; x62; x72; x61; x63; x61; x64; x61; x62; x72; x61] |};
    {| fe_type := 1; fe_relpath := "b.bin"; fe_raw := [x00; x01; x00; x02; x00] |} ].

Definition huffman_archive : bytes :=
  match build_archive py two_files true true with Ok a => a | Err _ => [] end.

Definition intelligent_archive : bytes :=
  match create_intelligent_archive py [("x.bin"%string, [x61; x62; x61])] (Some 3) false with
  | Ok (Some a) => a
  | _ => []
  end.

Definition intelligent_v3_entries : list v3_entry :=
  match intelligent_entries py [("x.bin"%string, [x61; x62; x61])] (Some 3) false with
  | Ok es => es
  | Err _ => []
  end.

(** A v0 archive of two bytes, and an archive tagged 99. *)
Definition v0_archive : bytes := L3ARCH ++ [x00; x00] ++ le_bytes 8 2 ++ [x68; x69].

Definition v99_archive : bytes := L3ARCH ++ [x63; x00] ++ le_bytes 8 2 ++ [x68; x69].

(** Encoding, then decoding with the service blob and the length of the
    input: what [extract_archive] does to what [build_archive] stored. *)
Definition huffman_round_trip (data : bytes) : result bytes :=
  '(encoded, service) ← archiver_huffman.huffman_encode data;
  archiver_huffman.huffman_decode encoded service (len data).

(** ** Trees and codes, for the statements about the coder *)

(** The symbols at the leaves of a tree, from left to right. *)
Fixpoint leaves (n : Node) : list byte :=
  match n with
  | mkNode _ (Some s) _ _ => [s]
  | mkNode _ None l r =>
      match l with Some l' => leaves l' | None => [] end ++
      match r with Some r' => leaves r' | None => [] end
  end.

(** A tree as the merging loop builds it: a node with a symbol is a leaf,
    any other node has both children. *)
Inductive full_tree : Node -> Prop :=
  | full_leaf fr s l r : full_tree (mkNode fr (Some s) l r)
  | full_node fr a b :
      full_tree a -> full_tree b -> full_tree (mkNode fr None (Some a) (Some b)).

(** [code_at n p s]: going down from [n] along the bits [p] ([false] to the
    left, [true] to the right) ends at a leaf that carries [s]. *)
Inductive code_at : Node -> bits -> byte -> Prop :=
  | code_here fr s l r : code_at (mkNode fr (Some s) l r) [] s
  | code_left fr a r p s :
      code_at a p s -> code_at (mkNode fr None (Some a) r) (false :: p) s
  | code_right fr l b p s :
      code_at b p s -> code_at (mkNode fr None l (Some b)) (true :: p) s.

(** The keys of a [dict], in order. *)
Definition keys {K V} (d : dict K V) : list K := map fst d.

(** The number a bit string denotes. *)
Definition bits_value (s : bits) : Z := foldl (fun acc b => 2 * acc + bit_to_Z b) 0 s.
(** An input on which the coder works: two different bytes occur in it, and
    its length fits the 32-bit counts of the service blob. *)
Definition codable (data : bytes) : Prop :=
  (exists a b, a ∈ data /\ b ∈ data /\ a <> b) /\ len data < 4294967296.

(** The rows of the service blob: a symbol and its count. *)
Definition table_rows (freqs : dict byte Z) : bytes :=
  concat (map (fun '(sym, fr) => sym :: le_bytes 4 fr) freqs).

(** ** Reading back what was written *)

(** [m] reads exactly the bytes [bs] off the front of the file, emits
    nothing and returns [a]. *)
Definition parses {A} (m : io A) (bs : bytes) (a : A) : Prop :=
  forall rest, m (bs ++ rest) = ([], Ok (a, rest)).

(** The table entry [build_archive] writes for an entry it encoded as
    [(stored, service)]. *)
Definition entry_meta_of (ent : file_entry) (coded : bytes * bytes) : entry_meta :=
  {| entry_type := fe_type ent; relpath := fe_relpath ent;
     orig_size := len (fe_raw ent); stored_size := len coded.1; service := coded.2 |}.

(** What a decoder [d] leaves behind when it restores the entries. *)
Definition restore_events (d : decoder_id) (outdir : Path) (entries : list file_entry)
    : list event :=
  flat_map (fun ent =>
              let target := joinpath outdir (Path_of (fe_relpath ent)) in
              [EMkdir (parent target); EWrite target (fe_raw ent);
               EPrint (MsgRestored d (fe_relpath ent))]) entries.




(** ** The heap order, for the statements about [heapq] *)

(** The order [Node.__lt__] puts on nodes, as a number: the frequency, then
    the symbol (or 0). *)
Definition node_key (n : Node) : Z := 256 * freq n + symbol_or_0 n.

(** Position [q] lies in the subtree of the heap rooted at position [s]. *)
Inductive below (s : nat) : nat -> Prop :=
  | below_root : below s s
  | below_left q : below s q -> below s (2 * q + 1)
  | below_right q : below s q -> below s (2 * q + 2).

(** The heap invariant of [heapq] on the parents from position [s] on: no
    child is less than its parent. *)
Definition heap_from {A} (key : A -> Z) (s : nat) (h : list A) : Prop :=
  forall i x p, (0 < i)%nat -> (s <= Nat.shiftr (i - 1) 1)%nat ->
    h !! i = Some x -> h !! Nat.shiftr (i - 1) 1 = Some p -> key p <= key x.
(** ** Code lengths, for the statements about the size of the code *)

(** What a code costs whose lengths are given with the weight (the count) of
    each symbol: the sum of weight times length. *)
Definition weighted_length (L : list (Z * nat)) : Z :=
  foldr (fun wl acc => wl.1 * Z.of_nat wl.2 + acc) 0 L.

(** The Kraft sum of a list of code lengths, times [2 ^ M]. *)
Definition kraft_sum (M : nat) (ls : list nat) : Z :=
  foldr (fun l acc => 2 ^ Z.of_nat (M - l) + acc) 0 ls.

(** Kraft's inequality: the sum of [2 ^ -l] over the lengths is at most 1.
    The lengths of the code words of a prefix-free binary code satisfy it, and
    any lengths that satisfy it are those of such a code. *)
Definition kraft (ls : list nat) : Prop :=
  exists M, Forall (fun l => (l <= M)%nat) ls /\ kraft_sum M ls <= 2 ^ Z.of_nat M.

(** Huffman's procedure on the weights alone: as long as two weights are
    left, two least ones are replaced by their sum; the cost is the sum of
    the sums. *)
Inductive huffman_cost : list Z -> Z -> Prop :=
  | huffman_cost_one w : huffman_cost [w] 0
  | huffman_cost_merge W a b R W' c :
      W ≡ₚ a :: b :: R -> a <= b -> Forall (Z.le b) R ->
      W' ≡ₚ (a + b) :: R -> huffman_cost W' c ->
      huffman_cost W (a + b + c).
(** The leaves of a tree from left to right, each with its symbol, its
    count and its depth below the root, the root being at depth [d]. *)
Fixpoint leaf_rows (d : nat) (n : Node) : list (byte * (Z * nat)) :=
  match n with
  | mkNode fr (Some s) _ _ => [(s, (fr, d))]
  | mkNode _ None l r =>
      match l with Some l' => leaf_rows (S d) l' | None => [] end ++
      match r with Some r' => leaf_rows (S d) r' | None => [] end
  end.

(** The bits a tree spends on the symbols at its leaves: count times depth,
    summed up. *)
Definition tree_cost (n : Node) : Z := weighted_length (map snd (leaf_rows 0 n)).

(** The symbols of a tree with their counts. *)
Definition leaf_table (n : Node) : dict byte Z :=
  map (fun row => (row.1, row.2.1)) (leaf_rows 0 n).

(** A tree as the merging loop builds it, with its frequencies: a node
    without a symbol has both children and the sum of their frequencies. *)
Inductive summed : Node -> Prop :=
  | summed_leaf fr s l r : summed (mkNode fr (Some s) l r)
  | summed_node a b :
      summed a -> summed b -> summed (mkNode (freq a + freq b) None (Some a) (Some b)).

(** A prefix-free list of code words: none is a prefix of another. *)
Definition prefix_free (cs : list bits) : Prop :=
  ForallOrdPairs (fun p q => ~ p `prefix_of` q /\ ~ q `prefix_of` p) cs.

(** The code words that start with bit [b], without that bit. *)
Fixpoint tails (b : bool) (cs : list bits) : list bits :=
  match cs with
  | [] => []
  | [] :: cs' => tails b cs'
  | (b' :: t) :: cs' => if decide (b' = b) then t :: tails b cs' else tails b cs'
  end.

(** ** Entropy, for the statement about the entropy bound *)

(** The sum of [f] over a list, in the real numbers. *)
Definition Rsum {A} (f : A -> R) (l : list A) : R :=
  foldr (fun x acc => (f x + acc)%R) 0%R l.

(** The logarithm to base 2. *)
Definition log2 (x : R) : R := (ln x / ln 2)%R.

(** The empirical zeroth-order entropy of an input of [n] bytes, in bits per
    byte: a byte that occurs [c] times contributes [(c / n) * log2 (n / c)]. *)
Definition entropy (data : bytes) : R :=
  Rsum (fun kv : byte * Z =>
          (IZR kv.2 / IZR (len data) * log2 (IZR (len data) / IZR kv.2))%R)
       (Counter data).

(** Shannon's code length for a symbol that occurs [c] times among [n]: the
    least [l] with [n <= 2 ^ l * c]. *)
Definition shannon_length (n c : Z) : nat := Z.to_nat (Z.log2_up ((n + c - 1) / c)).

(** ** The v2 paths without a checksum, for the statement about unverified entries *)

(** An entry restored from its stored bytes alone: no checksum, no service
    blob and no protection tag has a part in it.  [decompress] stands for
    what the codec does to the stored bytes, [files_only] for the test
    [entry_type == ENTRY_FILE] of [extract_archive]. *)
Definition restore_unverified (d : decoder_id) (decompress : bytes -> result bytes)
    (files_only : bool) (outdir : Path) (e : entry_meta) : io unit :=
  let target := joinpath outdir (Path_of (relpath e)) in
  emit (EMkdir (parent target));;
  stored_bytes ← read_stored e;
  if files_only && negb (bool_decide (entry_type e = 1)) then mret tt
  else
    raw ← lift (decompress stored_bytes);
    emit (EWrite target raw);;
    emit (EPrint (MsgRestored d (relpath e))).

(** A computation all of whose events satisfy [P]. *)
Definition emits_only {A} (P : event -> Prop) (m : io A) : Prop :=
  forall rest, Forall P (m rest).1.

(** An event other than the report of a checksum mismatch. *)
Definition no_report (ev : event) : Prop :=
  forall d p, ev <> EPrint (MsgCrcMismatch d p).

(** * Properties *)

(** ** The coder on degenerate alphabets *)

Lemma Counter_cons (b : byte) (data : bytes) :
  Counter (b :: data) =
  foldl (fun d x => dict_set d x (default 0 (dict_get d x) + 1)) [(b, 1)] data.
Proof. reflexivity. Qed.

Lemma count_repeat (b : byte) (k : Z) (n : nat) :
  foldl (fun d x => dict_set d x (default 0 (dict_get d x) + 1)) [(b, k)] (repeat b n)
  = [(b, k + Z.of_nat n)].
Proof.
  revert k. induction n as [|n IH]; intros k; simpl.
  - by rewrite Z.add_0_r.
  - destruct (decide (b = b)) as [_|Hne]; [|done]. simpl.
    rewrite IH. do 2 f_equal. lia.
Qed.

Lemma Counter_repeat (b : byte) (n : nat) :
  Counter (repeat b (S n)) = [(b, 1 + Z.of_nat n)].
Proof. simpl repeat. rewrite Counter_cons. apply count_repeat. Qed.

Lemma huffman_bits_single_symbol (b : byte) (n : nat) :
  archiver_huffman.huffman_bits (repeat b (S n)) = Err AttributeError.
Proof.
  unfold archiver_huffman.huffman_bits. rewrite Counter_repeat. reflexivity.
Qed.

Lemma huffman_encode_single_symbol (b : byte) (n : nat) :
  archiver_huffman.huffman_encode (repeat b (S n)) = Err AttributeError.
Proof.
  unfold archiver_huffman.huffman_encode.
  by rewrite huffman_bits_single_symbol.
Qed.

(** C4. [huffman_encode(b"")] does not return an empty payload with a
    zero-symbol table: [build_huffman_tree] indexes the empty heap and the
    call ends in [IndexError]. *)
Theorem huffman_encode_empty_raises :
  archiver_huffman.huffman_encode [] = Err IndexError.
Proof. reflexivity. Qed.

(** ** Truncated service metadata *)

Lemma read_table_short (n : nat) (service : bytes) (offset : nat) (freqs : dict byte Z) :
  (0 < n)%nat -> (length service < offset + 5 * n)%nat ->
  read_table n service offset freqs = Err StructError.
Proof.
  revert offset freqs. induction n as [|n IH]; intros offset freqs Hn Hlen; [lia|].
  simpl. unfold unpack_from_BI.
  destruct (decide (offset + 5 <= length service)%nat) as [Hle|Hgt]; [|done].
  destruct (drop offset service) as [|sym rest] eqn:Hd; [done|].
  simpl. apply IH; lia.
Qed.

Lemma unpack_from_uint_short (w : nat) (buf : bytes) (offset : nat) :
  (length buf < offset + w)%nat -> unpack_from_uint w buf offset = Err StructError.
Proof. intros H. unfold unpack_from_uint. case_decide; [lia|done]. Qed.

Lemma unpack_from_uint_ok (w : nat) (buf : bytes) (offset : nat) :
  (offset + w <= length buf)%nat ->
  unpack_from_uint w buf offset = Ok (le_int (take w (drop offset buf))).
Proof. intros H. unfold unpack_from_uint. case_decide; [done|lia]. Qed.

Lemma le_int_nonneg (bs : bytes) : 0 <= le_int bs.
Proof.
  induction bs as [|b bs IH]; simpl; [lia|].
  unfold byte_to_Z. lia.
Qed.

Lemma header_then_table_short (service : bytes) :
  4 <= len service < 4 + 5 * le_int (take 2 (drop 2 service)) ->
  forall freqs,
    read_table (Z.to_nat (le_int (take 2 (drop 2 service)))) service 4 freqs
    = Err StructError.
Proof.
  unfold len. intros [H4 Hshort] freqs.
  apply read_table_short; lia.
Qed.

(** C8 (amended).  On a service blob shorter than the layout it declares,
    [archiver_huffman.huffman_decode] raises [struct.error]; so does
    [universal_decoder.huffman_decode_bytes], except that a blob of fewer
    than 4 bytes makes it return the empty byte string (its first
    statement). *)
Theorem truncated_service_metadata (encoded service : bytes) (orig_size : Z) :
  service_truncated service ->
  archiver_huffman.huffman_decode encoded service orig_size = Err StructError /\
  universal_decoder.huffman_decode_bytes encoded service orig_size =
    (if decide (len service < 4) then Ok [] else Err StructError).
Proof.
  intros Htrunc. unfold archiver_huffman.huffman_decode,
    universal_decoder.huffman_decode_bytes.
  destruct (decide (len service < 4)) as [Hlt|Hge].
  - split; [|done]. unfold len in Hlt.
    destruct (decide (length service < 2)%nat).
    + rewrite (unpack_from_uint_short 2 service 0) by lia. done.
    + rewrite (unpack_from_uint_ok 2 service 0) by lia. simpl.
      rewrite (unpack_from_uint_short 2 service 2) by lia. done.
  - destruct Htrunc as [?|Hshort]; [lia|].
    unfold len in Hge.
    rewrite (unpack_from_uint_ok 2 service 0), (unpack_from_uint_ok 2 service 2) by lia.
    simpl. rewrite header_then_table_short by (unfold len in *; lia). done.
Qed.

Lemma truncated_service_metadata_witness :
  service_truncated [x00; x00; x01; x00] /\
  archiver_huffman.huffman_decode [x80] [x00; x00; x01; x00] 1 = Err StructError /\
  universal_decoder.huffman_decode_bytes [x80] [x00; x00; x01; x00] 1 = Err StructError.
Proof.
  assert (H : service_truncated [x00; x00; x01; x00]) by (right; vm_compute; done).
  split; [exact H|].
  exact (truncated_service_metadata [x80] [x00; x00; x01; x00] 1 H).
Defined.

(** C8, as stated, fails: a blob of three bytes is shorter than any layout,
    and [huffman_decode_bytes] returns [b''] for it. *)
Lemma truncated_service_silent_return :
  service_truncated [x00; x00; x01] /\
  universal_decoder.huffman_decode_bytes [x80] [x00; x00; x01] 1 = Ok [].
Proof. split; [left; vm_compute; done | reflexivity]. Defined.

(** ** The entry loops of the decoders *)

Lemma read_stored_total (e : entry_meta) (rest : bytes) :
  exists stored rest', read_stored e rest = ([], Ok (stored, rest')).
Proof.
  unfold read_stored, f_read. repeat case_decide; eauto.
Qed.

Ltac io_unfold :=
  unfold mbind, io_bind, mret, io_ret, emit, lift, raise, check_crc.

Lemma for_each_cons {A} (body : A -> io unit) (a : A) (l : list A) (rest : bytes) :
  for_each body (a :: l) rest =
    match body a rest with
    | (evs, Ok (_, rest')) =>
        let '(evs', r) := for_each body l rest' in (evs ++ evs', r)
    | (evs, Err e) => (evs, Err e)
    end.
Proof. reflexivity. Qed.

(** Where the v2 paths do look at a checksum: in the Huffman branch.  For
    a protected Huffman entry whose stored checksum differs from the CRC-32 of
    the decoded bytes the step prints the mismatch, goes on to write the
    decoded bytes, and the loop goes on with the entries that follow.
    [decode_v2] looks at the checksum when the service blob has at least 4
    bytes, [extract_archive] when it has more than 6. *)
Lemma huffman_crc_mismatch_calls (X : Externals) (h : header) (outdir : Path)
    (e : entry_meta) (es : list entry_meta) (rest stored rest' : bytes) :
  read_stored e rest = ([], Ok (stored, rest')) ->
  alg_noctx h = 3 -> alg_prot h = 11 -> 4 <= len (service e) ->
  let target := joinpath outdir (Path_of (relpath e)) in
  let table := drop_last 4 (service e) in
  (forall raw,
     universal_decoder.huffman_decode_bytes stored table (orig_size e) = Ok raw ->
     Z.land (crc32 X raw) 4294967295 <> le_int (last4 (service e)) ->
     for_each (decode_v2_entry X h outdir) (e :: es) rest =
       let '(evs, r) := for_each (decode_v2_entry X h outdir) es rest' in
       ([EMkdir (parent target); EPrint (MsgCrcMismatch V2 (relpath e));
         EWrite target raw; EPrint (MsgRestored V2 (relpath e))] ++ evs, r)) /\
  (forall raw,
     entry_type e = 1 -> 6 < len (service e) ->
     archiver_huffman.huffman_decode stored table (orig_size e) = Ok raw ->
     Z.land (crc32 X raw) 4294967295 <> le_int (last4 (service e)) ->
     for_each (extract_entry X h outdir) (e :: es) rest =
       let '(evs, r) := for_each (extract_entry X h outdir) es rest' in
       ([EMkdir (parent target); EPrint (MsgCrcMismatch Extract (relpath e));
         EWrite target raw; EPrint (MsgRestored Extract (relpath e))] ++ evs, r)).
Proof.
  intros Hread Hcodec Hprot Hlen target table.
  assert (Hcrc : unpack_uint 4 (last4 (service e)) = Ok (le_int (last4 (service e)))).
  { unfold unpack_uint, last4. rewrite length_drop. unfold len in Hlen.
    case_decide; [done|lia]. }
  split.
  - intros raw Hdec Hne. rewrite for_each_cons.
    unfold decode_v2_entry at 1. io_unfold. rewrite Hread.
    unfold universal_decoder.ALG_PROT_CRC32.
    destruct (decide (alg_noctx h = 3)) as [_|]; [|done].
    destruct (decide (alg_prot h = 11 /\ 4 <= len (service e))) as [_|[]]; [|done].
    rewrite Hcrc. fold table. rewrite Hdec.
    destruct (decide _) as [|_]; [done|]. simpl.
    by destruct (for_each _ es rest').
  - intros raw Hfile Hlen6 Hdec Hne. rewrite for_each_cons.
    unfold extract_entry at 1. io_unfold. rewrite Hread.
    unfold archiver_huffman.ENTRY_FILE, archiver_huffman.ALG_NOCTX_HUFFMAN,
      archiver_huffman.ALG_PROT_CRC32.
    destruct (decide (entry_type e = 1)) as [_|]; [|done].
    destruct (decide (alg_noctx h = 3)) as [_|]; [|done].
    destruct (decide (alg_prot h = 11 /\ 6 < len (service e))) as [_|[]]; [|done].
    rewrite Hcrc. fold table. rewrite Hdec.
    destruct (decide _) as [|_]; [done|]. simpl.
    by destruct (for_each _ es rest').
Qed.

(** ** Where the decoders write *)




Section writes_only.
Context (target : Path).

Lemma writes_only_ret {A} (a : A) : writes_only target (mret a).
Proof. by intros rest p []. Qed.


Lemma writes_only_emit_write (data : bytes) : writes_only target (emit (EWrite target data)).
Proof. by intros rest p [<-|[]]. Qed.

Lemma writes_only_emit_mkdir (q : Path) : writes_only target (emit (EMkdir q)).
Proof. by intros rest p []. Qed.

Lemma writes_only_emit_print (m : message) : writes_only target (emit (EPrint m)).
Proof. by intros rest p []. Qed.

Lemma writes_only_lift {A} (r : result A) : writes_only target (lift r).
Proof. intros rest p. unfold lift. by destruct r. Qed.

Lemma writes_only_raise {A} (err : exn) : writes_only target (raise (A:=A) err).
Proof. by intros rest p []. Qed.

Lemma writes_only_f_read (n : Z) : writes_only target (f_read n).
Proof. intros rest p. unfold f_read. by case_decide. Qed.

Lemma writes_only_read_stored (e : entry_meta) : writes_only target (read_stored e).
Proof.
  unfold read_stored. case_decide; [apply writes_only_ret|apply writes_only_f_read].
Qed.

Lemma writes_only_check_crc (X : Externals) (d : decoder_id) (relpath : string)
    (crc_val : option Z) (raw : bytes) :
  writes_only target (check_crc X d relpath crc_val raw).
Proof.
  unfold check_crc. destruct crc_val; [case_decide|];
    auto using writes_only_ret, writes_only_emit_print.
Qed.

End writes_only.

Create HintDb writes.

#[local] Hint Resolve writes_only_ret writes_only_emit_write writes_only_emit_mkdir
  writes_only_emit_print writes_only_lift writes_only_raise writes_only_f_read
  writes_only_read_stored writes_only_check_crc : writes.




(** ** The dispatcher *)

Ltac inv_bind H :=
  repeat match type of H with
         | (?m ≫= _) = Ok _ =>
             let E := fresh "E" in destruct m eqn:E; simpl in H; [|discriminate H]
         | (let '(_, _) := ?p in _) = Ok _ => destruct p
         end.

Lemma pack_header_signature (signature : bytes)
    (version alg_ctx alg_noctx alg_prot reserved header_size n : Z) (head : bytes) :
  pack_header signature version alg_ctx alg_noctx alg_prot reserved header_size n
    = Ok head ->
  exists tail, head = signature ++ le_bytes 2 version ++ tail /\ 0 <= version < 65536.
Proof.
  unfold pack_header. intros H.
  destruct (pack_uint 2 version) as [b_version|] eqn:Hv; simpl in H; [|done].
  inv_bind H. injection H as <-.
  unfold pack_uint in Hv. case_decide; [|done]. injection Hv as <-.
  eexists. split; [reflexivity|]. lia.
Qed.

Lemma le_int_le_bytes (w : nat) (x : Z) :
  0 <= x < 256 ^ Z.of_nat w -> le_int (le_bytes w x) = x.
Proof.
  revert x. induction w as [|w IH]; intros x Hx.
  - simpl in *. lia.
  - cbn [le_bytes le_int]. rewrite IH.
    + unfold byte_to_Z, byte_of_Z. rewrite Z.mod_mod by lia.
      destruct (Byte.of_N (Z.to_N (x mod 256))) as [b|] eqn:Hb.
      * apply Byte.to_of_N in Hb. rewrite Hb. rewrite Z2N.id by (apply Z.mod_pos_bound; lia).
        pose proof (Z.div_mod x 256). lia.
      * apply Byte.of_N_None_iff in Hb.
        pose proof (Z.mod_pos_bound x 256). lia.
    + rewrite Nat2Z.inj_succ, Z.pow_succ_r in Hx by lia.
      split; [apply Z.div_pos; lia|]. apply Z.div_lt_upper_bound; lia.
Qed.

Lemma length_le_bytes (w : nat) (x : Z) : length (le_bytes w x) = w.
Proof. revert x. induction w as [|w IH]; intros x; simpl; [done|]. by rewrite IH. Qed.

Lemma universal_decode_L3ARCH04 (X : Externals) (archive : bytes) (outdir : Path) :
  take 8 archive = archiver_huffman.SIGNATURE ->
  universal_decode X archive outdir =
    ([EPrint (MsgSignatureOk 13360)], Some RuntimeError).
Proof. intros H. unfold universal_decode. rewrite H. reflexivity. Qed.

Lemma signed_archive_not_routed (X : Externals) (v : Z) (tail more : bytes) (outdir : Path) :
  let archive := (archiver_huffman.SIGNATURE ++ le_bytes 2 v ++ tail) ++ more in
  unpack_uint 2 (take 2 (drop 8 archive)) = Ok (le_int (le_bytes 2 v)) /\
  universal_decode X archive outdir =
    ([EPrint (MsgSignatureOk 13360)], Some RuntimeError).
Proof. split; [reflexivity|]. by apply universal_decode_L3ARCH04. Qed.

(** C2.  An archive written by [build_archive] carries version 2 in the
    field after its 8-byte signature, and [universal_decode] does not hand it
    to [decode_v2]: it takes the version from bytes 6..7 of the signature
    field (the characters ['04'] of [L3ARCH04], 13360 as a [u16]) and raises
    [RuntimeError] for an unknown version. *)
Theorem written_archive_not_routed (X : Externals) (entries : list file_entry)
    (huffman crc : bool) (archive : bytes) (outdir : Path) :
  build_archive X entries huffman crc = Ok archive ->
  unpack_uint 2 (take 2 (drop 8 archive)) = Ok archiver_huffman.VERSION /\
  universal_decode X archive outdir =
    ([EPrint (MsgSignatureOk 13360)], Some RuntimeError).
Proof.
  unfold build_archive. intros H.
  destruct (encode_entries X huffman crc entries) as [coded|]; simpl in H; [|done].
  destruct (build_table entries coded) as [table|]; simpl in H; [|done].
  destruct (pack_header _ _ _ _ _ _ _ _) as [head|] eqn:Hhead; simpl in H; [|done].
  injection H as <-.
  apply pack_header_signature in Hhead as (tail & -> & _).
  apply (signed_archive_not_routed X archiver_huffman.VERSION).
Qed.

Lemma written_archive_not_routed_witness :
  build_archive py two_files true true = Ok huffman_archive /\
  unpack_uint 2 (take 2 (drop 8 huffman_archive)) = Ok 2 /\
  universal_decode py huffman_archive out_dir =
    ([EPrint (MsgSignatureOk 13360)], Some RuntimeError).
Proof.
  assert (H : build_archive py two_files true true = Ok huffman_archive) by by vm_compute.
  split; [exact H|].
  exact (written_archive_not_routed py two_files true true huffman_archive out_dir H).
Defined.

(** The archives of the intelligent coder, which [save_archive_v3] tags with
    version 3 and documents as readable by the universal decoder, meet the
    same fate. *)
Theorem v3_archive_not_routed (entries : list v3_entry) (enable_crc : bool)
    (X : Externals) (archive : bytes) (outdir : Path) :
  save_archive_v3 entries enable_crc = Ok archive ->
  unpack_uint 2 (take 2 (drop 8 archive)) = Ok 3 /\
  universal_decode X archive outdir =
    ([EPrint (MsgSignatureOk 13360)], Some RuntimeError).
Proof.
  unfold save_archive_v3. intros H.
  destruct (v3_table entries) as [table|]; simpl in H; [|done].
  destruct (pack_header _ _ _ _ _ _ _ _) as [head|] eqn:Hhead; simpl in H; [|done].
  injection H as <-.
  apply pack_header_signature in Hhead as (tail & -> & _).
  apply (signed_archive_not_routed X 3).
Qed.

Lemma v3_archive_not_routed_witness :
  create_intelligent_archive py [("x.bin"%string, [x61; x62; x61])] (Some 3) false
    = Ok (Some intelligent_archive) /\
  universal_decode py intelligent_archive out_dir =
    ([EPrint (MsgSignatureOk 13360)], Some RuntimeError).
Proof.
  split; [by vm_compute|].
  refine (proj2 (v3_archive_not_routed intelligent_v3_entries false py
                   intelligent_archive out_dir _)).
  by vm_compute.
Defined.

(** What the dispatcher does, on the two bytes it reads: versions 0..3 go to
    their decoders, which read the archive again from its first byte; any
    other value raises [RuntimeError] with nothing written. *)
Theorem universal_decode_routes (X : Externals) (archive : bytes) (outdir : Path) :
  take 6 archive = L3ARCH -> (8 <= length archive)%nat ->
  let v := le_int (take 2 (drop 6 archive)) in
  universal_decode X archive outdir =
    (if decide (v = 0) then
       let '(evs, exc) := run (decode_v0 outdir) archive in
       (EPrint (MsgSignatureOk 0) :: evs, exc)
     else if decide (v = 1) then
       let '(evs, exc) := run (decode_v1 X outdir) archive in
       (EPrint (MsgSignatureOk 1) :: evs, exc)
     else if decide (v = 2) then
       let '(evs, exc) := run (decode_v2 X outdir) archive in
       (EPrint (MsgSignatureOk 2) :: evs, exc)
     else if decide (v = 3) then
       let '(evs, exc) := run (decode_v3 X outdir) archive in
       (EPrint (MsgSignatureOk 3) :: evs, exc)
     else ([EPrint (MsgSignatureOk v)], Some RuntimeError)).
Proof.
  intros Hsig Hlen v. unfold universal_decode.
  rewrite take_take, Nat.min_l by lia. rewrite Hsig.
  destruct (decide (L3ARCH = L3ARCH)) as [_|]; [|done].
  assert (Hv : unpack_uint 2 (drop 6 (take 8 archive)) = Ok v).
  { unfold unpack_uint. rewrite length_drop, length_take.
    case_decide; [|lia]. do 2 f_equal.
    by rewrite (take_drop_commute archive 2 6). }
  rewrite Hv. clearbody v. unfold route.
  repeat case_decide; by subst.
Qed.

Lemma universal_decode_routes_witness :
  universal_decode py v0_archive out_dir =
    ([EPrint (MsgSignatureOk 0); EMkdir out_dir;
      EWrite (Path_of "out/restored_v0.bin") [x68; x69];
      EPrint (MsgRestoredV0 (Path_of "out/restored_v0.bin") 2)], None) /\
  universal_decode py v99_archive out_dir =
    ([EPrint (MsgSignatureOk 99)], Some RuntimeError).
Proof.
  split.
  - rewrite (universal_decode_routes py v0_archive out_dir); [by vm_compute|done|simpl; lia].
  - rewrite (universal_decode_routes py v99_archive out_dir); [by vm_compute|done|simpl; lia].
Defined.

(** ** The v3 decoder *)

(** C3.  [decode_v3] restores no Huffman entry: for a file entry whose
    service blob starts with byte 3 the step creates the target's directory
    and then raises [NameError] (the call of the undefined [huffman_decode]);
    nothing is written. *)
Theorem v3_huffman_entry_raises (X : Externals) (h : header) (outdir : Path)
    (e : entry_meta) (rest meta : bytes) :
  entry_type e = 1 -> service e = x03 :: meta ->
  decode_v3_entry X h outdir e rest =
    ([EMkdir (parent (joinpath outdir (Path_of (relpath e))))], Err NameError).
Proof.
  intros Hfile Hservice. unfold decode_v3_entry. io_unfold.
  destruct (read_stored_total e rest) as (stored & rest' & ->).
  rewrite Hfile, Hservice. reflexivity.
Qed.

Lemma v3_huffman_entry_raises_witness :
  decode_v3_entry py (protected_header 0) out_dir
    {| entry_type := 1; relpath := "x.bin"; orig_size := 2; stored_size := 1;
       service := x03 :: table_AB |} [x40] =
    ([EMkdir out_dir], Err NameError).
Proof.
  exact (v3_huffman_entry_raises py (protected_header 0) out_dir
           {| entry_type := 1; relpath := "x.bin"; orig_size := 2; stored_size := 1;
              service := x03 :: table_AB |} [x40] table_AB eq_refl eq_refl).
Defined.

(** The archive the intelligent coder writes for one file with the Huffman
    codec forced, given to [decode_v3]. *)
Lemma decode_v3_on_intelligent_archive :
  create_intelligent_archive py [("x.bin"%string, [x61; x62; x61])] (Some 3) false
    = Ok (Some intelligent_archive) /\
  run (decode_v3 py out_dir) intelligent_archive =
    ([EMkdir out_dir; EMkdir out_dir], Some NameError).
Proof. split; by vm_compute. Qed.

(** The calls of a [decode_v3] step for a file entry whose service blob is
    empty or starts with byte 0: the directory, at most one mismatch message,
    the stored bytes as they are, the closing message. *)
Lemma v3_store_entry_calls (X : Externals) (h : header) (outdir : Path)
    (e : entry_meta) (rest stored rest' : bytes) :
  read_stored e rest = ([], Ok (stored, rest')) ->
  entry_type e = 1 -> (service e = [] \/ exists meta, service e = x00 :: meta) ->
  exists report,
    decode_v3_entry X h outdir e rest =
      (EMkdir (parent (joinpath outdir (Path_of (relpath e)))) :: report ++
       [EWrite (joinpath outdir (Path_of (relpath e))) stored;
        EPrint (MsgRestored V3 (relpath e))], Ok (tt, rest')) /\
    (report = [] \/ report = [EPrint (MsgCrcMismatch V3 (relpath e))]).
Proof.
  intros Hread Hfile Hservice. unfold decode_v3_entry. io_unfold. rewrite Hread, Hfile.
  destruct Hservice as [->|[meta ->]]; simpl.
  - case_decide as H; [by destruct H|]. exists []. split; [done|by left].
  - case_decide; [|exists []; split; [done|by left]].
    destruct (unpack_uint 4 (last4 meta)) as [c|] eqn:Hc.
    + case_decide; [exists []|eexists [_]]; (split; [done|auto]).
    + exfalso. unfold unpack_uint, last4 in Hc. rewrite length_drop in Hc.
      unfold len in *. case_decide; [done|lia].
Qed.

(** ** The coder on degenerate inputs, continued *)

(** C1.  The round trip through the Huffman coder does not return the empty
    input, nor an input made of one repeated byte: [huffman_encode] raises
    on both ([IndexError] from [heap[0]] on the empty heap, [AttributeError]
    from [build_codes] on the missing right child of the one-symbol tree). *)
Theorem round_trip_raises_on_degenerate_input (b : byte) (n : nat) :
  huffman_round_trip [] = Err IndexError /\
  huffman_round_trip (repeat b (S n)) = Err AttributeError.
Proof.
  split; [reflexivity|].
  unfold huffman_round_trip. by rewrite huffman_encode_single_symbol.
Qed.

(** C5.  In adaptive mode the selector makes no choice for the empty input
    or for an input made of one repeated byte: it calls [huffman_encode]
    first, and that call raises. *)
Theorem selector_raises_on_degenerate_input (X : Externals) (enable_crc : bool)
    (b : byte) (n : nat) :
  intelligent_encode_file X [] None enable_crc = Err IndexError /\
  intelligent_encode_file X (repeat b (S n)) None enable_crc = Err AttributeError.
Proof.
  split; [reflexivity|].
  unfold intelligent_encode_file. by rewrite huffman_encode_single_symbol.
Qed.

(** C6.  For an input made of one repeated byte the coder produces no code
    bits at all, where the bound asks for between 0 and [n] of them: the
    code table is never completed. *)
Theorem no_code_bits_for_single_symbol (b : byte) (n : nat) :
  archiver_huffman.huffman_bits (repeat b (S n)) = Err AttributeError /\
  archiver_huffman.huffman_bits [] = Err IndexError.
Proof. split; [apply huffman_bits_single_symbol|reflexivity]. Qed.

(** ** The selector *)

Lemma land_mask32_range (x : Z) : 0 <= Z.land x 4294967295 < 256 ^ Z.of_nat 4.
Proof.
  change 4294967295 with (Z.ones 32). rewrite Z.land_ones by lia.
  change (256 ^ Z.of_nat 4) with (2 ^ 32). apply Z.mod_pos_bound. lia.
Qed.

Lemma pack_crc_ok (x : Z) :
  pack_uint 4 (Z.land x 4294967295) = Ok (le_bytes 4 (Z.land x 4294967295)).
Proof. unfold pack_uint. pose proof (land_mask32_range x). by case_decide. Qed.

(** Whenever [huffman_encode] returns, the adaptive selector returns too,
    and its choice is the comparison of sizes: store when the payload, the
    service blob and the 4 bytes of an enabled checksum together are not
    smaller than the input, Huffman otherwise (with the checksum appended to
    the service blob when enabled). *)
Theorem selector_sound (X : Externals) (data encoded meta : bytes) (enable_crc : bool) :
  archiver_huffman.huffman_encode data = Ok (encoded, meta) ->
  let total := len encoded + len meta + (if enable_crc then 4 else 0) in
  intelligent_encode_file X data None enable_crc =
    Ok (Some
      (if decide (len data <= total) then (0, data, [], len data)
       else if enable_crc
            then (3, encoded, meta ++ le_bytes 4 (Z.land (crc32 X data) 4294967295),
                  total + 4)
            else (3, encoded, meta, total))).
Proof.
  intros Henc total. unfold intelligent_encode_file. rewrite Henc. simpl.
  subst total. destruct enable_crc.
  - case_decide; [done|]. by rewrite pack_crc_ok.
  - rewrite Z.add_0_r. by case_decide.
Qed.

Lemma selector_sound_witness :
  intelligent_encode_file py (repeat x61 12 ++ repeat x62 12 ++ repeat x63 8) None false =
    Ok (Some (3, [xff; xff; xff; x00; x0a; xaa; xa0],
              [x04; x00; x03; x00; x61; x0c; x00; x00; x00; x62; x0c; x00; x00; x00;
               x63; x08; x00; x00; x00], 26)).
Proof.
  exact (selector_sound py (repeat x61 12 ++ repeat x62 12 ++ repeat x63 8)
           [xff; xff; xff; x00; x0a; xaa; xa0]
           [x04; x00; x03; x00; x61; x0c; x00; x00; x00; x62; x0c; x00; x00; x00;
            x63; x08; x00; x00; x00] false eq_refl).
Defined.

(** ** [heapq]: fuel, lengths and contents *)

Lemma insert_Permutation {A} (l : list A) (i : nat) (a y : A) :
  l !! i = Some a -> <[i := y]> l ≡ₚ y :: delete i l.
Proof.
  revert i. induction l as [|b l IH]; intros [|i] Hi; simplify_eq/=; [done|].
  rewrite (IH i) by done. apply perm_swap.
Qed.

Lemma insert_insert_Permutation {A} (l : list A) (i j : nat) (a x : A) :
  l !! i = Some a -> (j < length l)%nat ->
  <[i := x]> (<[j := a]> l) ≡ₚ <[j := x]> l.
Proof.
  intros Hi Hj. destruct (decide (i = j)) as [->|Hne].
  { by rewrite list_insert_insert_eq. }
  apply lookup_lt_is_Some in Hj as [b Hj].
  revert i j Hi Hj Hne. induction l as [|c l IH]; intros [|i] [|j] Hi Hj Hne;
    simplify_eq/=.
  - rewrite !(insert_Permutation l j b) by done. apply perm_swap.
  - rewrite (insert_Permutation l i a) by done.
    rewrite (delete_Permutation l i a) at 2 by done. apply perm_swap.
  - rewrite (IH i j); [done..|lia].
Qed.

Lemma parentpos_lt (pos : nat) : (0 < pos)%nat -> (Nat.shiftr (pos - 1) 1 < pos)%nat.
Proof.
  intros Hpos. rewrite Nat.shiftr_div_pow2. change (2 ^ 1)%nat with 2%nat.
  apply Nat.Div0.div_lt_upper_bound. lia.
Qed.

Section heapq_facts.
Context {A : Type} (lt : A -> A -> bool).

Lemma length_siftdown_loop (fuel : nat) (heap : list A) (startpos pos : nat) (x : A) :
  length (siftdown_loop lt fuel heap startpos pos x) = length heap.
Proof.
  revert heap pos. induction fuel as [|fuel IH]; intros heap pos; simpl.
  - by rewrite length_insert.
  - repeat case_match; rewrite ?IH, ?length_insert; done.
Qed.

Lemma siftdown_loop_Permutation (fuel : nat) (heap : list A) (startpos pos : nat) (x : A) :
  (pos < length heap)%nat ->
  siftdown_loop lt fuel heap startpos pos x ≡ₚ <[pos := x]> heap.
Proof.
  revert heap pos. induction fuel as [|fuel IH]; intros heap pos Hpos;
    cbn [siftdown_loop]; cbv zeta; [done|].
  case_decide as Hsp; [|done].
  pose proof (parentpos_lt pos ltac:(lia)) as Hpp.
  destruct (heap !! Nat.shiftr (pos - 1) 1) as [parent|] eqn:Hparent.
  - destruct (lt x parent); [|done].
    rewrite IH by (rewrite length_insert; lia).
    by apply insert_insert_Permutation.
  - apply lookup_ge_None in Hparent. lia.
Qed.

(** More fuel than [pos] changes nothing in [_siftdown]. *)
Lemma siftdown_loop_fuel (fuel : nat) (heap : list A) (startpos pos : nat) (x : A) :
  (pos <= fuel)%nat ->
  siftdown_loop lt fuel heap startpos pos x = siftdown_loop lt pos heap startpos pos x.
Proof.
  revert fuel heap. induction pos as [pos IH] using lt_wf_ind. intros fuel heap Hfuel.
  destruct pos as [|pos].
  { destruct fuel; cbn [siftdown_loop]; [done|]. case_decide; [lia|done]. }
  destruct fuel as [|fuel]; [lia|]. cbn [siftdown_loop]. cbv zeta.
  case_decide; [|done].
  pose proof (parentpos_lt (S pos) ltac:(lia)) as Hpp.
  destruct (heap !! _); [|done]. destruct (lt x a); [|done].
  rewrite (IH _ Hpp fuel) by lia. rewrite (IH _ Hpp pos) by lia. done.
Qed.

Lemma siftdown_Permutation (heap : list A) (startpos pos : nat) :
  _siftdown lt heap startpos pos ≡ₚ heap.
Proof.
  unfold _siftdown. destruct (heap !! pos) as [x|] eqn:Hx; [|done].
  rewrite siftdown_loop_Permutation by (by eapply lookup_lt_Some).
  by rewrite list_insert_id.
Qed.

Lemma length_siftdown (heap : list A) (startpos pos : nat) :
  length (_siftdown lt heap startpos pos) = length heap.
Proof. apply Permutation_length, siftdown_Permutation. Qed.

(** [siftup_loop] moves a hole down: whatever is put in the hole at the
    end, the heap holds what it held with that item at [pos]. *)
Lemma siftup_loop_hole (fuel : nat) (heap : list A) (endpos pos childpos : nat) :
  (pos < length heap)%nat ->
  let '(heap', pos') := siftup_loop lt fuel heap endpos pos childpos in
  (pos' < length heap')%nat /\
  forall x, <[pos' := x]> heap' ≡ₚ <[pos := x]> heap.
Proof.
  revert heap pos childpos.
  induction fuel as [|fuel IH]; intros heap pos childpos Hpos;
    cbn [siftup_loop]; cbv zeta; [done|].
  case_decide; [|done].
  destruct (heap !! childpos) as [c|]; [|done].
  set (childpos' := match heap !! (childpos + 1)%nat with
                    | Some r => if bool_decide (childpos + 1 < endpos)%nat && negb (lt c r)
                                then (childpos + 1)%nat else childpos
                    | None => childpos
                    end).
  destruct (heap !! childpos') as [c'|] eqn:Hc'; [|done].
  specialize (IH (<[pos := c']> heap) childpos' (2 * childpos' + 1)%nat).
  destruct (siftup_loop _ _ _ _ _ _) as [heap' pos'].
  destruct IH as [Hlen Hperm].
  { rewrite length_insert. by eapply lookup_lt_Some. }
  split; [done|]. intros x. rewrite Hperm.
  by apply insert_insert_Permutation.
Qed.

Lemma siftup_Permutation (heap : list A) (pos : nat) : _siftup lt heap pos ≡ₚ heap.
Proof.
  unfold _siftup. destruct (heap !! pos) as [newitem|] eqn:Hpos; [|done].
  pose proof (siftup_loop_hole (length heap) heap (length heap) pos (2 * pos + 1))
    as Hhole.
  destruct (siftup_loop _ _ _ _ _ _) as [heap' pos'].
  destruct Hhole as [_ Hperm]; [by eapply lookup_lt_Some|].
  rewrite siftdown_Permutation, Hperm. by rewrite list_insert_id.
Qed.

(** More fuel than the distance from [childpos] to [endpos] changes
    nothing in [_siftup]. *)
Lemma siftup_loop_fuel (fuel fuel' : nat) (heap : list A) (endpos pos childpos : nat) :
  (endpos - childpos <= fuel)%nat -> (endpos - childpos <= fuel')%nat ->
  siftup_loop lt fuel heap endpos pos childpos =
  siftup_loop lt fuel' heap endpos pos childpos.
Proof.
  revert fuel' heap pos childpos.
  induction fuel as [|fuel IH]; intros fuel' heap pos childpos Hfuel Hfuel'.
  - destruct fuel'; cbn [siftup_loop]; [done|]. case_decide; [lia|done].
  - destruct fuel' as [|fuel']; cbn [siftup_loop]; cbv zeta.
    { case_decide; [lia|done]. }
    case_decide; [|done].
    destruct (heap !! childpos) as [c|]; [|done].
    set (childpos' := match heap !! (childpos + 1)%nat with
                      | Some r => if bool_decide (childpos + 1 < endpos)%nat && negb (lt c r)
                                  then (childpos + 1)%nat else childpos
                      | None => childpos
                      end).
    assert (childpos <= childpos')%nat.
    { subst childpos'. repeat case_match; lia. }
    destruct (heap !! childpos'); [|done].
    apply IH; lia.
Qed.

Lemma heapify_Permutation (x : list A) : heapify lt x ≡ₚ x.
Proof.
  unfold heapify. generalize (rev (seq 0 (length x / 2))). intros idx.
  revert x. induction idx as [|i idx IH]; intros x; simpl; [done|].
  by rewrite IH, siftup_Permutation.
Qed.

Lemma heappush_Permutation (heap : list A) (item : A) :
  heappush lt heap item ≡ₚ item :: heap.
Proof.
  unfold heappush. rewrite siftdown_Permutation.
  by rewrite Permutation_app_comm.
Qed.

(** [heappop] raises on the empty heap only, and takes one item out. *)
Lemma heappop_nil : heappop lt [] = Err IndexError.
Proof. reflexivity. Qed.

Lemma heappop_Permutation (heap : list A) :
  heap <> [] ->
  exists item heap', heappop lt heap = Ok (item, heap') /\ item :: heap' ≡ₚ heap.
Proof.
  intros Hne. unfold heappop.
  destruct (exists_last Hne) as (front & lastelt & ->).
  rewrite last_snoc, removelast_last.
  destruct front as [|returnitem front].
  - by exists lastelt, [].
  - exists returnitem, (_siftup lt (<[0%nat := lastelt]> (returnitem :: front)) 0).
    split; [done|]. rewrite siftup_Permutation. simpl.
    by rewrite Permutation_app_comm.
Qed.

End heapq_facts.

(** ** [dict] and [Counter] *)

Section dict_facts.
Context {K V : Type} `{EqDecision K}.

Lemma dict_get_set (d : dict K V) (k : K) (v : V) :
  dict_get (dict_set d k v) k = Some v.
Proof.
  induction d as [|[k' v'] d IH]; simpl.
  - by rewrite decide_True.
  - destruct (decide (k' = k)) as [->|Hne]; simpl.
    + by rewrite decide_True.
    + by rewrite decide_False.
Qed.

Lemma dict_get_set_ne (d : dict K V) (k k' : K) (v : V) :
  k <> k' -> dict_get (dict_set d k v) k' = dict_get d k'.
Proof.
  intros Hne. induction d as [|[k0 v0] d IH]; simpl.
  - by rewrite decide_False.
  - destruct (decide (k0 = k)) as [->|Hk0]; simpl.
    + by rewrite !decide_False.
    + by rewrite IH.
Qed.

Lemma dict_get_None (d : dict K V) (k : K) : dict_get d k = None <-> ~ In k (keys d).
Proof.
  induction d as [|[k0 v0] d IH]; simpl; [tauto|].
  destruct (decide (k0 = k)) as [->|Hne]; [|tauto].
  split; [done|]. intros H. destruct H. by left.
Qed.

Lemma dict_get_Some_In (d : dict K V) (k : K) (v : V) :
  dict_get d k = Some v -> In (k, v) d.
Proof.
  induction d as [|[k0 v0] d IH]; simpl; [done|].
  destruct (decide (k0 = k)); intros; simplify_eq; auto.
Qed.

Lemma keys_dict_set (d : dict K V) (k : K) (v : V) :
  keys (dict_set d k v) =
    match dict_get d k with Some _ => keys d | None => keys d ++ [k] end.
Proof.
  induction d as [|[k0 v0] d IH]; simpl; [done|].
  destruct (decide (k0 = k)) as [->|Hne]; simpl; [done|].
  rewrite IH. by destruct (dict_get d k).
Qed.

Lemma NoDup_keys_dict_set (d : dict K V) (k : K) (v : V) :
  NoDup (keys d) -> NoDup (keys (dict_set d k v)).
Proof.
  intros Hd. rewrite keys_dict_set.
  destruct (dict_get d k) eqn:Hk; [done|].
  apply NoDup_app. split_and!; [done| |apply NoDup_singleton].
  intros x Hx ->%list_elem_of_singleton. apply dict_get_None in Hk.
  apply Hk. by apply list_elem_of_In.
Qed.

(** Writing the pairs of a table with distinct keys into the empty [dict],
    in order, gives the table back. *)
Lemma foldl_dict_set_keys (acc d : dict K V) :
  NoDup (keys (acc ++ d)) ->
  foldl (fun f '(k, v) => dict_set f k v) acc d = acc ++ d.
Proof.
  revert acc. induction d as [|[k v] d IH]; intros acc Hnd; simpl.
  - by rewrite app_nil_r.
  - assert (Hset : dict_set acc k v = acc ++ [(k, v)]).
    { clear IH. induction acc as [|[k0 v0] acc IHacc]; simpl; [done|].
      unfold keys in Hnd. simpl in Hnd. apply NoDup_cons in Hnd as [Hk0 Hnd].
      rewrite decide_False.
      - f_equal. by apply IHacc.
      - intros ->. apply Hk0. rewrite map_app. simpl.
        apply list_elem_of_In, in_app_iff. right. by left. }
    rewrite Hset, IH; rewrite <- app_assoc; done.
Qed.

End dict_facts.

(** The sum of the counts of a table. *)
Lemma Counter_snoc (data : bytes) (b : byte) :
  Counter (data ++ [b]) =
  dict_set (Counter data) b (default 0 (dict_get (Counter data) b) + 1).
Proof. unfold Counter. by rewrite foldl_app. Qed.

Lemma NoDup_keys_Counter (data : bytes) : NoDup (keys (Counter data)).
Proof.
  induction data as [|b data IH] using rev_ind; [constructor|].
  rewrite Counter_snoc. by apply NoDup_keys_dict_set.
Qed.

Lemma keys_Counter (data : bytes) (b : byte) : In b (keys (Counter data)) <-> In b data.
Proof.
  induction data as [|c data IH] using rev_ind; [done|].
  rewrite Counter_snoc, keys_dict_set, in_app_iff. simpl.
  destruct (dict_get (Counter data) c) eqn:Hc.
  - rewrite IH. split; [tauto|]. intros [?|[<-|[]]]; [done|].
    apply IH. apply dict_get_Some_In in Hc. by apply (in_map fst) in Hc.
  - rewrite in_app_iff, IH. simpl. tauto.
Qed.

Lemma sum_dict_set (d : dict byte Z) (k : byte) (v : Z) :
  foldr Z.add 0 (map snd (dict_set d k v)) =
  foldr Z.add 0 (map snd d) - default 0 (dict_get d k) + v.
Proof.
  induction d as [|[k0 v0] d IH]; simpl; [lia|].
  destruct (decide (k0 = k)); simpl; [lia|]. rewrite IH. lia.
Qed.

(** The counts of [Counter(data)] add up to [len(data)], and none is zero. *)
Lemma Counter_sum (data : bytes) : foldr Z.add 0 (map snd (Counter data)) = len data.
Proof.
  induction data as [|b data IH] using rev_ind; [done|].
  rewrite Counter_snoc, sum_dict_set, IH. unfold len. rewrite length_app. simpl. lia.
Qed.

Lemma dict_get_In (d : dict byte Z) (k : byte) (v : Z) :
  In (k, v) d -> NoDup (keys d) -> dict_get d k = Some v.
Proof.
  induction d as [|[k0 v0] d IH]; simpl; [done|].
  intros [Heq|Hin] Hnd; apply NoDup_cons in Hnd as [Hk0 Hnd].
  - simplify_eq. by rewrite decide_True.
  - rewrite decide_False; [by apply IH|].
    intros ->. apply Hk0, list_elem_of_In. by apply (in_map fst) in Hin.
Qed.

Lemma Counter_positive (data : bytes) : Forall (fun kv => 1 <= kv.2) (Counter data).
Proof.
  induction data as [|b data IH] using rev_ind; [constructor|].
  rewrite Counter_snoc.
  assert (Hv : 1 <= default 0 (dict_get (Counter data) b) + 1).
  { destruct (dict_get (Counter data) b) as [v|] eqn:Hb; simpl; [|lia].
    assert (In (b, v) (Counter data)) as Hin by by apply dict_get_Some_In.
    rewrite Forall_forall in IH. apply list_elem_of_In, IH in Hin. simpl in Hin. lia. }
  revert Hv. generalize (default 0 (dict_get (Counter data) b) + 1). intros v Hv.
  induction IH as [|[k0 v0] d Hk0 Hd IHd]; simpl.
  - by repeat constructor.
  - destruct (decide (k0 = b)); constructor; auto.
Qed.

Lemma sum_bound (l : list Z) (x : Z) :
  Forall (fun v => 1 <= v) l -> In x l -> x <= foldr Z.add 0 l.
Proof.
  induction 1 as [|v l Hv Hl IH]; simpl; [done|].
  assert (0 <= foldr Z.add 0 l).
  { clear -Hl. induction Hl; simpl; lia. }
  intros [->|Hin]; [lia|]. specialize (IH Hin). lia.
Qed.

Lemma Counter_bound (data : bytes) :
  Forall (fun kv => 1 <= kv.2 <= len data) (Counter data).
Proof.
  pose proof (Counter_positive data) as Hpos.
  rewrite Forall_forall in Hpos |- *. intros [k v] Hin. split; [by apply Hpos|].
  rewrite <- Counter_sum. apply sum_bound.
  - rewrite Forall_forall. intros x [[k' v'] [<- Hx]]%list_elem_of_In%in_map_iff.
    by apply (Hpos (k', v')), list_elem_of_In.
  - apply list_elem_of_In in Hin. by apply (in_map snd) in Hin.
Qed.

Lemma NoDup_bytes_length (l : list byte) : NoDup l -> (length l <= 256)%nat.
Proof.
  intros Hnd.
  assert (Hinj : NoDup (map Byte.to_N l)).
  { assert (Inj eq eq Byte.to_N).
    { intros x y Hxy. apply (f_equal Byte.of_N) in Hxy.
      rewrite !Byte.of_to_N in Hxy. by simplify_eq. }
    by apply (NoDup_fmap_2 Byte.to_N). }
  rewrite <- (length_map Byte.to_N l).
  change 256%nat with (length (map N.of_nat (seq 0 256))).
  apply NoDup_incl_length; [by apply NoDup_ListNoDup|].
  intros x [b [<- _]]%in_map_iff.
  pose proof (Byte.to_N_bounded b).
  apply in_map_iff. exists (N.to_nat (Byte.to_N b)). split; [lia|].
  apply in_seq. lia.
Qed.

Lemma length_Counter (data : bytes) : 0 <= len (Counter data) <= 256.
Proof.
  pose proof (NoDup_bytes_length _ (NoDup_keys_Counter data)) as H.
  unfold keys in H. rewrite length_map in H. unfold len. lia.
Qed.

(** ** The service blob written and read back *)

Lemma length_pack_uint (w : nat) (x : Z) (b : bytes) :
  pack_uint w x = Ok b -> length b = w.
Proof.
  unfold pack_uint. case_decide; [|done]. intros [= <-]. apply length_le_bytes.
Qed.

Lemma pack_table_ok (freqs : dict byte Z) :
  Forall (fun kv => 0 <= kv.2 < 4294967296) freqs ->
  pack_table freqs = Ok (concat (map (fun '(sym, fr) => sym :: le_bytes 4 fr) freqs)).
Proof.
  induction 1 as [|[sym fr] freqs Hfr _ IH]; simpl; [done|].
  unfold pack_BI, pack_uint. rewrite decide_True by done. simpl.
  by rewrite IH.
Qed.

Lemma unpack_from_BI_app (pre post : bytes) (sym : byte) (fr : Z) :
  0 <= fr < 4294967296 ->
  unpack_from_BI (pre ++ (sym :: le_bytes 4 fr) ++ post) (length pre) = Ok (sym, fr).
Proof.
  intros Hfr. unfold unpack_from_BI. rewrite decide_True.
  2:{ rewrite !length_app, length_cons, length_le_bytes. lia. }
  rewrite drop_app_length. cbn [app].
  rewrite take_app_length' by (by rewrite length_le_bytes).
  by rewrite le_int_le_bytes.
Qed.

Lemma read_table_packed (freqs acc : dict byte Z) (pre post : bytes) :
  Forall (fun kv => 0 <= kv.2 < 4294967296) freqs ->
  read_table (length freqs)
    (pre ++ concat (map (fun '(sym, fr) => sym :: le_bytes 4 fr) freqs) ++ post)
    (length pre) acc
  = Ok (foldl (fun f '(k, v) => dict_set f k v) acc freqs).
Proof.
  intros Hfreqs. revert acc pre.
  induction Hfreqs as [|[sym fr] freqs Hfr _ IH]; intros acc pre; [done|].
  cbn [length read_table map concat foldl].
  rewrite <- (app_assoc (sym :: le_bytes 4 fr)).
  rewrite unpack_from_BI_app by done. cbn [mbind result_bind].
  specialize (IH (dict_set acc sym fr) (pre ++ sym :: le_bytes 4 fr)).
  rewrite <- app_assoc, length_app, length_cons, length_le_bytes in IH.
  exact IH.
Qed.

(** ** The tree [build_huffman_tree] returns *)

Lemma leaf_nodes_full (freqs : dict byte Z) : Forall full_tree (leaf_nodes freqs).
Proof.
  unfold leaf_nodes. apply Forall_forall. intros n [[sym fr] [<- _]]%list_elem_of_In%in_map_iff.
  constructor.
Qed.

Lemma leaves_leaf_nodes (freqs : dict byte Z) :
  concat (map leaves (leaf_nodes freqs)) = keys freqs.
Proof.
  induction freqs as [|[sym fr] freqs IH]; simpl; [done|]. by rewrite IH.
Qed.

Lemma concat_leaves_Permutation (l l' : list Node) :
  l ≡ₚ l' -> concat (map leaves l) ≡ₚ concat (map leaves l').
Proof.
  induction 1 as [|x l l' _ IH|x y l|l l' l'' _ IH _ IH']; simpl.
  - done.
  - by rewrite IH.
  - rewrite !app_assoc. f_equiv. apply Permutation_app_comm.
  - by rewrite IH.
Qed.

Lemma merge_loop_spec (fuel : nat) (heap : list Node) :
  Forall full_tree heap -> heap <> [] -> (length heap <= S fuel)%nat ->
  exists root,
    merge_loop fuel heap = Ok [root] /\ full_tree root /\
    leaves root ≡ₚ concat (map leaves heap) /\
    (length heap = 1%nat -> heap = [root]) /\
    ((1 < length heap)%nat -> symbol root = None).
Proof.
  revert heap. induction fuel as [|fuel IH]; intros heap Hfull Hne Hlen.
  - destruct heap as [|root [|]]; simpl in *; [done| |lia].
    exists root. apply Forall_inv in Hfull.
    split_and!; [done|done|by rewrite app_nil_r|done|lia].
  - cbn [merge_loop]. case_decide as Hlong.
    + destruct (heappop_Permutation Node_lt heap Hne) as (a & heap1 & -> & Hperm1).
      cbn [mbind result_bind].
      assert (Hne1 : heap1 <> []).
      { apply Permutation_length in Hperm1. destruct heap1; simpl in *; [lia|done]. }
      destruct (heappop_Permutation Node_lt heap1 Hne1) as (b & heap2 & -> & Hperm2).
      cbn [mbind result_bind].
      set (new := mkNode (freq a + freq b) None (Some a) (Some b)).
      pose proof (heappush_Permutation Node_lt heap2 new) as Hperm3.
      assert (Hperm : heap ≡ₚ a :: b :: heap2) by by rewrite Hperm2.
      rewrite Hperm in Hfull.
      apply Forall_cons in Hfull as [Ha Hfull]. apply Forall_cons in Hfull as [Hb Hfull].
      assert (Hnew : full_tree new) by by constructor.
      destruct (IH (heappush Node_lt heap2 new)) as (root & Hrun & Hroot & Hleaves & Hone & Hmany).
      * rewrite Hperm3. by constructor.
      * intros Hnil. rewrite Hnil in Hperm3. by apply Permutation_nil_cons in Hperm3.
      * apply Permutation_length in Hperm3, Hperm. simpl in *. lia.
      * exists root. split_and!; [done|done| |lia|].
        -- rewrite Hleaves, (concat_leaves_Permutation _ _ Hperm3),
             (concat_leaves_Permutation _ _ Hperm).
           simpl. by rewrite app_assoc.
        -- intros _.
           destruct (decide (length (heappush Node_lt heap2 new) = 1%nat)) as [H1|H1].
           ++ specialize (Hone H1). rewrite Hone in Hperm3.
              apply Permutation_length in Hperm3 as Hl. destruct heap2; [|done].
              apply Permutation_singleton_l in Hperm3. by simplify_eq.
           ++ apply Hmany. apply Permutation_length in Hperm3. simpl in *. lia.
    + destruct heap as [|root [|]]; simpl in *; [done| |lia].
      exists root. apply Forall_inv in Hfull.
      split_and!; [done|done|by rewrite app_nil_r|done|lia].
Qed.

(** For a table of two symbols or more [build_huffman_tree] returns, and
    what it returns is a tree in which every node without a symbol has both
    children, whose leaves carry the symbols of the table, each once. *)
Lemma build_huffman_tree_full (freqs : dict byte Z) :
  (2 <= length freqs)%nat ->
  exists root,
    archiver_huffman.build_huffman_tree freqs = Ok root /\
    full_tree root /\ symbol root = None /\ leaves root ≡ₚ keys freqs.
Proof.
  intros Hlen. unfold archiver_huffman.build_huffman_tree.
  pose proof (heapify_Permutation Node_lt (leaf_nodes freqs)) as Hperm.
  assert (Hl : length (heapify Node_lt (leaf_nodes freqs)) = length freqs).
  { rewrite (Permutation_length Hperm). unfold leaf_nodes. by rewrite length_map. }
  rewrite decide_False by lia.
  destruct (merge_loop_spec (length (heapify Node_lt (leaf_nodes freqs)))
              (heapify Node_lt (leaf_nodes freqs)))
    as (root & -> & Hfull & Hleaves & _ & Hinner).
  - rewrite Hperm. apply leaf_nodes_full.
  - intros Hnil. rewrite Hnil in Hl. simpl in Hl. lia.
  - lia.
  - exists root. split_and!; [done|done|apply Hinner; lia|].
    by rewrite Hleaves, (concat_leaves_Permutation _ _ Hperm), leaves_leaf_nodes.
Qed.

(** ** Codes and the decoding walk *)

Lemma code_at_leaf (n : Node) (p : bits) (s s' : byte) :
  code_at n p s -> symbol n = Some s' -> p = [] /\ s = s'.
Proof. destruct 1; simpl; intros; by simplify_eq. Qed.

Lemma code_at_inner (n : Node) (p : bits) (s : byte) :
  code_at n p s -> symbol n = None -> p <> [].
Proof. by destruct 1. Qed.

Lemma build_codes_full (n : Node) :
  full_tree n -> forall (prefix : bits) (cb : dict byte bits),
  NoDup (leaves n) ->
  exists cb',
    build_codes n prefix cb = Ok cb' /\
    (forall s, s ∈ leaves n ->
       exists p, code_at n p s /\
         dict_get cb' s = Some (match prefix ++ p with [] => [false] | c => c end)) /\
    (forall k, k ∉ leaves n -> dict_get cb' k = dict_get cb k).
Proof.
  induction 1 as [fr s l r|fr a b Ha IHa Hb IHb]; intros prefix cb Hnd.
  - eexists. split; [reflexivity|]. simpl. split.
    + intros s' ->%list_elem_of_singleton. exists []. split; [constructor|].
      rewrite dict_get_set, app_nil_r. by destruct prefix.
    + intros k Hk. apply dict_get_set_ne. intros ->. apply Hk. by left.
  - simpl in Hnd. apply NoDup_app in Hnd as (Hnda & Hdisj & Hndb).
    destruct (IHa (prefix ++ [false]) cb Hnda) as (cb1 & Hrun1 & Hin1 & Hout1).
    destruct (IHb (prefix ++ [true]) cb1 Hndb) as (cb2 & Hrun2 & Hin2 & Hout2).
    exists cb2. split; [|split].
    + cbn [build_codes]. rewrite Hrun1. cbn [mbind result_bind]. exact Hrun2.
    + simpl. intros s [Hs|Hs]%elem_of_app.
      * destruct (Hin1 s Hs) as (p & Hp & Hget). exists (false :: p).
        split; [by constructor|].
        rewrite Hout2 by (by apply Hdisj). by rewrite <- app_assoc in Hget.
      * destruct (Hin2 s Hs) as (p & Hp & Hget). exists (true :: p).
        split; [by constructor|]. by rewrite <- app_assoc in Hget.
    + simpl. intros k Hk. rewrite not_elem_of_app in Hk. destruct Hk.
      by rewrite Hout2, Hout1.
Qed.

(** The code table of a tree with two symbols or more: every symbol at a
    leaf is given the path to that leaf. *)
Lemma build_codes_root (root : Node) :
  full_tree root -> symbol root = None -> NoDup (leaves root) ->
  exists cb,
    build_codes root [] [] = Ok cb /\
    forall s, s ∈ leaves root -> exists p, code_at root p s /\ dict_get cb s = Some p.
Proof.
  intros Hfull Hinner Hnd.
  destruct (build_codes_full root Hfull [] [] Hnd) as (cb & Hrun & Hin & _).
  exists cb. split; [done|]. intros s Hs.
  destruct (Hin s Hs) as (p & Hp & Hget). exists p. split; [done|].
  pose proof (code_at_inner _ _ _ Hp Hinner). simpl in Hget. by destruct p.
Qed.

Lemma decode_walk_code (stop : Z -> bool) (root n : Node) (p : bits) (s : byte) :
  code_at n p s -> symbol n = None -> forall (rest : bits) (out : bytes),
  decode_walk stop root (p ++ rest) n out =
    if stop (len (out ++ [s])) then Ok (out ++ [s])
    else decode_walk stop root rest root (out ++ [s]).
Proof.
  induction 1 as [|fr a r p s Hcode IH|fr l b p s Hcode IH]; intros Hsym rest out;
    [done|..]; cbn [app decode_walk left right].
  - destruct (symbol a) as [s'|] eqn:Ha.
    + by destruct (code_at_leaf _ _ _ _ Hcode Ha) as [-> ->].
    + by apply IH.
  - destruct (symbol b) as [s'|] eqn:Hb.
    + by destruct (code_at_leaf _ _ _ _ Hcode Hb) as [-> ->].
    + by apply IH.
Qed.

Lemma decode_walk_join (stop : Z -> bool) (root : Node) (cb : dict byte bits)
    (data : bytes) :
  symbol root = None ->
  (forall s, s ∈ data -> exists p, code_at root p s /\ dict_get cb s = Some p) ->
  exists bs,
    join_codes cb data = Ok bs /\ (data <> [] -> bs <> []) /\
    forall out,
      (forall k, (0 < k < length data)%nat -> stop (len out + Z.of_nat k) = false) ->
      (data <> [] -> stop (len out + len data) = true) ->
      decode_walk stop root bs root out = Ok (out ++ data).
Proof.
  intros Hroot. induction data as [|s data IH]; intros Hcodes.
  - exists []. split_and!; [done|done|]. intros out _ _. by rewrite app_nil_r.
  - destruct (Hcodes s) as (p & Hp & Hget); [by left|].
    destruct IH as (bs & Hjoin & _ & Hwalk).
    { intros s' Hs'. apply Hcodes. by right. }
    exists (p ++ bs). split_and!.
    + simpl. by rewrite Hget, Hjoin.
    + intros _ Hnil. apply app_eq_nil in Hnil as [-> _].
      by apply (code_at_inner _ _ _ Hp).
    + intros out Hgo Hstop. rewrite (decode_walk_code stop root root p s Hp Hroot).
      assert (Hlen : len (out ++ [s]) = len out + 1).
      { unfold len. rewrite length_app. simpl. lia. }
      destruct data as [|s' data'].
      * specialize (Hstop ltac:(done)). change (len [s]) with 1 in Hstop.
        by rewrite Hlen, Hstop.
      * pose proof Hgo as Hgo_all.
        specialize (Hgo 1%nat ltac:(simpl; lia)). change (Z.of_nat 1) with 1 in Hgo.
        rewrite Hlen, Hgo.
        rewrite Hwalk.
        -- by rewrite <- app_assoc.
        -- intros k Hk. rewrite Hlen.
           replace (len out + 1 + Z.of_nat k) with (len out + Z.of_nat (S k)) by lia.
           apply Hgo_all. simpl in *. lia.
        -- intros _. rewrite Hlen.
           replace (len out + 1 + len (s' :: data')) with (len out + len (s :: s' :: data')).
           ++ by apply Hstop.
           ++ unfold len. simpl. lia.
Qed.

(** ** Bit strings, integers and bytes *)

Lemma byte_to_of_Z (z : Z) : byte_to_Z (byte_of_Z z) = z mod 256.
Proof.
  unfold byte_to_Z, byte_of_Z.
  pose proof (Z.mod_pos_bound z 256 ltac:(lia)) as Hz.
  destruct (Byte.of_N (Z.to_N (z mod 256))) as [b|] eqn:Hb.
  - apply Byte.to_of_N in Hb. rewrite Hb. lia.
  - apply Byte.of_N_None_iff in Hb. lia.
Qed.

Lemma bits_value_snoc (l : bits) (b : bool) :
  bits_value (l ++ [b]) = 2 * bits_value l + bit_to_Z b.
Proof. unfold bits_value. by rewrite foldl_app. Qed.

Lemma bits_value_range (l : bits) : 0 <= bits_value l < 2 ^ Z.of_nat (length l).
Proof.
  induction l as [|b l IH] using rev_ind; [done|].
  rewrite bits_value_snoc, length_app, Nat2Z.inj_add, Z.pow_add_r by lia.
  change (2 ^ Z.of_nat (length [b])) with 2. destruct b; simpl; lia.
Qed.

Lemma bits_value_app_zeros (l : bits) (k : nat) :
  bits_value (l ++ repeat false k) = bits_value l * 2 ^ Z.of_nat k.
Proof.
  induction k as [|k IH]; [rewrite app_nil_r; simpl; lia|].
  cbn [repeat]. rewrite repeat_cons, app_assoc, bits_value_snoc, IH.
  rewrite Nat2Z.inj_succ, Z.pow_succ_r by lia. simpl. lia.
Qed.

Lemma bin_digits_double (v : Z) (b : bool) :
  0 < v -> bin_digits (2 * v + bit_to_Z b) = bin_digits v ++ [b].
Proof. destruct v as [|p|p]; [lia| |lia]. intros _. by destruct b. Qed.

Lemma length_bin_digits_pos (v : Z) : (1 <= length (bin_digits v))%nat.
Proof.
  destruct v as [|p|p]; simpl; [lia| |lia].
  destruct p; simpl; rewrite ?length_app; simpl; lia.
Qed.

(** [bin(int(s, 2))[2:].zfill(len(s))] is [s], for a non-empty [s]. *)
Lemma zfill_bin_digits (l : bits) :
  l <> [] -> zfill (length l) (bin_digits (bits_value l)) = l.
Proof.
  induction l as [|b l IH] using rev_ind; [done|]. intros _.
  rewrite bits_value_snoc, length_app. simpl.
  destruct (decide (l = [])) as [->|Hl].
  { by destruct b. }
  specialize (IH Hl). unfold zfill in *.
  pose proof (bits_value_range l) as [Hv _].
  destruct (decide (bits_value l = 0)) as [Hz|Hnz].
  - rewrite Hz in *. simpl in IH.
    replace (bin_digits (2 * 0 + bit_to_Z b)) with [b] by by destruct b.
    simpl. f_equal.
    replace (length l + 1 - 1)%nat with (S (length l - 1))
      by (destruct l; simpl in *; [done|lia]).
    cbn [repeat]. by rewrite repeat_cons.
  - rewrite bin_digits_double by lia. rewrite length_app. simpl.
    replace (length l + 1 - (length (bin_digits (bits_value l)) + 1))%nat
      with (length l - length (bin_digits (bits_value l)))%nat by lia.
    by rewrite app_assoc, IH.
Qed.

Lemma from_bytes_big_snoc (l : bytes) (b : byte) :
  from_bytes_big (l ++ [b]) = 256 * from_bytes_big l + byte_to_Z b.
Proof. unfold from_bytes_big. by rewrite foldl_app. Qed.

Lemma length_be_bytes (w : nat) (x : Z) : length (be_bytes w x) = w.
Proof.
  revert x. induction w as [|w IH]; intros x; simpl; [done|].
  rewrite length_app, IH. simpl. lia.
Qed.

Lemma from_bytes_big_be_bytes (w : nat) (x : Z) :
  0 <= x < 256 ^ Z.of_nat w -> from_bytes_big (be_bytes w x) = x.
Proof.
  revert x. induction w as [|w IH]; intros x Hx.
  - simpl in *. change (from_bytes_big []) with 0. lia.
  - cbn [be_bytes]. rewrite from_bytes_big_snoc, byte_to_of_Z, Z.mod_mod by lia.
    rewrite IH.
    + pose proof (Z.div_mod x 256). lia.
    + rewrite Nat2Z.inj_succ, Z.pow_succ_r in Hx by lia.
      split; [apply Z.div_pos; lia|]. apply Z.div_lt_upper_bound; lia.
Qed.

Lemma int_base2_ok (s : bits) : s <> [] -> int_base2 s = Ok (bits_value s).
Proof. by destruct s. Qed.

(** The payload [huffman_encode] packs a bit string into, unpacked as
    [huffman_decode] does it. *)
Lemma bitstr_of_packed (bitstr : bits) :
  bitstr <> [] ->
  let padding := (8 - len bitstr mod 8) mod 8 in
  let padded := bitstr ++ repeat false (Z.to_nat padding) in
  exists encoded,
    int_base2 padded ≫= (fun n => to_bytes_big n (Z.to_nat (len padded / 8)))
      = Ok encoded /\
    0 <= padding < 8 /\
    8 * len encoded = len bitstr + padding /\
    bitstr_of encoded padding = bitstr.
Proof.
  intros Hne padding padded.
  assert (Hpad : 0 <= padding < 8) by (apply Z.mod_pos_bound; lia).
  assert (Hlen : len padded = len bitstr + padding).
  { unfold padded, len. rewrite length_app, repeat_length. lia. }
  assert (Hmod : len padded mod 8 = 0).
  { rewrite Hlen. unfold padding.
    rewrite Z.add_mod_idemp_r by lia.
    replace (len bitstr + (8 - len bitstr mod 8)) with
      (8 + (len bitstr - len bitstr mod 8)) by lia.
    rewrite (Z.div_mod (len bitstr) 8) at 1 by lia.
    replace (8 + (8 * (len bitstr `div` 8) + len bitstr `mod` 8 - len bitstr `mod` 8))
      with ((1 + len bitstr / 8) * 8) by lia.
    apply Z.mod_mul. lia. }
  assert (Hw : Z.of_nat (Z.to_nat (len padded / 8)) * 8 = len padded).
  { pose proof (Z.div_mod (len padded) 8 ltac:(lia)).
    assert (0 <= len padded) by (unfold len; lia).
    rewrite Z2Nat.id by (apply Z.div_pos; lia). lia. }
  assert (Hpne : padded <> []).
  { unfold padded. intros [? _]%app_eq_nil. done. }
  pose proof (bits_value_range padded) as Hrange.
  exists (be_bytes (Z.to_nat (len padded / 8)) (bits_value padded)).
  split; [|split; [|split]].
  - rewrite int_base2_ok by done. cbn [mbind result_bind].
    unfold to_bytes_big. rewrite decide_True; [done|].
    replace (256 ^ _) with (2 ^ Z.of_nat (length padded)); [done|].
    change 256 with (2 ^ 8). rewrite <- Z.pow_mul_r by lia. f_equal.
    unfold len in Hw |- *. lia.
  - done.
  - unfold len at 1. rewrite length_be_bytes. lia.
  - unfold bitstr_of. rewrite length_be_bytes.
    rewrite from_bytes_big_be_bytes.
    2:{ change 256 with (2 ^ 8). rewrite <- Z.pow_mul_r by lia.
        replace (8 * _) with (Z.of_nat (length padded)); [done|].
        unfold len in Hw |- *. lia. }
    replace (Z.to_nat (len padded / 8) * 8)%nat with (length padded)
      by (unfold len in Hw |- *; lia).
    rewrite zfill_bin_digits by done.
    case_decide as Hp0.
    + unfold padded. rewrite Hp0. simpl. by rewrite app_nil_r.
    + unfold drop_last. unfold padded at 2. rewrite take_app_length'; [done|].
      unfold len in Hlen. lia.
Qed.

(** ** The coder on inputs with two symbols or more *)

Lemma two_elements_length {A} (l : list A) (a b : A) :
  a ∈ l -> b ∈ l -> a <> b -> (2 <= length l)%nat.
Proof.
  destruct l as [|x [|y l]]; simpl; [by intros ?%elem_of_nil| |lia].
  intros ->%list_elem_of_singleton ->%list_elem_of_singleton. done.
Qed.

Lemma codable_Counter (data : bytes) :
  codable data ->
  (2 <= length (Counter data))%nat /\
  Forall (fun kv => 0 <= kv.2 < 4294967296) (Counter data).
Proof.
  intros [(a & b & Ha & Hb & Hab) Hlen]. split.
  - rewrite <- (length_map fst). apply (two_elements_length _ a b); [..|done];
      apply list_elem_of_In, keys_Counter, list_elem_of_In; done.
  - eapply Forall_impl; [apply Counter_bound|]. simpl. intros [k v]. simpl. lia.
Qed.

Lemma unpack_from_uint_app (w : nat) (pre post : bytes) (x : Z) :
  0 <= x < 256 ^ Z.of_nat w ->
  unpack_from_uint w (pre ++ le_bytes w x ++ post) (length pre) = Ok x.
Proof.
  intros Hx. unfold unpack_from_uint. rewrite decide_True.
  2:{ rewrite !length_app, length_le_bytes. lia. }
  rewrite drop_app_length, take_app_length' by (by rewrite length_le_bytes).
  by rewrite le_int_le_bytes.
Qed.

(** A service blob as [huffman_encode] lays it out, possibly followed by
    more bytes (a checksum), read back as the decoders read it. *)
Lemma service_read_back (padding : Z) (freqs : dict byte Z) (post : bytes) :
  0 <= padding < 65536 -> len freqs < 65536 ->
  Forall (fun kv => 0 <= kv.2 < 4294967296) freqs -> NoDup (keys freqs) ->
  let service := le_bytes 2 padding ++ le_bytes 2 (len freqs) ++ table_rows freqs ++ post in
  unpack_from_uint 2 service 0 = Ok padding /\
  unpack_from_uint 2 service 2 = Ok (len freqs) /\
  read_table (Z.to_nat (len freqs)) service 4 [] = Ok freqs.
Proof.
  intros Hpad Hlen Hfreqs Hnd service. split_and!.
  - apply (unpack_from_uint_app 2 [] _ padding). done.
  - unfold service. rewrite app_assoc.
    rewrite <- (length_le_bytes 2 padding) at 2.
    apply (unpack_from_uint_app 2 (le_bytes 2 padding)). unfold len in *. lia.
  - unfold service, len, table_rows. rewrite Nat2Z.id.
    rewrite (app_assoc (le_bytes 2 padding)).
    replace 4%nat with (length (le_bytes 2 padding ++ le_bytes 2 (Z.of_nat (length freqs))))
      by (by rewrite length_app, !length_le_bytes).
    rewrite <- app_assoc.
    rewrite (app_assoc (le_bytes 2 padding) (le_bytes 2 _)).
    rewrite read_table_packed by done.
    f_equal. by apply (foldl_dict_set_keys []).
Qed.

Lemma pack_uint_ok (w : nat) (x : Z) :
  0 <= x < 256 ^ Z.of_nat w -> pack_uint w x = Ok (le_bytes w x).
Proof. intros Hx. unfold pack_uint. by rewrite decide_True. Qed.

(** What [huffman_encode] returns for a codable input, with the tree and the
    bit string behind it. *)
Lemma huffman_encode_explicit (data : bytes) :
  codable data ->
  exists root bitstr encoded,
    let padding := (8 - len bitstr mod 8) mod 8 in
    archiver_huffman.build_huffman_tree (Counter data) = Ok root /\
    symbol root = None /\
    archiver_huffman.huffman_bits data = Ok bitstr /\
    (forall stop out,
       (forall k, (0 < k < length data)%nat -> stop (len out + Z.of_nat k) = false) ->
       stop (len out + len data) = true ->
       decode_walk stop root bitstr root out = Ok (out ++ data)) /\
    0 <= padding < 8 /\
    8 * len encoded = len bitstr + padding /\
    bitstr_of encoded padding = bitstr /\
    archiver_huffman.huffman_encode data =
      Ok (encoded,
          le_bytes 2 padding ++ le_bytes 2 (len (Counter data)) ++
          table_rows (Counter data)).
Proof.
  intros Hcodable. pose proof Hcodable as [(a & _ & Ha & _) _].
  destruct (codable_Counter data Hcodable) as [Hlen Hrange].
  destruct (build_huffman_tree_full (Counter data) Hlen)
    as (root & Htree & Hfull & Hinner & Hleaves).
  assert (Hnd : NoDup (leaves root)).
  { rewrite Hleaves. apply NoDup_keys_Counter. }
  destruct (build_codes_root root Hfull Hinner Hnd) as (cb & Hcb & Hcodes).
  destruct (decode_walk_join (fun _ => false) root cb data Hinner)
    as (bitstr & Hjoin & Hne & _).
  { intros s Hs. apply Hcodes. rewrite Hleaves.
    by apply list_elem_of_In, keys_Counter, list_elem_of_In. }
  assert (Hdata : data <> []) by (intros ->; by apply elem_of_nil in Ha).
  specialize (Hne Hdata).
  destruct (bitstr_of_packed bitstr Hne) as (encoded & Hpack & Hpad & Hsize & Hback).
  exists root, bitstr, encoded. cbv zeta.
  assert (Hbits : archiver_huffman.huffman_bits data = Ok bitstr).
  { unfold archiver_huffman.huffman_bits. cbv zeta. rewrite Htree. cbn [mbind result_bind].
    by rewrite Hcb. }
  split_and!; try done.
  - intros stop out Hgo Hstop.
    destruct (decode_walk_join stop root cb data Hinner) as (bs & Hjoin' & _ & Hwalk).
    { intros s Hs. apply Hcodes. rewrite Hleaves.
      by apply list_elem_of_In, keys_Counter, list_elem_of_In. }
    rewrite Hjoin in Hjoin'. injection Hjoin' as <-. by apply Hwalk.
  - lia.
  - lia.
  - unfold archiver_huffman.huffman_encode. cbv zeta. rewrite Hbits.
    cbn [mbind result_bind].
    destruct (int_base2 _) as [n|] eqn:Hn; [|done]. cbn [mbind result_bind] in Hpack |- *.
    rewrite Hpack. cbn [mbind result_bind].
    pose proof (length_Counter data).
    rewrite !pack_uint_ok by (change (256 ^ Z.of_nat 2) with 65536; lia).
    cbn [mbind result_bind].
    rewrite pack_table_ok by done. done.
Qed.

Lemma universal_build_huffman_tree (freqs : dict byte Z) :
  freqs <> [] ->
  universal_decoder.build_huffman_tree freqs =
    (root ← archiver_huffman.build_huffman_tree freqs; Ok (Some root)).
Proof.
  intros Hne. unfold universal_decoder.build_huffman_tree,
    archiver_huffman.build_huffman_tree.
  pose proof (Permutation_length (heapify_Permutation Node_lt (leaf_nodes freqs))) as Hl.
  unfold leaf_nodes in Hl at 2. rewrite length_map in Hl.
  rewrite decide_False by (destruct freqs; simpl in *; [done|lia]).
  case_decide.
  - by destruct (heapify _ _).
  - destruct (merge_loop _ _) as [[|root ?]|]; done.
Qed.

(** Both decoders give back a codable input from what [huffman_encode]
    returned for it; bytes that follow the table in the service blob (a
    checksum that was not cut off) do not matter. *)
Lemma huffman_decoders_round_trip (data encoded service post : bytes) :
  codable data ->
  archiver_huffman.huffman_encode data = Ok (encoded, service) ->
  archiver_huffman.huffman_decode encoded (service ++ post) (len data) = Ok data /\
  universal_decoder.huffman_decode_bytes encoded (service ++ post) (len data) = Ok data.
Proof.
  intros Hcodable Henc.
  destruct (huffman_encode_explicit data Hcodable)
    as (root & bitstr & enc & Htree & Hinner & _ & Hwalk & Hpad & _ & Hback & Henc').
  rewrite Henc in Henc'.
  assert (encoded = enc) as -> by congruence.
  assert (service = le_bytes 2 ((8 - len bitstr mod 8) mod 8) ++
                    le_bytes 2 (len (Counter data)) ++ table_rows (Counter data))
    as -> by congruence.
  clear Henc Henc'.
  destruct (codable_Counter data Hcodable) as [Hlen Hrange].
  pose proof (length_Counter data) as Hcount.
  destruct (service_read_back ((8 - len bitstr mod 8) mod 8) (Counter data) post)
    as (Hr1 & Hr2 & Hr3); [lia|lia|done|apply NoDup_keys_Counter|].
  rewrite <- !app_assoc.
  assert (Hdata : (0 < length data)%nat).
  { destruct Hcodable as [(a & _ & Ha & _) _]. destruct data; simpl; [|lia].
    by apply elem_of_nil in Ha. }
  split.
  - unfold archiver_huffman.huffman_decode.
    rewrite Hr1, Hr2. cbn [mbind result_bind]. rewrite Hr3. cbn [mbind result_bind].
    rewrite Htree. cbn [mbind result_bind]. rewrite Hback.
    apply (Hwalk _ []).
    + intros k Hk. apply bool_decide_eq_false. unfold len. simpl. lia.
    + by apply bool_decide_eq_true.
  - unfold universal_decoder.huffman_decode_bytes.
    rewrite decide_False.
    2:{ unfold len. rewrite !length_app, !length_le_bytes. lia. }
    rewrite Hr1, Hr2. cbn [mbind result_bind]. rewrite Hr3. cbn [mbind result_bind].
    rewrite universal_build_huffman_tree by (by destruct (Counter data)).
    rewrite Htree. cbn [mbind result_bind]. rewrite Hback.
    rewrite (Hwalk _ []).
    + cbn [mbind result_bind app]. unfold slice_to.
      rewrite decide_True by (unfold len; lia).
      unfold len. by rewrite Nat2Z.id, firstn_all.
    + intros k Hk. apply bool_decide_eq_false. unfold len. simpl. lia.
    + apply bool_decide_eq_true. unfold len. simpl. lia.
Qed.

(** Encoding a codable input and decoding the result with the length of the
    input gives the input back. *)
Theorem huffman_round_trip_codable (data : bytes) :
  codable data -> huffman_round_trip data = Ok data.
Proof.
  intros Hcodable. unfold huffman_round_trip.
  destruct (huffman_encode_explicit data Hcodable)
    as (_ & bitstr & encoded & _ & _ & _ & _ & _ & _ & _ & Henc).
  rewrite Henc. cbn [mbind result_bind].
  pose proof (huffman_decoders_round_trip data encoded _ [] Hcodable Henc) as [H _].
  by rewrite app_nil_r in H.
Qed.

Lemma codable_aba : codable [x61; x62; x61].
Proof.
  split; [|by vm_compute]. exists x61, x62.
  split_and!; [by left|by right; left|done].
Qed.

Lemma huffman_round_trip_codable_witness :
  huffman_round_trip [x61; x62; x61] = Ok [x61; x62; x61].
Proof. exact (huffman_round_trip_codable [x61; x62; x61] codable_aba). Defined.

(** The decoder of [universal_decoder.py] reads what the coder of
    [archiver_huffman.py] writes. *)
Theorem huffman_decode_bytes_round_trip (data encoded service : bytes) :
  codable data ->
  archiver_huffman.huffman_encode data = Ok (encoded, service) ->
  universal_decoder.huffman_decode_bytes encoded service (len data) = Ok data.
Proof.
  intros Hcodable Henc.
  pose proof (huffman_decoders_round_trip data encoded service [] Hcodable Henc) as [_ H].
  by rewrite app_nil_r in H.
Qed.

Lemma huffman_decode_bytes_round_trip_witness :
  universal_decoder.huffman_decode_bytes [xa0]
    [x05; x00; x02; x00; x61; x02; x00; x00; x00; x62; x01; x00; x00; x00] 3
  = Ok [x61; x62; x61].
Proof.
  exact (huffman_decode_bytes_round_trip [x61; x62; x61] [xa0]
           [x05; x00; x02; x00; x61; x02; x00; x00; x00; x62; x01; x00; x00; x00]
           codable_aba eq_refl).
Defined.

(** ** Archives written and read back *)

Section parses.

Lemma parses_ret {A} (a : A) : parses (mret a) [] a.
Proof. by intros rest. Qed.

Lemma parses_bind {A B} (m : io A) (f : A -> io B) (bs bs' : bytes) (a : A) (b : B) :
  parses m bs a -> parses (f a) bs' b -> parses (m ≫= f) (bs ++ bs') b.
Proof.
  intros Hm Hf rest. unfold mbind, io_bind. rewrite <- app_assoc, Hm, Hf. done.
Qed.

Lemma parses_bind_last {A B} (m : io A) (f : A -> io B) (bs : bytes) (a : A) (b : B) :
  parses m bs a -> parses (f a) [] b -> parses (m ≫= f) bs b.
Proof.
  intros Hm Hf. rewrite <- (app_nil_r bs). by eapply parses_bind.
Qed.

Lemma parses_f_read (bs : bytes) (n : Z) : n = len bs -> parses (f_read n) bs bs.
Proof.
  intros -> rest. unfold f_read, len. rewrite decide_False by lia.
  by rewrite Nat2Z.id, take_app_length, drop_app_length.
Qed.

Lemma parses_read_uint (w : nat) (x : Z) :
  0 <= x < 256 ^ Z.of_nat w -> parses (read_uint w) (le_bytes w x) x.
Proof.
  intros Hx. unfold read_uint.
  rewrite <- (app_nil_r (le_bytes w x)) at 1.
  eapply parses_bind.
  - apply parses_f_read. unfold len. by rewrite length_le_bytes.
  - intros rest. unfold lift, unpack_uint. rewrite length_le_bytes, decide_True by done.
    by rewrite le_int_le_bytes.
Qed.

Lemma parses_read_u8 (x : Z) : 0 <= x < 256 -> parses read_u8 (le_bytes 1 x) x.
Proof.
  intros Hx. unfold read_u8.
  rewrite <- (app_nil_r (le_bytes 1 x)) at 1.
  eapply parses_bind.
  - by apply parses_f_read.
  - intros rest. cbn [le_bytes]. unfold mret, io_ret. simpl.
    rewrite byte_to_of_Z, Z.mod_mod by lia. by rewrite Z.mod_small.
Qed.

Lemma parses_lift {A} (a : A) : parses (lift (Ok a)) [] a.
Proof. by intros rest. Qed.

End parses.

Lemma pack_uint_inv (w : nat) (x : Z) (b : bytes) :
  pack_uint w x = Ok b -> 0 <= x < 256 ^ Z.of_nat w /\ b = le_bytes w x.
Proof. unfold pack_uint. case_decide; [|done]. by intros [= <-]. Qed.

Lemma parses_read_header (signature head : bytes)
    (version alg_ctx alg_noctx alg_prot reserved header_size n : Z) :
  length signature = 8%nat -> take 6 signature = L3ARCH ->
  pack_header signature version alg_ctx alg_noctx alg_prot reserved header_size n
    = Ok head ->
  parses read_header head
    {| version := version; alg_ctx := alg_ctx; alg_noctx := alg_noctx;
       alg_prot := alg_prot; header_size := header_size; num_entries := n |}.
Proof.
  intros Hlen Hsig Hpack. unfold pack_header in Hpack.
  repeat match type of Hpack with
         | (pack_uint ?w ?x ≫= _) = _ =>
             let H := fresh "Hp" in
             destruct (pack_uint w x) eqn:H; cbn [mbind result_bind] in Hpack;
             [apply pack_uint_inv in H as [? ->]|done]
         end.
  assert (head = signature ++ le_bytes 2 version ++ le_bytes 1 alg_ctx ++
                 le_bytes 1 alg_noctx ++ le_bytes 1 alg_prot ++ le_bytes 1 reserved ++
                 le_bytes 8 header_size ++ le_bytes 4 n) as -> by congruence.
  clear Hpack. unfold read_header.
  eapply parses_bind; [by apply parses_f_read; unfold len; rewrite Hlen|].
  rewrite Hsig, decide_True by done.
  repeat (eapply parses_bind;
          [first [by apply parses_read_uint | by apply parses_read_u8
                 | by apply (parses_f_read (le_bytes 1 _))]|]).
  eapply parses_bind_last; [by apply parses_read_uint|]. apply parses_ret.
Qed.

Lemma parses_read_entry (X : Externals) (type : Z) (path : string)
    (orig stored_len : Z) (service_bytes row : bytes) :
  utf8_valid X (str_encode path) = true ->
  toc_row type path orig stored_len service_bytes = Ok row ->
  parses (read_entry X) row
    {| entry_type := type; relpath := path; orig_size := orig;
       stored_size := stored_len; service := service_bytes |}.
Proof.
  intros Hutf Hrow. unfold toc_row in Hrow. cbv zeta in Hrow.
  repeat match type of Hrow with
         | (pack_uint ?w ?x ≫= _) = _ =>
             let H := fresh "Hp" in
             destruct (pack_uint w x) eqn:H; cbn [mbind result_bind] in Hrow;
             [apply pack_uint_inv in H as [? ->]|done]
         end.
  assert (row = le_bytes 1 type ++ le_bytes 2 (len (str_encode path)) ++
                str_encode path ++ le_bytes 8 orig ++ le_bytes 8 stored_len ++
                le_bytes 4 (len service_bytes) ++ service_bytes) as -> by congruence.
  clear Hrow. unfold read_entry.
  eapply parses_bind; [by apply parses_read_u8|].
  eapply parses_bind; [by apply parses_read_uint|].
  eapply parses_bind; [by apply parses_f_read|].
  rewrite <- (app_nil_l (le_bytes 8 orig ++ _)).
  eapply parses_bind.
  { unfold bytes_decode, str_encode in *. rewrite Hutf, string_of_list_byte_of_string.
    apply parses_lift. }
  eapply parses_bind; [by apply parses_read_uint|].
  eapply parses_bind; [by apply parses_read_uint|].
  eapply parses_bind; [by apply parses_read_uint|].
  eapply parses_bind_last; [|apply parses_ret].
  case_decide as Hz.
  - unfold len in Hz. destruct service_bytes; [|simpl in Hz; lia]. apply parses_ret.
  - by apply parses_f_read.
Qed.


Lemma encode_entries_Forall2 (X : Externals) (huffman crc : bool)
    (entries : list file_entry) (coded : list (bytes * bytes)) :
  encode_entries X huffman crc entries = Ok coded ->
  Forall2 (fun ent c => encode_entry X huffman crc ent = Ok c) entries coded.
Proof.
  revert coded. induction entries as [|ent entries IH]; intros coded; simpl.
  - intros [= <-]. constructor.
  - destruct (encode_entry X huffman crc ent) as [c|] eqn:Hc; [|done].
    cbn [mbind result_bind].
    destruct (encode_entries X huffman crc entries) as [cs|]; [|done].
    intros [= <-]. constructor; auto.
Qed.

Lemma parses_read_entries (X : Externals) (entries : list file_entry)
    (coded : list (bytes * bytes)) (table : bytes) :
  length coded = length entries ->
  Forall (fun ent => utf8_valid X (str_encode (fe_relpath ent)) = true) entries ->
  build_table entries coded = Ok table ->
  parses (read_entries X (length entries)) table (zip_with entry_meta_of entries coded).
Proof.
  intros Hlen Hutf. revert coded table Hlen.
  induction Hutf as [|ent entries Hent _ IH]; intros [|[stored service] coded] table Hlen;
    simplify_eq/=.
  - intros [= <-]. apply parses_ret.
  - destruct (toc_row _ _ _ _ _) as [row|] eqn:Hrow; [|done]. cbn [mbind result_bind].
    destruct (build_table entries coded) as [rest|] eqn:Hrest; [|done].
    intros [= <-].
    eapply parses_bind; [by eapply parses_read_entry|].
    eapply parses_bind_last; [by apply IH|]. apply parses_ret.
Qed.

(** The four table-driven decoders open an archive in the same way: after
    the header and the table comes the loop over the entries. *)
Lemma decoder_opens (X : Externals) (outdir : Path)
    (step : header -> entry_meta -> io unit)
    (head table payload : bytes) (h : header) (metas : list entry_meta) :
  parses read_header head h ->
  parses (read_entries X (Z.to_nat (num_entries h))) table metas ->
  run (h' ← read_header;
       entries_meta ← read_entries X (Z.to_nat (num_entries h'));
       emit (EMkdir outdir);;
       for_each (step h') entries_meta) (head ++ table ++ payload) =
  let '(evs, r) := for_each (step h) metas payload in
  (EMkdir outdir :: evs, match r with Ok _ => None | Err e => Some e end).
Proof.
  intros Hhead Htable. unfold run, mbind, io_bind, emit.
  rewrite Hhead, Htable. simpl.
  by destruct (for_each (step h) metas payload) as [evs [[[] rest]|e]].
Qed.


Lemma read_stored_app (e : entry_meta) (stored rest : bytes) :
  stored_size e = len stored ->
  read_stored e (stored ++ rest) = ([], Ok (stored, rest)).
Proof.
  intros Hsize. unfold read_stored. case_decide as Hz.
  - rewrite Hsize in Hz. unfold len in Hz. by destruct stored.
  - by apply parses_f_read.
Qed.

Lemma encode_entry_inv (X : Externals) (huffman crc : bool) (ent : file_entry)
    (stored service : bytes) :
  encode_entry X huffman crc ent = Ok (stored, service) ->
  exists service0,
    (if huffman then archiver_huffman.huffman_encode (fe_raw ent) = Ok (stored, service0)
     else stored = fe_raw ent /\ service0 = []) /\
    service = service0 ++
      (if crc then le_bytes 4 (Z.land (crc32 X (fe_raw ent)) 4294967295) else []).
Proof.
  unfold encode_entry. intros H.
  destruct huffman.
  - destruct (archiver_huffman.huffman_encode (fe_raw ent)) as [[s0 v0]|]; [|done].
    cbn [mbind result_bind] in H. exists v0. destruct crc.
    + rewrite pack_crc_ok in H. cbn [mbind result_bind] in H. by simplify_eq.
    + simplify_eq. by rewrite app_nil_r.
  - cbn [mbind result_bind] in H. exists []. destruct crc.
    + rewrite pack_crc_ok in H. cbn [mbind result_bind] in H. by simplify_eq.
    + by simplify_eq.
Qed.


Lemma length_table_rows (freqs : dict byte Z) :
  length (table_rows freqs) = (5 * length freqs)%nat.
Proof.
  unfold table_rows. induction freqs as [|[sym fr] d IH]; [done|].
  cbn [map concat]. rewrite length_app, IH, length_cons, length_le_bytes. simpl. lia.
Qed.

Lemma huffman_service_length (data encoded service : bytes) :
  codable data ->
  archiver_huffman.huffman_encode data = Ok (encoded, service) ->
  len service = 4 + 5 * len (Counter data).
Proof.
  intros Hcodable Henc.
  destruct (huffman_encode_explicit data Hcodable)
    as (_ & bitstr & enc & _ & _ & _ & _ & _ & _ & _ & Henc').
  rewrite Henc in Henc'.
  assert (service = le_bytes 2 ((8 - len bitstr mod 8) mod 8) ++
                    le_bytes 2 (len (Counter data)) ++ table_rows (Counter data))
    as -> by congruence.
  unfold len. rewrite !length_app, !length_le_bytes, length_table_rows. lia.
Qed.

Section restores.
Context (X : Externals) (huffman crc : bool) (h : header) (outdir : Path).
Context (Hnoctx : alg_noctx h = if huffman then 3 else 0).
Context (Hprot : alg_prot h = if crc then 11 else 0).



End restores.



(** ** Malformed archives *)

(** An archive that does not start with [L3ARCH] is refused by every
    decoder with [ValueError], before anything is created or written. *)
Theorem bad_signature_refused (X : Externals) (archive : bytes) (outdir : Path) :
  take 6 archive <> L3ARCH ->
  Forall (fun decoder : Externals -> Path -> io unit =>
            run (decoder X outdir) archive = ([], Some ValueError))
    [decode_v1; decode_v2; decode_v3; extract_archive] /\
  universal_decode X archive outdir = ([], Some ValueError).
Proof.
  intros Hsig.
  assert (Hhead : read_header archive = ([], Err ValueError)).
  { unfold read_header, mbind, io_bind, f_read. simpl.
    rewrite take_take, decide_False by done. done. }
  split.
  - repeat apply Forall_cons_2; [..|by apply Forall_nil];
      unfold run, decode_v1, decode_v2, decode_v3, extract_archive, mbind, io_bind;
      by rewrite Hhead.
  - unfold universal_decode. rewrite take_take, decide_False by done. done.
Qed.

Lemma bad_signature_refused_witness :
  Forall (fun decoder : Externals -> Path -> io unit =>
            run (decoder py out_dir) [x50; x4b; x03; x04; x14; x00; x00; x00]
              = ([], Some ValueError))
    [decode_v1; decode_v2; decode_v3; extract_archive] /\
  universal_decode py [x50; x4b; x03; x04; x14; x00; x00; x00] out_dir
    = ([], Some ValueError).
Proof.
  apply (bad_signature_refused py [x50; x4b; x03; x04; x14; x00; x00; x00] out_dir).
  by vm_compute.
Defined.

(** ** [decode_v1] *)

(** The calls of an entry step of [decode_v1]: the checksum is looked for
    in the first 4 bytes of the service blob, whatever the codec; a mismatch
    is printed and the step goes on to the write.  A failure of
    [zlib.decompress] (codec 2) ends the run after the call of [mkdir]. *)
Lemma decode_v1_entry_calls (X : Externals) (h : header) (outdir : Path)
    (e : entry_meta) (rest stored rest' : bytes) :
  read_stored e rest = ([], Ok (stored, rest')) ->
  let target := joinpath outdir (Path_of (relpath e)) in
  decode_v1_entry X h outdir e rest =
    match (if decide (alg_noctx h = 2) then zlib_decompress X stored else Ok stored) with
    | Ok raw =>
        (EMkdir (parent target) ::
         (if decide (alg_prot h = 11 /\ 4 <= len (service e) /\
                     Z.land (crc32 X raw) 4294967295 <> le_int (take 4 (service e)))
          then [EPrint (MsgCrcMismatch V1 (relpath e))] else []) ++
         [EWrite target raw; EPrint (MsgRestored V1 (relpath e))], Ok (tt, rest'))
    | Err err => ([EMkdir (parent target)], Err err)
    end.
Proof.
  intros Hread target. unfold decode_v1_entry. io_unfold. rewrite Hread.
  unfold universal_decoder.ALG_PROT_CRC32. fold target.
  assert (Hc : 4 <= len (service e) ->
               unpack_uint 4 (take 4 (service e)) = Ok (le_int (take 4 (service e)))).
  { intros Hl. unfold unpack_uint. rewrite length_take, decide_True; [done|].
    unfold len in Hl. lia. }
  destruct (decide (alg_prot h = 11 /\ 4 <= len (service e))) as [[Hp Hl]|Hno];
    [rewrite (Hc Hl)|];
    (destruct (decide (alg_noctx h = 2)) as [_|_];
       [destruct (zlib_decompress X stored) as [raw|err]; [|done]|]).
  all: try (by rewrite decide_False by tauto).
  all: destruct (decide (Z.land _ 4294967295 = _));
    [by rewrite decide_False by tauto|by rewrite decide_True by tauto].
Qed.

(** ** The intelligent coder and [decode_v3] *)









(** ** Layouts *)

Lemma pack_header_length (signature head : bytes)
    (version alg_ctx alg_noctx alg_prot reserved header_size n : Z) :
  pack_header signature version alg_ctx alg_noctx alg_prot reserved header_size n
    = Ok head ->
  length head = (length signature + 18)%nat.
Proof.
  unfold pack_header. intros Hpack.
  repeat match type of Hpack with
         | (pack_uint ?w ?x ≫= _) = _ =>
             let H := fresh "Hp" in
             destruct (pack_uint w x) eqn:H; cbn [mbind result_bind] in Hpack;
             [apply pack_uint_inv in H as [_ ->]|done]
         end.
  assert (head = signature ++ le_bytes 2 version ++ le_bytes 1 alg_ctx ++
                 le_bytes 1 alg_noctx ++ le_bytes 1 alg_prot ++ le_bytes 1 reserved ++
                 le_bytes 8 header_size ++ le_bytes 4 n) as -> by congruence.
  rewrite !length_app, !length_le_bytes. lia.
Qed.

(** The header of an archive written by [build_archive] reads back as
    version 2 with the codec and protection tags of the call and the number
    of entries, and its [header_size] is the offset at which the stored
    blocks begin. *)
Theorem build_archive_layout (X : Externals) (entries : list file_entry)
    (huffman crc : bool) (archive : bytes) :
  build_archive X entries huffman crc = Ok archive ->
  exists h coded,
    read_header archive = ([], Ok (h, drop 26 archive)) /\
    version h = 2 /\ alg_ctx h = 0 /\
    alg_noctx h = (if huffman then 3 else 0) /\
    alg_prot h = (if crc then 11 else 0) /\
    num_entries h = len entries /\
    encode_entries X huffman crc entries = Ok coded /\
    drop (Z.to_nat (header_size h)) archive = concat (map fst coded).
Proof.
  intros Hbuild. unfold build_archive in Hbuild.
  destruct (encode_entries X huffman crc entries) as [coded|] eqn:Hcoded; [|done].
  cbn [mbind result_bind] in Hbuild.
  destruct (build_table entries coded) as [table|] eqn:Htable; [|done].
  cbn [mbind result_bind] in Hbuild.
  destruct (pack_header _ _ _ _ _ _ _ _) as [head|] eqn:Hhead; [|done].
  cbn [mbind result_bind] in Hbuild.
  assert (archive = head ++ table ++ concat (map fst coded)) as -> by congruence.
  clear Hbuild.
  pose proof (pack_header_length _ _ _ _ _ _ _ _ _ Hhead) as Hlen. simpl in Hlen.
  apply parses_read_header in Hhead; [|done..].
  eexists _, coded. split.
  { rewrite Hhead, drop_app_length' by (symmetry; exact Hlen). done. }
  split_and!; [done|done|by destruct huffman|by destruct crc|done|done|].
  cbn [header_size]. unfold FIXED_HEADER_LEN, len.
  replace (Z.to_nat (8 + 2 + 1 + 1 + 1 + 1 + 8 + 4 + Z.of_nat (length table)))
    with (length (head ++ table)) by (rewrite length_app; lia).
  by rewrite app_assoc, drop_app_length.
Qed.

Lemma build_archive_layout_witness :
  exists h coded,
    read_header huffman_archive = ([], Ok (h, drop 26 huffman_archive)) /\
    version h = 2 /\ alg_ctx h = 0 /\ alg_noctx h = 3 /\ alg_prot h = 11 /\
    num_entries h = 2 /\
    encode_entries py true true two_files = Ok coded /\
    drop (Z.to_nat (header_size h)) huffman_archive = concat (map fst coded).
Proof.
  exact (build_archive_layout py two_files true true huffman_archive
           ltac:(by vm_compute)).
Defined.

(** What [huffman_encode] returns for an input with two different bytes or
    more: the service blob is the padding (fewer than 8 bits), the number
    of distinct bytes, and one row of 5 bytes per distinct byte, in order of
    first occurrence, whose counts add up to the length of the input; the
    payload is the code bits and the padding, 8 to a byte. *)
Theorem huffman_encode_layout (data encoded service : bytes) :
  codable data ->
  archiver_huffman.huffman_encode data = Ok (encoded, service) ->
  exists bitstr,
    archiver_huffman.huffman_bits data = Ok bitstr /\
    let padding := (8 - len bitstr mod 8) mod 8 in
    service = le_bytes 2 padding ++ le_bytes 2 (len (Counter data)) ++
              table_rows (Counter data) /\
    0 <= padding < 8 /\
    8 * len encoded = len bitstr + padding /\
    len service = 4 + 5 * len (Counter data) /\
    foldr Z.add 0 (map snd (Counter data)) = len data /\
    (forall b, In b (keys (Counter data)) <-> In b data).
Proof.
  intros Hcodable Henc.
  destruct (huffman_encode_explicit data Hcodable)
    as (_ & bitstr & enc & _ & _ & Hbits & _ & Hpad & Hsize & _ & Henc').
  pose proof (huffman_service_length _ _ _ Hcodable Henc) as Hlen.
  rewrite Henc in Henc'.
  assert (encoded = enc) as -> by congruence.
  exists bitstr. split; [done|]. cbv zeta.
  split; [congruence|]. split; [done|]. split; [done|]. split; [done|].
  split; [apply Counter_sum|apply keys_Counter].
Qed.

Lemma huffman_encode_layout_witness :
  exists bitstr,
    archiver_huffman.huffman_bits [x61; x62; x61] = Ok bitstr /\
    let padding := (8 - len bitstr mod 8) mod 8 in
    [x05; x00; x02; x00; x61; x02; x00; x00; x00; x62; x01; x00; x00; x00] =
      le_bytes 2 padding ++ le_bytes 2 (len (Counter [x61; x62; x61])) ++
      table_rows (Counter [x61; x62; x61]) /\
    0 <= padding < 8 /\
    8 * len [xa0] = len bitstr + padding /\
    len [x05; x00; x02; x00; x61; x02; x00; x00; x00; x62; x01; x00; x00; x00] =
      4 + 5 * len (Counter [x61; x62; x61]) /\
    foldr Z.add 0 (map snd (Counter [x61; x62; x61])) = len [x61; x62; x61] /\
    (forall b, In b (keys (Counter [x61; x62; x61])) <-> In b [x61; x62; x61]).
Proof.
  exact (huffman_encode_layout [x61; x62; x61] [xa0]
           [x05; x00; x02; x00; x61; x02; x00; x00; x00; x62; x01; x00; x00; x00]
           codable_aba eq_refl).
Defined.

(** ** Decoding with another length *)

Lemma join_codes_app (cb : dict byte bits) (d1 d2 : bytes) (bs1 bs2 : bits) :
  join_codes cb d1 = Ok bs1 -> join_codes cb d2 = Ok bs2 ->
  join_codes cb (d1 ++ d2) = Ok (bs1 ++ bs2).
Proof.
  revert bs1. induction d1 as [|s d1 IH]; intros bs1; simpl.
  - by intros [= <-].
  - destruct (dict_get cb s) as [code|]; [|done].
    destruct (join_codes cb d1) as [rest|]; [|done]. simpl.
    intros [= <-] H2. rewrite (IH rest) by done. simpl. by rewrite app_assoc.
Qed.

Lemma join_codes_total (root : Node) (cb : dict byte bits) (data : bytes) :
  (forall s, s ∈ data -> exists p, code_at root p s /\ dict_get cb s = Some p) ->
  exists bs, join_codes cb data = Ok bs.
Proof.
  induction data as [|s data IH]; intros Hcodes; [by exists []|].
  destruct (Hcodes s) as (p & _ & Hget); [by left|].
  destruct IH as [bs Hbs]; [intros s' Hs'; apply Hcodes; by right|].
  exists (p ++ bs). simpl. by rewrite Hget, Hbs.
Qed.

(** As long as the stopping test fails, the walk turns the codes of the
    symbols into the symbols. *)
Lemma decode_walk_through (stop : Z -> bool) (root : Node) (cb : dict byte bits)
    (data : bytes) (bs : bits) :
  symbol root = None ->
  (forall s, s ∈ data -> exists p, code_at root p s /\ dict_get cb s = Some p) ->
  join_codes cb data = Ok bs ->
  forall more out,
    (forall k, (0 < k <= length data)%nat -> stop (len out + Z.of_nat k) = false) ->
    decode_walk stop root (bs ++ more) root out =
    decode_walk stop root more root (out ++ data).
Proof.
  intros Hroot. revert bs. induction data as [|s data IH]; intros bs Hcodes Hjoin more out Hgo.
  - simpl in Hjoin. injection Hjoin as <-. by rewrite app_nil_r.
  - destruct (Hcodes s) as (p & Hp & Hget); [by left|].
    simpl in Hjoin. rewrite Hget in Hjoin.
    destruct (join_codes cb data) as [rest|] eqn:Hrest; [|done].
    simpl in Hjoin. injection Hjoin as <-.
    rewrite <- app_assoc, (decode_walk_code stop root root p s Hp Hroot).
    assert (Hlen : len (out ++ [s]) = len out + 1).
    { unfold len. rewrite length_app. simpl. lia. }
    pose proof (Hgo 1%nat ltac:(simpl; lia)) as Hgo1.
    change (Z.of_nat 1) with 1 in Hgo1. rewrite Hlen, Hgo1.
    rewrite (IH rest); [by rewrite <- app_assoc| |done|].
    + intros s' Hs'. apply Hcodes. by right.
    + intros k Hk. rewrite Hlen.
      replace (len out + 1 + Z.of_nat k) with (len out + Z.of_nat (S k)) by lia.
      apply Hgo. simpl. lia.
Qed.

(** The walk stops at the first symbol after which the test holds. *)
Lemma decode_walk_stops (stop : Z -> bool) (root : Node) (cb : dict byte bits)
    (data : bytes) (bs : bits) (n : nat) :
  symbol root = None ->
  (forall s, s ∈ data -> exists p, code_at root p s /\ dict_get cb s = Some p) ->
  join_codes cb data = Ok bs ->
  (0 < n <= length data)%nat ->
  (forall k, (0 < k < n)%nat -> stop (Z.of_nat k) = false) ->
  stop (Z.of_nat n) = true ->
  decode_walk stop root bs root [] = Ok (take n data).
Proof.
  intros Hroot Hcodes Hjoin Hn Hgo Hstop.
  destruct n as [|n]; [lia|].
  destruct (lookup_lt_is_Some_2 data n) as [s Hs]; [lia|].
  pose proof (take_drop_middle data n s Hs) as Hsplit.
  assert (Hin : forall d : bytes, (forall x, x ∈ d -> x ∈ data) ->
            forall x, x ∈ d -> exists p, code_at root p x /\ dict_get cb x = Some p).
  { intros d Hd x Hx. by apply Hcodes, Hd. }
  destruct (join_codes_total root cb (take n data)) as [bs1 Hbs1].
  { apply Hin. intros x Hx. rewrite <- (take_drop n data). apply elem_of_app. by left. }
  destruct (Hcodes s) as (p & Hp & Hget); [by eapply list_elem_of_lookup_2|].
  destruct (join_codes_total root cb (drop (S n) data)) as [bs2 Hbs2].
  { apply Hin. intros x Hx. rewrite <- (take_drop (S n) data). apply elem_of_app. by right. }
  assert (Hbs : bs = bs1 ++ p ++ bs2).
  { rewrite <- Hsplit in Hjoin.
    rewrite (join_codes_app cb (take n data) (s :: drop (S n) data) bs1 (p ++ bs2))
      in Hjoin; [congruence|done|]. simpl. by rewrite Hget, Hbs2. }
  rewrite Hbs.
  rewrite (decode_walk_through stop root cb (take n data) bs1 Hroot); [|by apply Hin;
    intros x Hx; rewrite <- (take_drop n data); apply elem_of_app; left|done|].
  2:{ intros k Hk. rewrite length_take in Hk. apply Hgo. lia. }
  rewrite (decode_walk_code stop root root p s Hp Hroot).
  assert (Hlen : len (([] ++ take n data) ++ [s]) = Z.of_nat (S n)).
  { unfold len. rewrite !length_app, length_take. simpl. lia. }
  rewrite Hlen, Hstop. simpl. by erewrite take_S_r.
Qed.

Lemma huffman_codes (data : bytes) :
  codable data ->
  exists root cb bitstr,
    archiver_huffman.build_huffman_tree (Counter data) = Ok root /\
    full_tree root /\ symbol root = None /\ leaves root ≡ₚ keys (Counter data) /\
    build_codes root [] [] = Ok cb /\
    (forall s, s ∈ data -> exists p, code_at root p s /\ dict_get cb s = Some p) /\
    join_codes cb data = Ok bitstr /\
    archiver_huffman.huffman_bits data = Ok bitstr.
Proof.
  intros Hcodable.
  destruct (codable_Counter data Hcodable) as [Hlen Hrange].
  destruct (build_huffman_tree_full (Counter data) Hlen)
    as (root & Htree & Hfull & Hinner & Hleaves).
  assert (Hnd : NoDup (leaves root)).
  { rewrite Hleaves. apply NoDup_keys_Counter. }
  destruct (build_codes_root root Hfull Hinner Hnd) as (cb & Hcb & Hcodes).
  assert (Hdata : forall s, s ∈ data ->
            exists p, code_at root p s /\ dict_get cb s = Some p).
  { intros s Hs. apply Hcodes. rewrite Hleaves.
    by apply list_elem_of_In, keys_Counter, list_elem_of_In. }
  destruct (join_codes_total root cb data Hdata) as [bitstr Hjoin].
  exists root, cb, bitstr. split_and!; try done.
  unfold archiver_huffman.huffman_bits. cbv zeta. rewrite Htree. cbn [mbind result_bind].
  by rewrite Hcb.
Qed.

(** Decoding what [huffman_encode] returned with a length other than that
    of the input: [huffman_decode_bytes] returns the first [orig_size] bytes
    of the input (all of it when [orig_size] is larger, none when it is 0);
    [huffman_decode] does the same for [orig_size] from 1 up, and returns
    the whole input for [orig_size] 0, which its test [len(out) == orig_size]
    never meets. *)
Theorem huffman_decode_other_length (data encoded service : bytes) (orig_size : Z) :
  codable data ->
  archiver_huffman.huffman_encode data = Ok (encoded, service) ->
  archiver_huffman.huffman_decode encoded service orig_size =
    Ok (if decide (1 <= orig_size) then take (Z.to_nat orig_size) data else data) /\
  universal_decoder.huffman_decode_bytes encoded service orig_size =
    Ok (take (Z.to_nat orig_size) data).
Proof.
  intros Hcodable Henc.
  destruct (huffman_codes data Hcodable)
    as (root & cb & bitstr & Htree & _ & Hinner & _ & _ & Hcodes & Hjoin & Hbits).
  destruct (huffman_encode_explicit data Hcodable)
    as (root' & bitstr' & enc & Htree' & _ & Hbits' & _ & Hpad & _ & Hback & Henc').
  assert (root' = root) as -> by congruence.
  assert (bitstr' = bitstr) as -> by congruence.
  rewrite Henc in Henc'.
  assert (encoded = enc) as -> by congruence.
  assert (service = le_bytes 2 ((8 - len bitstr mod 8) mod 8) ++
                    le_bytes 2 (len (Counter data)) ++ table_rows (Counter data))
    as -> by congruence.
  clear Henc Henc' Htree' Hbits'.
  destruct (codable_Counter data Hcodable) as [Hlen Hrange].
  pose proof (length_Counter data) as Hcount.
  destruct (service_read_back ((8 - len bitstr mod 8) mod 8) (Counter data) [])
    as (Hr1 & Hr2 & Hr3); [lia|lia|done|apply NoDup_keys_Counter|].
  rewrite !app_nil_r in Hr1, Hr2, Hr3.
  assert (Hdata : (0 < length data)%nat).
  { destruct Hcodable as [(a & _ & Ha & _) _]. destruct data; simpl; [|lia].
    by apply elem_of_nil in Ha. }
  split.
  - unfold archiver_huffman.huffman_decode.
    rewrite Hr1, Hr2. cbn [mbind result_bind]. rewrite Hr3. cbn [mbind result_bind].
    rewrite Htree. cbn [mbind result_bind]. rewrite Hback.
    destruct (decide (1 <= orig_size <= len data)) as [Hin|Hout].
    + rewrite decide_True by lia.
      apply (decode_walk_stops _ root cb data bitstr (Z.to_nat orig_size));
        [done..|unfold len in Hin; lia| |].
      * intros k Hk. apply bool_decide_eq_false. lia.
      * apply bool_decide_eq_true. lia.
    + rewrite <- (app_nil_r bitstr).
      rewrite (decode_walk_through _ root cb data bitstr Hinner Hcodes Hjoin).
      * simpl. case_decide; [|done]. rewrite take_ge; [done|]. unfold len in Hout. lia.
      * intros k Hk. apply bool_decide_eq_false. unfold len in *. simpl. lia.
  - unfold universal_decoder.huffman_decode_bytes.
    rewrite decide_False.
    2:{ unfold len. rewrite !length_app, !length_le_bytes. lia. }
    rewrite Hr1, Hr2. cbn [mbind result_bind]. rewrite Hr3. cbn [mbind result_bind].
    rewrite universal_build_huffman_tree by (by destruct (Counter data)).
    rewrite Htree. cbn [mbind result_bind]. rewrite Hback.
    destruct (decide (orig_size <= len data)) as [Hin|Hout].
    + rewrite (decode_walk_stops _ root cb data bitstr (Z.to_nat (Z.max 1 orig_size)));
        [|done..|unfold len in Hin; lia| |].
      * cbn [mbind result_bind]. f_equal. unfold slice_to, len.
        rewrite length_take. case_decide.
        -- rewrite take_take. f_equal. lia.
        -- replace (Z.to_nat orig_size) with 0%nat by lia.
           replace (Z.to_nat _) with 0%nat by lia. done.
      * intros k Hk. apply bool_decide_eq_false. lia.
      * apply bool_decide_eq_true. lia.
    + rewrite <- (app_nil_r bitstr).
      rewrite (decode_walk_through _ root cb data bitstr Hinner Hcodes Hjoin).
      * simpl. f_equal. unfold slice_to, len in *. rewrite decide_True by lia.
        done.
      * intros k Hk. apply bool_decide_eq_false. unfold len in *. simpl. lia.
Qed.

Lemma huffman_decode_other_length_witness :
  archiver_huffman.huffman_decode [xa0]
    [x05; x00; x02; x00; x61; x02; x00; x00; x00; x62; x01; x00; x00; x00] 0
    = Ok [x61; x62; x61] /\
  universal_decoder.huffman_decode_bytes [xa0]
    [x05; x00; x02; x00; x61; x02; x00; x00; x00; x62; x01; x00; x00; x00] 0
    = Ok [].
Proof.
  exact (huffman_decode_other_length [x61; x62; x61] [xa0]
           [x05; x00; x02; x00; x61; x02; x00; x00; x00; x62; x01; x00; x00; x00] 0
           codable_aba eq_refl).
Defined.

(** A service blob that declares no symbol: [huffman_decode_bytes] returns
    the empty byte string, [huffman_decode] raises [IndexError] (its
    [build_huffman_tree] indexes the empty heap). *)
Theorem empty_table_decoders (encoded service : bytes) (orig_size : Z) :
  4 <= len service -> le_int (take 2 (drop 2 service)) = 0 ->
  archiver_huffman.huffman_decode encoded service orig_size = Err IndexError /\
  universal_decoder.huffman_decode_bytes encoded service orig_size = Ok [].
Proof.
  intros Hlen Hzero. unfold len in Hlen.
  unfold archiver_huffman.huffman_decode, universal_decoder.huffman_decode_bytes.
  rewrite decide_False by (unfold len; lia).
  rewrite (unpack_from_uint_ok 2 service 0), (unpack_from_uint_ok 2 service 2) by lia.
  cbn [mbind result_bind]. by rewrite Hzero.
Qed.

Lemma empty_table_decoders_witness :
  archiver_huffman.huffman_decode [] [x00; x00; x00; x00] 0 = Err IndexError /\
  universal_decoder.huffman_decode_bytes [] [x00; x00; x00; x00] 0 = Ok [].
Proof.
  exact (empty_table_decoders [] [x00; x00; x00; x00] 0 ltac:(by vm_compute) eq_refl).
Defined.

(** ** Entries that are not files *)

(** The calls of a step for an entry whose kind is not 1:
    [extract_archive] and [decode_v3] call [mkdir] for the directory of its
    path, skip its stored bytes and stop there; [decode_v2] does not look at
    the kind and goes on to write the entry as a file. *)
Lemma non_file_entry_calls (X : Externals) (h : header) (outdir : Path)
    (e : entry_meta) (rest stored rest' : bytes) :
  read_stored e rest = ([], Ok (stored, rest')) ->
  entry_type e <> 1 ->
  let target := joinpath outdir (Path_of (relpath e)) in
  extract_entry X h outdir e rest = ([EMkdir (parent target)], Ok (tt, rest')) /\
  decode_v3_entry X h outdir e rest = ([EMkdir (parent target)], Ok (tt, rest')) /\
  (alg_noctx h = 0 ->
   decode_v2_entry X h outdir e rest =
     ([EMkdir (parent target); EWrite target stored;
       EPrint (MsgRestored V2 (relpath e))], Ok (tt, rest'))).
Proof.
  intros Hread Htype target.
  unfold extract_entry, decode_v3_entry, decode_v2_entry. io_unfold. rewrite Hread.
  unfold archiver_huffman.ENTRY_FILE. rewrite !decide_False by done.
  split_and!; [done..|]. intros ->. by rewrite !decide_False by done.
Qed.

(** ** The forced modes of the selector *)

(** A forced algorithm that is neither 0 nor 3 makes
    [intelligent_encode_file] return [None], and
    [create_intelligent_archive] raises [TypeError] when it unpacks that
    result for its first file. *)
Theorem forced_unknown_algorithm (X : Externals) (alg : Z) (enable_crc : bool)
    (input : string * bytes) (inputs : list (string * bytes)) :
  alg <> 0 -> alg <> 3 ->
  intelligent_encode_file X input.2 (Some alg) enable_crc = Ok None /\
  create_intelligent_archive X (input :: inputs) (Some alg) enable_crc = Err TypeError.
Proof.
  intros H0 H3.
  assert (Hfile : forall data,
            intelligent_encode_file X data (Some alg) enable_crc = Ok None).
  { intros data. unfold intelligent_encode_file. by rewrite !decide_False. }
  split; [apply Hfile|].
  unfold create_intelligent_archive. destruct input as [name data].
  cbn [intelligent_entries]. by rewrite Hfile.
Qed.

Lemma forced_unknown_algorithm_witness :
  intelligent_encode_file py [x61] (Some 2) false = Ok None /\
  create_intelligent_archive py [("x.bin"%string, [x61])] (Some 2) false = Err TypeError.
Proof.
  exact (forced_unknown_algorithm py 2 false ("x.bin"%string, [x61]) []
           ltac:(done) ltac:(done)).
Defined.

(** ** Truncated headers *)

Lemma read_header_truncated (archive : bytes) :
  take 6 archive = L3ARCH -> (length archive < 26)%nat ->
  exists err, read_header archive = ([], Err err) /\
              (err = StructError \/ err = IndexError).
Proof.
  intros Hsig Hlen. unfold read_header.
  unfold mbind at 1, io_bind at 1, f_read at 1. rewrite decide_False by done.
  rewrite take_take. change (6 `min` Z.to_nat 8)%nat with 6%nat.
  rewrite Hsig, decide_True by done. clear Hsig.
  do 8 (destruct archive as [|? archive]; [by eexists; split; [|by left]|]).
  simpl drop.
  do 18 (destruct archive as [|? archive];
         [by eexists; split; [reflexivity|auto]|]).
  simpl in Hlen. lia.
Qed.

(** An archive that has the signature but is shorter than the 26 bytes of
    the fixed header makes every table-driven decoder raise ([struct.error]
    or [IndexError]) before anything is created or written. *)
Theorem truncated_header_refused (X : Externals) (archive : bytes) (outdir : Path) :
  take 6 archive = L3ARCH -> (length archive < 26)%nat ->
  Forall (fun decoder : Externals -> Path -> io unit =>
            exists err, run (decoder X outdir) archive = ([], Some err) /\
                        (err = StructError \/ err = IndexError))
    [decode_v1; decode_v2; decode_v3; extract_archive].
Proof.
  intros Hsig Hlen.
  destruct (read_header_truncated archive Hsig Hlen) as (err & Hhead & Herr).
  repeat apply Forall_cons_2; [..|by apply Forall_nil]; exists err; (split; [|done]);
    unfold run, decode_v1, decode_v2, decode_v3, extract_archive, mbind, io_bind;
    by rewrite Hhead.
Qed.

Lemma truncated_header_refused_witness :
  Forall (fun decoder : Externals -> Path -> io unit =>
            exists err, run (decoder py out_dir) (take 12 huffman_archive) = ([], Some err) /\
                        (err = StructError \/ err = IndexError))
    [decode_v1; decode_v2; decode_v3; extract_archive].
Proof.
  exact (truncated_header_refused py (take 12 huffman_archive) out_dir
           ltac:(by vm_compute) ltac:(vm_compute; lia)).
Defined.

(** ** [heapq]: the heap invariant *)

Lemma byte_to_Z_range (b : byte) : 0 <= byte_to_Z b < 256.
Proof. unfold byte_to_Z. pose proof (Byte.to_N_bounded b). lia. Qed.

Lemma symbol_or_0_range (n : Node) : 0 <= symbol_or_0 n < 256.
Proof.
  unfold symbol_or_0. destruct (symbol n); [apply byte_to_Z_range|lia].
Qed.

Lemma Node_lt_key (a b : Node) : Node_lt a b = bool_decide (node_key a < node_key b).
Proof.
  unfold Node_lt, node_key.
  pose proof (symbol_or_0_range a). pose proof (symbol_or_0_range b).
  case_decide as Hf.
  - rewrite Hf. apply bool_decide_ext. lia.
  - apply bool_decide_ext. lia.
Qed.

Lemma parentpos_spec (i : nat) : Nat.shiftr (i - 1) 1 = ((i - 1) / 2)%nat.
Proof. rewrite Nat.shiftr_div_pow2. done. Qed.

Lemma parentpos_left (q : nat) : Nat.shiftr (2 * q + 1 - 1) 1 = q.
Proof.
  rewrite parentpos_spec. replace (2 * q + 1 - 1)%nat with (q * 2)%nat by lia.
  by rewrite Nat.div_mul.
Qed.

Lemma parentpos_right (q : nat) : Nat.shiftr (2 * q + 2 - 1) 1 = q.
Proof.
  rewrite parentpos_spec. replace (2 * q + 2 - 1)%nat with (1 + q * 2)%nat by lia.
  by rewrite Nat.div_add.
Qed.

Lemma parentpos_child (i : nat) :
  (0 < i)%nat ->
  i = (2 * Nat.shiftr (i - 1) 1 + 1)%nat \/ i = (2 * Nat.shiftr (i - 1) 1 + 2)%nat.
Proof.
  intros Hi. rewrite parentpos_spec.
  pose proof (Nat.div_mod_eq (i - 1) 2) as Hdm.
  pose proof (Nat.mod_upper_bound (i - 1) 2 ltac:(lia)). lia.
Qed.

Lemma below_le (s q : nat) : below s q -> (s <= q)%nat.
Proof. induction 1; lia. Qed.

Lemma below_parent (s q : nat) :
  below s q -> q <> s -> below s (Nat.shiftr (q - 1) 1).
Proof.
  destruct 1 as [|q Hq|q Hq]; intros Hne; [done|..].
  - by rewrite parentpos_left.
  - by rewrite parentpos_right.
Qed.

Lemma below_0 (q : nat) : below 0 q.
Proof.
  induction q as [q IH] using lt_wf_ind. destruct (decide (q = 0%nat)) as [->|Hq].
  - constructor.
  - destruct (parentpos_child q ltac:(lia)) as [Hc|Hc]; rewrite Hc; constructor;
      apply IH, parentpos_lt; lia.
Qed.

Section heap_order.
Context {A : Type} (key : A -> Z) (lt : A -> A -> bool).
Context (Hlt : forall x y, lt x y = bool_decide (key x < key y)).

(** Putting [x] in a hole at [q]: enough that [x] is not above the
    children of [q] nor below its parent. *)
Lemma heap_from_place (h : list A) (s q : nat) (x : A) :
  (exists v, heap_from key s (<[q := v]> h)) ->
  (forall c x', (0 < c)%nat -> Nat.shiftr (c - 1) 1 = q -> h !! c = Some x' ->
     key x <= key x') ->
  (q <= s)%nat \/ (exists p, h !! Nat.shiftr (q - 1) 1 = Some p /\ key p <= key x) ->
  heap_from key s (<[q := x]> h).
Proof.
  intros [v Hv] Hchildren Hparent i y p Hi Hs Hy Hp.
  pose proof (parentpos_lt i Hi) as Hlt_i.
  destruct (decide (i = q)) as [->|Hiq].
  - rewrite list_lookup_insert_ne in Hp by lia.
    apply list_lookup_insert_Some in Hy as [(_ & <- & _)|[? _]]; [|done].
    destruct Hparent as [Hqs|(p' & Hp' & Hle)]; [lia|]. congruence.
  - rewrite list_lookup_insert_ne in Hy by done.
    destruct (decide (Nat.shiftr (i - 1) 1 = q)) as [Hpq|Hpq].
    + rewrite Hpq in Hp.
      apply list_lookup_insert_Some in Hp as [(_ & <- & _)|[? _]]; [|done].
      by eapply Hchildren.
    + rewrite list_lookup_insert_ne in Hp by done.
      apply (Hv i y p Hi Hs); by rewrite list_lookup_insert_ne.
Qed.

Lemma siftdown_loop_heap (fuel : nat) (h : list A) (s q : nat) (x : A) :
  below s q -> (q < length h)%nat -> (q <= fuel)%nat ->
  (exists v, heap_from key s (<[q := v]> h)) ->
  (forall c x', (0 < c)%nat -> Nat.shiftr (c - 1) 1 = q -> h !! c = Some x' ->
     key x <= key x') ->
  heap_from key s (siftdown_loop lt fuel h s q x).
Proof.
  revert h q. induction fuel as [|fuel IH]; intros h q Hbelow Hq Hfuel Hhole Hchildren.
  { cbn [siftdown_loop]. apply heap_from_place; [done..|]. left.
    apply below_le in Hbelow. lia. }
  cbn [siftdown_loop]. cbv zeta.
  pose proof (below_le _ _ Hbelow) as Hsq.
  case_decide as Hs.
  2:{ apply heap_from_place; [done..|]. left. lia. }
  pose proof (parentpos_lt q ltac:(lia)) as Hpp.
  destruct (lookup_lt_is_Some_2 h (Nat.shiftr (q - 1) 1)) as [p Hp]; [lia|].
  rewrite Hp. rewrite Hlt.
  assert (Hbp : below s (Nat.shiftr (q - 1) 1)) by (apply below_parent; [done|lia]).
  pose proof (below_le _ _ Hbp) as Hsp.
  destruct Hhole as [v Hv].
  assert (Hpv : key p <= key v).
  { apply (Hv q v p); [lia|done|..].
    - by rewrite list_lookup_insert_eq by done.
    - by rewrite list_lookup_insert_ne by lia. }
  assert (Hvc : forall c x', (0 < c)%nat -> Nat.shiftr (c - 1) 1 = q ->
            h !! c = Some x' -> key v <= key x').
  { intros c x' Hc Hcq Hx'. pose proof (parentpos_lt c Hc).
    apply (Hv c x' v); [done|lia|..].
    - by rewrite list_lookup_insert_ne by lia.
    - rewrite Hcq. by rewrite list_lookup_insert_eq by done. }
  case_bool_decide as Hxp.
  - assert (Hmoved : heap_from key s (<[q := p]> h)).
    { apply heap_from_place; [by exists v| |right; by exists p].
      intros c x' Hc Hcq Hx'. specialize (Hvc c x' Hc Hcq Hx'). lia. }
    apply IH; [done|rewrite length_insert; lia|lia| |].
    + exists p. rewrite list_insert_id; [done|].
      by rewrite list_lookup_insert_ne by lia.
    + intros c x' Hc Hcp Hx'.
      destruct (decide (c = q)) as [->|Hcq].
      * rewrite list_lookup_insert_eq in Hx' by done. simplify_eq. lia.
      * rewrite list_lookup_insert_ne in Hx' by done.
        pose proof (parentpos_lt c Hc).
        assert (key p <= key x'); [|lia].
        apply (Hv c x' p); [done|lia|..].
        -- by rewrite list_lookup_insert_ne.
        -- rewrite Hcp. by rewrite list_lookup_insert_ne by lia.
  - apply heap_from_place; [by exists v|done|]. right. exists p. split; [done|lia].
Qed.

Lemma children_of (q c : nat) :
  (0 < c)%nat -> Nat.shiftr (c - 1) 1 = q -> c = (2 * q + 1)%nat \/ c = (2 * q + 2)%nat.
Proof. intros Hc <-. by apply parentpos_child. Qed.

Lemma siftup_loop_heap (fuel : nat) (h : list A) (s q : nat) :
  below s q -> (q < length h)%nat -> (length h - q <= fuel)%nat ->
  (exists v, heap_from key s (<[q := v]> h)) ->
  let '(h', q') := siftup_loop lt fuel h (length h) q (2 * q + 1) in
  below s q' /\ (q' < length h')%nat /\ length h' = length h /\
  (exists v, heap_from key s (<[q' := v]> h')) /\
  (length h' <= 2 * q' + 1)%nat.
Proof.
  revert h q. induction fuel as [|fuel IH]; intros h q Hbelow Hq Hfuel Hhole; [lia|].
  cbn [siftup_loop]. cbv zeta.
  case_decide as Hchild; [|split_and!; [done..|lia]].
  destruct (lookup_lt_is_Some_2 h (2 * q + 1)) as [c Hc]; [done|]. rewrite Hc.
  set (cq := match h !! (2 * q + 1 + 1)%nat with
             | Some r => if bool_decide (2 * q + 1 + 1 < length h)%nat && negb (lt c r)
                         then (2 * q + 1 + 1)%nat else (2 * q + 1)%nat
             | None => (2 * q + 1)%nat
             end).
  assert (Hcq : exists c', h !! cq = Some c' /\
            (cq = (2 * q + 1)%nat \/ cq = (2 * q + 2)%nat) /\
            forall i x', (i = (2 * q + 1)%nat \/ i = (2 * q + 2)%nat) ->
              h !! i = Some x' -> key c' <= key x').
  { subst cq. replace (2 * q + 1 + 1)%nat with (2 * q + 2)%nat by lia.
    destruct (h !! (2 * q + 2)%nat) as [r|] eqn:Hr.
    - rewrite Hlt. apply lookup_lt_Some in Hr as Hrlen.
      rewrite bool_decide_eq_true_2 by done. cbn [andb].
      case_bool_decide as Hcr; cbn [negb].
      + exists c. split_and!; [done|by left|]. intros i x' [-> | ->] Hx'; rewrite ?Hc, ?Hr in Hx'; simplify_eq; lia.
      + exists r. split_and!; [done|by right|]. intros i x' [-> | ->] Hx'; rewrite ?Hc, ?Hr in Hx'; simplify_eq; lia.
    - exists c. split_and!; [done|by left|]. intros i x' [-> | ->] Hx'; rewrite ?Hc, ?Hr in Hx'; simplify_eq; lia. }
  destruct Hcq as (c' & Hc' & Hcqpos & Hmin). rewrite Hc'.
  assert (Hmoved : heap_from key s (<[q := c']> h)).
  { apply heap_from_place; [done| |].
    - intros i x' Hi Hiq Hx'. apply (Hmin i x'); [by apply children_of|done].
    - pose proof (below_le _ _ Hbelow). destruct (decide (q = s)) as [->|Hqs]; [left; lia|].
      right. pose proof (parentpos_lt q ltac:(lia)) as Hpp.
      destruct (lookup_lt_is_Some_2 h (Nat.shiftr (q - 1) 1)) as [p Hp]; [lia|].
      exists p. split; [done|]. destruct Hhole as [v Hv].
      pose proof (below_le _ _ (below_parent _ _ Hbelow Hqs)).
      assert (key p <= key v).
      { apply (Hv q v p); [lia|done|..].
        - by rewrite list_lookup_insert_eq by done.
        - by rewrite list_lookup_insert_ne by lia. }
      assert (key v <= key c'); [|lia].
      assert (Nat.shiftr (cq - 1) 1 = q) as Hpcq.
      { destruct Hcqpos as [-> | ->]; [apply parentpos_left|apply parentpos_right]. }
      apply (Hv cq c' v); [lia|rewrite Hpcq; lia|..].
      + by rewrite list_lookup_insert_ne by lia.
      + rewrite Hpcq. by rewrite list_lookup_insert_eq by done. }
  specialize (IH (<[q := c']> h) cq).
  rewrite length_insert in IH.
  assert (Hcqlen : (cq < length h)%nat) by by eapply lookup_lt_Some.
  destruct (siftup_loop lt fuel (<[q := c']> h) (length h) cq (2 * cq + 1)) as [h' q'].
  apply IH; [|done|lia|].
  - destruct Hcqpos as [-> | ->]; by constructor.
  - exists c'. rewrite list_insert_id; [done|].
    by rewrite list_lookup_insert_ne by lia.
Qed.

Lemma heap_from_hole (h : list A) (s : nat) :
  heap_from key (S s) h -> (s < length h)%nat ->
  exists v, heap_from key s (<[s := v]> h).
Proof.
  intros Hh Hs.
  assert (Hplace : forall v,
            (forall c x', (0 < c)%nat -> Nat.shiftr (c - 1) 1 = s -> h !! c = Some x' ->
               key v <= key x') -> heap_from key s (<[s := v]> h)).
  { intros v Hv i x p Hi Hsi Hx Hp. pose proof (parentpos_lt i Hi).
    rewrite list_lookup_insert_ne in Hx by lia.
    destruct (decide (Nat.shiftr (i - 1) 1 = s)) as [His|His].
    - rewrite His in Hp. apply list_lookup_insert_Some in Hp as [(_ & <- & _)|[? _]]; [|done].
      by eapply Hv.
    - rewrite list_lookup_insert_ne in Hp by done. apply (Hh i x p); [done|lia|done..]. }
  destruct (h !! (2 * s + 1)%nat) as [c|] eqn:Hc.
  - destruct (h !! (2 * s + 2)%nat) as [r|] eqn:Hr.
    + destruct (decide (key c <= key r)).
      * exists c. apply Hplace. intros i x' Hi His Hx'.
        destruct (children_of s i Hi His) as [-> | ->]; rewrite ?Hc, ?Hr in Hx'; simplify_eq; lia.
      * exists r. apply Hplace. intros i x' Hi His Hx'.
        destruct (children_of s i Hi His) as [-> | ->]; rewrite ?Hc, ?Hr in Hx'; simplify_eq; lia.
    + exists c. apply Hplace. intros i x' Hi His Hx'.
      destruct (children_of s i Hi His) as [-> | ->]; rewrite ?Hc, ?Hr in Hx'; simplify_eq; lia.
  - destruct (lookup_lt_is_Some_2 h s Hs) as [v Hv].
    exists v. apply Hplace. intros i x' Hi His Hx'.
    apply lookup_ge_None in Hc. apply lookup_lt_Some in Hx'.
    destruct (children_of s i Hi His); lia.
Qed.

Lemma siftup_heap (h : list A) (s : nat) :
  heap_from key (S s) h -> heap_from key s (_siftup lt h s).
Proof.
  intros Hh. unfold _siftup.
  destruct (h !! s) as [newitem|] eqn:Hs.
  2:{ apply lookup_ge_None in Hs. intros i x p Hi Hsi Hx Hp.
      destruct (decide (Nat.shiftr (i - 1) 1 = s)) as [His|His].
      - rewrite His in Hp. apply lookup_lt_Some in Hp. lia.
      - apply (Hh i x p); [done|lia|done..]. }
  apply lookup_lt_Some in Hs as Hlen.
  pose proof (siftup_loop_heap (length h) h s s (below_root s) Hlen ltac:(lia)
                (heap_from_hole h s Hh Hlen)) as Hloop.
  destruct (siftup_loop lt (length h) h (length h) s (2 * s + 1)) as [h' q'].
  destruct Hloop as (Hbelow & Hq' & Hlen' & [v Hv] & Hleaf).
  unfold _siftdown. rewrite list_lookup_insert_eq by done.
  apply siftdown_loop_heap; [done|by rewrite length_insert|done| |].
  - exists v. by rewrite list_insert_insert_eq.
  - intros c x' Hc Hcq Hx'. apply lookup_lt_Some in Hx'.
    rewrite length_insert in Hx'. destruct (children_of q' c Hc Hcq); lia.
Qed.

Lemma length_siftup (h : list A) (s : nat) : length (_siftup lt h s) = length h.
Proof. apply Permutation_length, siftup_Permutation. Qed.

Lemma heapify_heap (x : list A) : heap_from key 0 (heapify lt x).
Proof.
  unfold heapify.
  assert (Hstart : heap_from key (length x / 2) x).
  { intros i y p Hi Hs Hy Hp. apply lookup_lt_Some in Hy.
    rewrite parentpos_spec in Hs.
    pose proof (Nat.div_mod_eq (length x) 2) as H1.
    pose proof (Nat.mod_upper_bound (length x) 2 ltac:(lia)).
    pose proof (Nat.div_mod_eq (i - 1) 2) as H2.
    pose proof (Nat.mod_upper_bound (i - 1) 2 ltac:(lia)). lia. }
  revert Hstart. generalize (length x / 2)%nat. intros m. revert x.
  induction m as [|m IH]; intros x Hx; [done|].
  rewrite seq_S, rev_app_distr. simpl. apply IH. by apply siftup_heap.
Qed.

Lemma heappush_heap (h : list A) (item : A) :
  heap_from key 0 h -> heap_from key 0 (heappush lt h item).
Proof.
  intros Hh. unfold heappush, _siftdown.
  rewrite lookup_app_r, Nat.sub_diag by done. simpl.
  apply siftdown_loop_heap; [apply below_0|rewrite length_app; simpl; lia|done| |].
  - destruct (decide (length h = 0%nat)) as [H0|H0].
    { destruct h; [|done]. exists item. intros i x p Hi _ Hx _.
      apply lookup_lt_Some in Hx. simpl in Hx. lia. }
    pose proof (parentpos_lt (length h) ltac:(lia)) as Hpp.
    destruct (lookup_lt_is_Some_2 h _ Hpp) as [p Hp].
    exists p. rewrite insert_app_r_alt, Nat.sub_diag by done. simpl.
    intros i x p' Hi _ Hx Hp'. pose proof (parentpos_lt i Hi).
    apply lookup_lt_Some in Hx as Hilen. rewrite length_app in Hilen. simpl in Hilen.
    rewrite lookup_app_l in Hp' by lia.
    destruct (decide (i = length h)) as [->|Hne].
    + rewrite lookup_app_r, Nat.sub_diag in Hx by done. simpl in Hx. simplify_eq. lia.
    + rewrite lookup_app_l in Hx by lia. apply (Hh i x p'); [done|lia|done|done].
  - intros c x' Hc Hcq Hx'. apply lookup_lt_Some in Hx'.
    rewrite length_app in Hx'. simpl in Hx'.
    pose proof (parentpos_lt c Hc). lia.
Qed.

(** The root of a heap is a least item. *)
Lemma heap_root_least (h : list A) (r : A) :
  heap_from key 0 h -> h !! 0%nat = Some r -> Forall (fun y => key r <= key y) h.
Proof.
  intros Hh Hr. apply Forall_lookup. intros i.
  induction i as [i IH] using lt_wf_ind. intros y Hy.
  destruct (decide (i = 0%nat)) as [->|Hi]; [simplify_eq; lia|].
  pose proof (parentpos_lt i ltac:(lia)) as Hpp.
  apply lookup_lt_Some in Hy as Hlen.
  destruct (lookup_lt_is_Some_2 h (Nat.shiftr (i - 1) 1)) as [p Hp]; [lia|].
  pose proof (IH _ Hpp p Hp).
  pose proof (Hh i y p ltac:(lia) ltac:(lia) Hy Hp). lia.
Qed.

(** [heappop] takes a least item out of a heap and leaves a heap. *)
Lemma heappop_heap (h h' : list A) (x : A) :
  heap_from key 0 h -> heappop lt h = Ok (x, h') ->
  heap_from key 0 h' /\ Forall (fun y => key x <= key y) h.
Proof.
  intros Hh Hpop. unfold heappop in Hpop.
  destruct (decide (h = [])) as [->|Hne]; [done|].
  destruct (exists_last Hne) as (front & lastelt & ->).
  rewrite last_snoc, removelast_last in Hpop.
  destruct front as [|r front].
  - simplify_eq. split; [|by repeat constructor].
    intros i y p Hi _ Hy _. by destruct i.
  - simplify_eq. split; [|by apply heap_root_least].
    apply siftup_heap. simpl.
    intros i y p Hi Hs Hy Hp. pose proof (parentpos_lt i Hi).
    destruct i as [|i]; [lia|]. simpl in Hy.
    destruct (Nat.shiftr (S i - 1) 1) as [|pi] eqn:Hpi; [lia|]. simpl in Hp.
    apply lookup_lt_Some in Hy as Hlen.
    apply (Hh (S i) y p); [lia|lia|..].
    + simpl. by rewrite lookup_app_l.
    + rewrite Hpi. simpl. rewrite lookup_app_l; [done|]. lia.
Qed.

End heap_order.

(** ** Kraft's inequality and the optimality of Huffman's procedure *)

Lemma weighted_length_Permutation (L L' : list (Z * nat)) :
  L ≡ₚ L' -> weighted_length L = weighted_length L'.
Proof. induction 1; simpl; lia. Qed.

Lemma weighted_length_nonneg (L : list (Z * nat)) :
  Forall (Z.le 0) (map fst L) -> 0 <= weighted_length L.
Proof.
  induction L as [|[w l] L IH]; simpl; [lia|].
  intros H. apply Forall_cons in H as [Hw H]. specialize (IH H). nia.
Qed.

Lemma kraft_sum_Permutation (M : nat) (ls ls' : list nat) :
  ls ≡ₚ ls' -> kraft_sum M ls = kraft_sum M ls'.
Proof. induction 1; simpl; lia. Qed.

Lemma kraft_sum_length (M : nat) (ls : list nat) : len ls <= kraft_sum M ls.
Proof.
  unfold len. induction ls as [|l ls IH]; simpl; [lia|].
  pose proof (Z.pow_pos_nonneg 2 (Z.of_nat (M - l))). lia.
Qed.

Lemma kraft_sum_scale (k M : nat) (ls : list nat) :
  Forall (fun l => (l <= M)%nat) ls ->
  kraft_sum (k + M) ls = 2 ^ Z.of_nat k * kraft_sum M ls.
Proof.
  induction 1 as [|l ls Hl _ IH]; simpl; [lia|].
  rewrite IH. replace (Z.of_nat (k + M - l)) with (Z.of_nat k + Z.of_nat (M - l)) by lia.
  rewrite Z.pow_add_r by lia. lia.
Qed.

(** The inequality does not depend on the exponent it is scaled with. *)
Lemma kraft_at (M : nat) (ls : list nat) :
  kraft ls -> Forall (fun l => (l <= M)%nat) ls -> kraft_sum M ls <= 2 ^ Z.of_nat M.
Proof.
  intros (M0 & Hle0 & Hsum) Hle.
  destruct (decide (M0 <= M)%nat) as [H|H].
  - replace M with ((M - M0) + M0)%nat by lia.
    rewrite kraft_sum_scale by done.
    rewrite Nat2Z.inj_add, Z.pow_add_r by lia.
    pose proof (Z.pow_pos_nonneg 2 (Z.of_nat (M - M0))). nia.
  - replace M0 with ((M0 - M) + M)%nat in Hsum by lia.
    rewrite kraft_sum_scale in Hsum by done.
    rewrite Nat2Z.inj_add, Z.pow_add_r in Hsum by lia.
    pose proof (Z.pow_pos_nonneg 2 (Z.of_nat (M0 - M))). nia.
Qed.

Lemma kraft_Permutation (ls ls' : list nat) : ls ≡ₚ ls' -> kraft ls -> kraft ls'.
Proof.
  intros Hp (M & Hle & Hsum). exists M. split; [by rewrite <- Hp|].
  by rewrite <- (kraft_sum_Permutation M ls ls' Hp).
Qed.

Lemma kraft_sum_even (m : nat) (ls : list nat) :
  Forall (fun l => (l < m)%nat) ls -> exists k, kraft_sum m ls = 2 * k.
Proof.
  induction 1 as [|l ls Hl _ [k IH]]; simpl; [by exists 0|].
  exists (2 ^ Z.of_nat (m - l - 1) + k). rewrite IH.
  replace (Z.of_nat (m - l)) with (1 + Z.of_nat (m - l - 1)) by lia.
  rewrite Z.pow_add_r by lia. lia.
Qed.

(** The weight [x] is that of some pair of the assignment. *)
Lemma split_weight (L : list (Z * nat)) (x : Z) (W : list Z) :
  map fst L ≡ₚ x :: W ->
  exists l L1, L ≡ₚ (x, l) :: L1 /\ map fst L1 ≡ₚ W.
Proof.
  intros Hp.
  assert (Hx : x ∈ map fst L) by (rewrite Hp; left).
  apply list_elem_of_In, in_map_iff in Hx as ([x' l] & Hx & Hin). simpl in Hx. subst x'.
  apply list_elem_of_In, elem_of_Permutation in Hin as [L1 HL]. exists l, L1. split; [done|].
  apply (Permutation_map fst) in HL. simpl in HL. rewrite HL in Hp.
  by apply Permutation_cons_inv in Hp.
Qed.

Lemma map_snd_elem (L : list (Z * nat)) (m : nat) :
  m ∈ map snd L -> exists w L1, L ≡ₚ (w, m) :: L1.
Proof.
  intros ([w m'] & Hm & Hin)%list_elem_of_In%in_map_iff. simpl in Hm. subst m'.
  apply list_elem_of_In, elem_of_Permutation in Hin as [L1 HL]. by exists w, L1.
Qed.

(** Among the assignments that are no dearer there is one whose greatest
    length is that of two pairs: a single longest code word can be cut by
    one bit. *)
Lemma two_longest (n : nat) : forall L : list (Z * nat),
  sum_list (map snd L) = n -> (2 <= length L)%nat ->
  Forall (Z.le 0) (map fst L) -> kraft (map snd L) ->
  exists L' m rest,
    map fst L' ≡ₚ map fst L /\ weighted_length L' <= weighted_length L /\
    kraft (map snd L') /\ (1 <= m)%nat /\
    Forall (fun l => (l <= m)%nat) (map snd L') /\ map snd L' ≡ₚ m :: m :: rest.
Proof.
  induction n as [n IH] using lt_wf_ind. intros L Hn Hlen Hpos Hk.
  set (m := max_list (map snd L)).
  assert (Hmax : Forall (fun l => (l <= m)%nat) (map snd L)).
  { apply Forall_forall. intros l Hl. by apply max_list_elem_of_le. }
  assert (Hm : m ∈ map snd L).
  { apply max_list_elem_of. destruct L; [simpl in Hlen; lia|done]. }
  pose proof (kraft_at m _ Hk Hmax) as Hsum.
  assert (Hm1 : (1 <= m)%nat).
  { destruct (decide (m = 0)%nat) as [H0|]; [|lia]. rewrite H0 in Hsum.
    pose proof (kraft_sum_length 0 (map snd L)) as H. unfold len in H.
    rewrite length_map in H. simpl in Hsum. lia. }
  destruct (map_snd_elem L m Hm) as (w & L1 & HL).
  destruct (decide (m ∈ map snd L1)) as [Hin|Hnin].
  - apply elem_of_Permutation in Hin as [rest Hrest].
    exists L, m, rest. split_and!; try done.
    rewrite (Permutation_map snd HL). simpl. by rewrite Hrest.
  - pose proof (Permutation_map snd HL) as HLs. simpl in HLs.
    pose proof (Permutation_map fst HL) as HLw. simpl in HLw.
    rewrite HLs in Hmax. apply Forall_cons in Hmax as [_ Hmax].
    assert (Hlt : Forall (fun l => (l < m)%nat) (map snd L1)).
    { rewrite Forall_forall in Hmax |- *. intros l Hl.
      specialize (Hmax l Hl). assert (l <> m) by (by intros ->). lia. }
    destruct (kraft_sum_even m _ Hlt) as [k Hk1].
    rewrite (kraft_sum_Permutation m _ _ HLs) in Hsum. simpl in Hsum.
    rewrite Nat.sub_diag, Hk1 in Hsum.
    assert (Hpow : 2 ^ Z.of_nat m = 2 * 2 ^ Z.of_nat (m - 1)).
    { replace (Z.of_nat m) with (1 + Z.of_nat (m - 1)) at 1 by lia.
      rewrite Z.pow_add_r by lia. lia. }
    assert (Hw : 0 <= w).
    { rewrite HLw in Hpos. by apply Forall_cons in Hpos as [? _]. }
    destruct (IH (sum_list (map snd ((w, (m - 1)%nat) :: L1))))
      with (L := (w, (m - 1)%nat) :: L1) as (L' & m' & rest & H1 & H2 & H3 & H4 & H5 & H6).
    + rewrite <- Hn. rewrite (Permutation_map snd HL). simpl. lia.
    + done.
    + apply Permutation_length in HL. simpl in *. lia.
    + simpl. rewrite HLw in Hpos. done.
    + exists m. split.
      * simpl. apply Forall_cons. split; [lia|done].
      * simpl. replace (m - (m - 1))%nat with 1%nat by lia. rewrite Hk1.
        change (2 ^ Z.of_nat 1) with 2. lia.
    + exists L', m', rest. split_and!; try done.
      * rewrite H1. simpl. by rewrite HLw.
      * etrans; [exact H2|]. rewrite (weighted_length_Permutation _ _ HL). simpl. nia.
Qed.

(** A least weight can take the greatest length, in exchange with a pair
    that has it. *)
Lemma longest_to_least (a : Z) (la m : nat) (L : list (Z * nat)) :
  Forall (Z.le a) (map fst L) -> (la <= m)%nat -> m ∈ la :: map snd L ->
  exists L',
    map fst L' ≡ₚ map fst L /\ m :: map snd L' ≡ₚ la :: map snd L /\
    weighted_length ((a, m) :: L') <= weighted_length ((a, la) :: L).
Proof.
  intros Ha Hla Hm.
  destruct (decide (la = m)) as [->|Hne]; [by exists L|].
  apply elem_of_cons in Hm as [->|Hm]; [done|].
  destruct (map_snd_elem L m Hm) as (w & L1 & HL).
  exists ((w, la) :: L1).
  rewrite (Permutation_map fst HL), (Permutation_map snd HL),
    (weighted_length_Permutation _ _ (perm_skip (a, la) HL)) .
  rewrite (Permutation_map fst HL) in Ha. simpl in *.
  apply Forall_cons in Ha as [Ha _]. split_and!; [done|apply perm_swap|nia].
Qed.

(** Any lengths that satisfy Kraft's inequality can be rearranged, at no
    cost, so that two least weights have the greatest length. *)
Lemma least_two_longest (a b : Z) (R : list Z) (L : list (Z * nat)) :
  0 <= a -> a <= b -> Forall (Z.le b) R ->
  map fst L ≡ₚ a :: b :: R -> kraft (map snd L) ->
  exists m LR,
    (1 <= m)%nat /\ map fst LR ≡ₚ R /\ kraft (m :: m :: map snd LR) /\
    Forall (fun l => (l <= m)%nat) (map snd LR) /\
    weighted_length ((a, m) :: (b, m) :: LR) <= weighted_length L.
Proof.
  intros Ha Hab HR HW Hk.
  assert (HposR : Forall (Z.le 0) R) by (eapply Forall_impl; [exact HR|simpl; lia]).
  destruct (two_longest _ L eq_refl) as (L' & m & rest & H1 & H2 & H3 & H4 & H5 & H6).
  { apply Permutation_length in HW. rewrite length_map in HW. simpl in HW. lia. }
  { rewrite HW. repeat (apply Forall_cons; split; [lia|]). done. }
  { done. }
  rewrite HW in H1.
  destruct (split_weight L' a _ H1) as (la & L1 & HL1 & HW1).
  pose proof (Permutation_map snd HL1) as Hs1. simpl in Hs1.
  destruct (longest_to_least a la m L1) as (L1' & Hw1' & Hs1' & Hc1).
  { rewrite HW1. apply Forall_cons. split; [done|].
    eapply Forall_impl; [exact HR|simpl; lia]. }
  { rewrite Hs1 in H5. by apply Forall_cons in H5 as [? _]. }
  { rewrite <- Hs1, H6. left. }
  rewrite HW1 in Hw1'.
  destruct (split_weight L1' b _ Hw1') as (lb & L2 & HL2 & HW2).
  pose proof (Permutation_map snd HL2) as Hs2. simpl in Hs2.
  assert (Hlens : m :: lb :: map snd L2 ≡ₚ m :: m :: rest).
  { by rewrite <- Hs2, Hs1', <- Hs1, H6. }
  apply Permutation_cons_inv in Hlens.
  assert (Hall : Forall (fun l => (l <= m)%nat) (lb :: map snd L2)).
  { rewrite Hs1, <- Hs1' in H5. apply Forall_cons in H5 as [_ H5].
    by rewrite Hs2 in H5. }
  destruct (longest_to_least b lb m L2) as (L2' & Hw2' & Hs2' & Hc2).
  { by rewrite HW2. }
  { by apply Forall_cons in Hall as [? _]. }
  { rewrite Hlens. left. }
  exists m, L2'. split_and!.
  - done.
  - by rewrite Hw2'.
  - apply (kraft_Permutation (map snd L')); [|done].
    by rewrite Hs1, <- Hs1', Hs2, <- Hs2'.
  - rewrite <- Hs2' in Hall. by apply Forall_cons in Hall as [_ ?].
  - etrans; [|exact H2]. rewrite (weighted_length_Permutation _ _ HL1).
    etrans; [|exact Hc1].
    rewrite (weighted_length_Permutation _ _ (perm_skip (a, m) HL2)).
    simpl in *. lia.
Qed.

(** Huffman's procedure is optimal: no lengths that satisfy Kraft's
    inequality cost less than its sum of sums. *)
Lemma huffman_cost_optimal (W : list Z) (c : Z) :
  huffman_cost W c -> Forall (Z.le 0) W ->
  forall L, map fst L ≡ₚ W -> kraft (map snd L) -> c <= weighted_length L.
Proof.
  induction 1 as [w|W a b R W' c HW Hab HR HW' _ IH]; intros Hpos L HL Hk.
  - apply weighted_length_nonneg. by rewrite HL.
  - rewrite HW in Hpos, HL.
    apply Forall_cons in Hpos as [Ha Hpos]. apply Forall_cons in Hpos as [Hb Hpos].
    destruct (least_two_longest a b R L Ha Hab HR HL Hk)
      as (m & LR & Hm & HwR & HkR & HallR & Hcost).
    specialize (IH ltac:(rewrite HW'; apply Forall_cons; split; [lia|done])
                  ((a + b, (m - 1)%nat) :: LR)).
    simpl in IH, Hcost. 
    assert (c <= (a + b) * Z.of_nat (m - 1) + weighted_length LR); [|nia].
    apply IH; [by rewrite HwR, HW'|].
    exists m. split.
    + apply Forall_cons. split; [lia|done].
    + assert (Hle : Forall (fun l => (l <= m)%nat) (m :: m :: map snd LR)).
      { repeat (apply Forall_cons; split; [lia|]). done. }
      pose proof (kraft_at m _ HkR Hle) as Hs. simpl in Hs |- *.
      rewrite Nat.sub_diag in Hs. replace (m - (m - 1))%nat with 1%nat by lia.
      change (2 ^ Z.of_nat 1) with 2. change (2 ^ Z.of_nat 0) with 1 in Hs. lia.
Qed.

(** ** The cost of the tree of [build_huffman_tree] *)

Lemma weighted_length_app (L1 L2 : list (Z * nat)) :
  weighted_length (L1 ++ L2) = weighted_length L1 + weighted_length L2.
Proof. induction L1; simpl; lia. Qed.

Lemma summed_full (n : Node) : summed n -> full_tree n.
Proof. induction 1; by constructor. Qed.

(** One level deeper costs the frequency of the root more. *)
Lemma leaf_rows_deeper (n : Node) :
  summed n -> forall d,
  weighted_length (map snd (leaf_rows (S d) n)) =
  weighted_length (map snd (leaf_rows d n)) + freq n.
Proof.
  induction 1 as [fr s l r|a b _ IHa _ IHb]; intros d; simpl; [lia|].
  rewrite !map_app, !weighted_length_app, IHa, IHb. lia.
Qed.

Lemma leaf_rows_table (n : Node) :
  summed n -> forall d,
  map (fun row : byte * (Z * nat) => (row.1, row.2.1)) (leaf_rows d n) = leaf_table n.
Proof.
  unfold leaf_table.
  induction 1 as [fr s l r|a b _ IHa _ IHb]; intros d; simpl; [done|].
  by rewrite !map_app, !IHa, !IHb, <- (IHa 1%nat), <- (IHb 1%nat).
Qed.

Lemma leaf_table_node (a b : Node) (fr : Z) :
  summed a -> summed b ->
  leaf_table (mkNode fr None (Some a) (Some b)) = leaf_table a ++ leaf_table b.
Proof.
  intros Ha Hb. unfold leaf_table at 1. simpl.
  by rewrite map_app, !leaf_rows_table.
Qed.

Lemma tree_cost_node (a b : Node) (fr : Z) :
  summed a -> summed b ->
  tree_cost (mkNode fr None (Some a) (Some b)) =
  tree_cost a + tree_cost b + (freq a + freq b).
Proof.
  intros Ha Hb. unfold tree_cost. simpl.
  rewrite map_app, weighted_length_app, !leaf_rows_deeper by done. lia.
Qed.

Lemma keys_leaf_table (n : Node) : summed n -> keys (leaf_table n) = leaves n.
Proof.
  induction 1 as [fr s l r|a b Ha IHa Hb IHb]; [done|].
  rewrite leaf_table_node by done. unfold keys in *. simpl.
  by rewrite map_app, IHa, IHb.
Qed.

(** The frequency of a node is the sum of the counts at its leaves. *)
Lemma freq_leaf_table (n : Node) :
  summed n -> freq n = foldr Z.add 0 (map snd (leaf_table n)).
Proof.
  induction 1 as [fr s l r|a b Ha IHa Hb IHb]; [simpl; lia|].
  rewrite leaf_table_node by done. rewrite map_app, foldr_app. simpl.
  rewrite IHa, IHb. generalize (map snd (leaf_table a)).
  intros l. induction l; simpl; lia.
Qed.

Lemma node_key_freq (a b : Node) : node_key a <= node_key b -> freq a <= freq b.
Proof.
  unfold node_key. pose proof (symbol_or_0_range a). pose proof (symbol_or_0_range b). lia.
Qed.

Lemma huffman_cost_Permutation (W W2 : list Z) (c : Z) :
  W ≡ₚ W2 -> huffman_cost W c -> huffman_cost W2 c.
Proof.
  intros Hp H. destruct H as [w|W a b R W' c HW Hab HR HW' H].
  - apply Permutation_singleton_l in Hp. subst W2. constructor.
  - apply (huffman_cost_merge W2 a b R W' c); try done. by rewrite <- Hp.
Qed.

(** The cost of a forest. *)
Lemma forest_cost_Permutation (l l' : list Node) :
  l ≡ₚ l' -> foldr Z.add 0 (map tree_cost l) = foldr Z.add 0 (map tree_cost l').
Proof. induction 1; simpl; lia. Qed.

Lemma concat_leaf_table_Permutation (l l' : list Node) :
  l ≡ₚ l' -> concat (map leaf_table l) ≡ₚ concat (map leaf_table l').
Proof.
  induction 1 as [|x l l' _ IH|x y l|l l' l'' _ IH1 _ IH2]; simpl.
  - done.
  - by rewrite IH.
  - rewrite !app_assoc. f_equiv. apply Permutation_app_comm.
  - by rewrite IH1.
Qed.

(** The merging loop: it ends with one tree, which holds the leaves of the
    heap it started from, and whose cost is that of the heap's trees plus
    what Huffman's procedure gives for their frequencies. *)
Lemma merge_loop_cost (fuel : nat) (heap : list Node) :
  Forall summed heap -> heap_from node_key 0 heap -> heap <> [] ->
  (length heap <= S fuel)%nat ->
  exists root c,
    merge_loop fuel heap = Ok [root] /\ summed root /\
    leaf_table root ≡ₚ concat (map leaf_table heap) /\
    huffman_cost (map freq heap) c /\
    tree_cost root = foldr Z.add 0 (map tree_cost heap) + c.
Proof.
  revert heap. induction fuel as [|fuel IH]; intros heap Hsum Hheap Hne Hlen.
  - destruct heap as [|root [|]]; simpl in *; [done| |lia].
    exists root, 0. apply Forall_inv in Hsum.
    split_and!; [done|done|by rewrite app_nil_r|constructor|lia].
  - cbn [merge_loop]. case_decide as Hlong.
    + destruct (heappop_Permutation Node_lt heap Hne) as (a & heap1 & Hpop1 & Hperm1).
      rewrite Hpop1. cbn [mbind result_bind].
      destruct (heappop_heap node_key Node_lt Node_lt_key _ _ _ Hheap Hpop1)
        as [Hheap1 Hleast1].
      assert (Hne1 : heap1 <> []).
      { apply Permutation_length in Hperm1. destruct heap1; simpl in *; [lia|done]. }
      destruct (heappop_Permutation Node_lt heap1 Hne1) as (b & heap2 & Hpop2 & Hperm2).
      rewrite Hpop2. cbn [mbind result_bind].
      destruct (heappop_heap node_key Node_lt Node_lt_key _ _ _ Hheap1 Hpop2)
        as [Hheap2 Hleast2].
      set (new := mkNode (freq a + freq b) None (Some a) (Some b)).
      pose proof (heappush_Permutation Node_lt heap2 new) as Hperm3.
      pose proof (heappush_heap node_key Node_lt Node_lt_key heap2 new Hheap2) as Hheap3.
      assert (Hperm : heap ≡ₚ a :: b :: heap2) by by rewrite Hperm2.
      rewrite Hperm in Hsum.
      apply Forall_cons in Hsum as [Ha Hsum]. apply Forall_cons in Hsum as [Hb Hsum].
      assert (Hnew : summed new) by by constructor.
      destruct (IH (heappush Node_lt heap2 new))
        as (root & c & Hrun & Hroot & Htable & Hcost & Hc).
      * rewrite Hperm3. by constructor.
      * done.
      * intros Hnil. rewrite Hnil in Hperm3. by apply Permutation_nil_cons in Hperm3.
      * apply Permutation_length in Hperm3, Hperm. simpl in *. lia.
      * exists root, (freq a + freq b + c). split_and!; [done|done|..].
        -- rewrite Htable, (concat_leaf_table_Permutation _ _ Hperm3),
             (concat_leaf_table_Permutation _ _ Hperm).
           cbn [map concat]. unfold new. rewrite leaf_table_node by done.
           by rewrite app_assoc.
        -- apply (huffman_cost_merge _ (freq a) (freq b) (map freq heap2)
                    (map freq (heappush Node_lt heap2 new))).
           ++ by rewrite (Permutation_map freq Hperm).
           ++ rewrite Hperm in Hleast1.
              apply Forall_cons in Hleast1 as [_ Hleast1].
              apply Forall_cons in Hleast1 as [Hab _]. by apply node_key_freq.
           ++ rewrite <- Hperm2 in Hleast2. apply Forall_cons in Hleast2 as [_ Hleast2].
              apply Forall_map. eapply Forall_impl; [exact Hleast2|].
              intros x. apply node_key_freq.
           ++ by rewrite (Permutation_map freq Hperm3).
           ++ done.
        -- rewrite Hc, (forest_cost_Permutation _ _ Hperm3),
             (forest_cost_Permutation _ _ Hperm).
           cbn [map foldr]. unfold new. rewrite tree_cost_node by done. lia.
    + destruct heap as [|root [|]]; simpl in *; [done| |lia].
      exists root, 0. apply Forall_inv in Hsum.
      split_and!; [done|done|by rewrite app_nil_r|constructor|lia].
Qed.

Lemma leaf_nodes_summed (freqs : dict byte Z) : Forall summed (leaf_nodes freqs).
Proof.
  unfold leaf_nodes. apply Forall_map, Forall_forall. intros [s fr] _. constructor.
Qed.

Lemma leaf_nodes_table (freqs : dict byte Z) :
  concat (map leaf_table (leaf_nodes freqs)) = freqs /\
  map freq (leaf_nodes freqs) = map snd freqs /\
  foldr Z.add 0 (map tree_cost (leaf_nodes freqs)) = 0.
Proof.
  induction freqs as [|[s fr] freqs (IH1 & IH2 & IH3)]; [done|].
  split_and!; simpl.
  - by rewrite IH1.
  - by rewrite IH2.
  - fold (leaf_nodes freqs). rewrite IH3. unfold tree_cost. simpl. lia.
Qed.

(** The tree of [build_huffman_tree] for a table of two symbols or more:
    its leaves are the rows of the table, and its cost is what Huffman's
    procedure gives for the counts. *)
Lemma build_huffman_tree_cost (freqs : dict byte Z) :
  (2 <= length freqs)%nat ->
  exists root,
    archiver_huffman.build_huffman_tree freqs = Ok root /\ summed root /\
    leaf_table root ≡ₚ freqs /\ huffman_cost (map snd freqs) (tree_cost root).
Proof.
  intros Hlen. unfold archiver_huffman.build_huffman_tree.
  pose proof (heapify_Permutation Node_lt (leaf_nodes freqs)) as Hperm.
  assert (Hl : length (heapify Node_lt (leaf_nodes freqs)) = length freqs).
  { rewrite (Permutation_length Hperm). unfold leaf_nodes. by rewrite length_map. }
  rewrite decide_False by lia.
  destruct (leaf_nodes_table freqs) as (Htable & Hfreq & Hzero).
  destruct (merge_loop_cost (length (heapify Node_lt (leaf_nodes freqs)))
              (heapify Node_lt (leaf_nodes freqs)))
    as (root & c & -> & Hsum & Hleaves & Hcost & Hc).
  - rewrite Hperm. apply leaf_nodes_summed.
  - apply (heapify_heap node_key Node_lt Node_lt_key).
  - intros Hnil. rewrite Hnil in Hl. simpl in Hl. lia.
  - lia.
  - exists root. split_and!; [done|done|..].
    + by rewrite Hleaves, (concat_leaf_table_Permutation _ _ Hperm), Htable.
    + rewrite Hc, (forest_cost_Permutation _ _ Hperm), Hzero. simpl.
      apply (huffman_cost_Permutation (map freq (heapify Node_lt (leaf_nodes freqs)))); [|done].
      by rewrite (Permutation_map freq Hperm), Hfreq.
Qed.

(** ** Codes and depths *)

Lemma code_at_leaves (n : Node) (p : bits) (s : byte) : code_at n p s -> s ∈ leaves n.
Proof.
  induction 1 as [fr s l r|fr a r p s _ IH|fr l b p s _ IH]; simpl.
  - left.
  - apply elem_of_app. by left.
  - apply elem_of_app. by right.
Qed.

(** A symbol has one code in a tree that holds it once. *)
Lemma code_at_unique (n : Node) (p p' : bits) (s : byte) :
  code_at n p s -> code_at n p' s -> NoDup (leaves n) -> p = p'.
Proof.
  intros H. revert p'.
  induction H as [fr s l r|fr a r p s H IH|fr l b p s H IH]; intros p' H' Hnd.
  - by inversion H'.
  - simpl in Hnd. apply NoDup_app in Hnd as (Hnd & Hdis & _).
    inversion H' as [|? ? ? p2 ? H2|? ? b p2 ? H2]; subst.
    + f_equal. by apply IH.
    + exfalso. apply (Hdis s); by eapply code_at_leaves.
  - simpl in Hnd. apply NoDup_app in Hnd as (_ & Hdis & Hnd).
    inversion H' as [|? a ? p2 ? H2|? ? ? p2 ? H2]; subst.
    + exfalso. apply (Hdis s); by eapply code_at_leaves.
    + f_equal. by apply IH.
Qed.

(** The depth of a leaf is the length of the code of its symbol. *)
Lemma leaf_rows_code (n : Node) :
  summed n -> forall d s c d',
  (s, (c, d')) ∈ leaf_rows d n -> exists p, code_at n p s /\ d' = (d + length p)%nat.
Proof.
  induction 1 as [fr s0 l r|a b _ IHa _ IHb]; intros d s c d' Hin; simpl in Hin.
  - apply list_elem_of_singleton in Hin. simplify_eq. exists []. split; [constructor|simpl; lia].
  - apply elem_of_app in Hin as [Hin|Hin].
    + destruct (IHa _ _ _ _ Hin) as (p & Hp & ->).
      exists (false :: p). split; [by constructor|simpl; lia].
    + destruct (IHb _ _ _ _ Hin) as (p & Hp & ->).
      exists (true :: p). split; [by constructor|simpl; lia].
Qed.

(** ** Counting the bits *)

Lemma weighted_dict_set (f : byte -> nat) (d : dict byte Z) (k : byte) (v : Z) :
  weighted_length (map (fun kv => (kv.2, f kv.1)) (dict_set d k v)) =
  weighted_length (map (fun kv => (kv.2, f kv.1)) d) +
  (v - default 0 (dict_get d k)) * Z.of_nat (f k).
Proof.
  induction d as [|[k0 v0] d IH]; simpl; [lia|].
  destruct (decide (k0 = k)) as [->|]; simpl; [lia|]. rewrite IH. lia.
Qed.

(** Summing a length per byte of the input is summing count times length
    over the table of [Counter]. *)
Lemma Counter_weighted (f : byte -> nat) (data : bytes) :
  weighted_length (map (fun kv => (kv.2, f kv.1)) (Counter data)) =
  foldr (fun b acc => Z.of_nat (f b) + acc) 0 data.
Proof.
  induction data as [|b data IH] using rev_ind; [done|].
  rewrite Counter_snoc, weighted_dict_set, IH, foldr_app. simpl.
  generalize (Z.of_nat (f b)). intros z. clear.
  induction data; simpl; lia.
Qed.

Lemma length_join_codes (cb : dict byte bits) (data : bytes) (bs : bits) :
  join_codes cb data = Ok bs ->
  len bs = foldr (fun b acc => Z.of_nat (length (default [] (dict_get cb b))) + acc) 0 data.
Proof.
  revert bs. induction data as [|b data IH]; intros bs H; simpl in H.
  - by simplify_eq.
  - destruct (dict_get cb b) as [code|] eqn:Hb; [|done].
    destruct (join_codes cb data) as [rest|]; [|done]. simpl in H. simplify_eq.
    simpl. rewrite Hb. simpl. rewrite <- (IH rest eq_refl). unfold len.
    rewrite length_app. lia.
Qed.

(** The code bits of [huffman_encode] are the cost of its tree. *)
Lemma huffman_bits_cost (data : bytes) :
  codable data ->
  exists root bitstr,
    archiver_huffman.build_huffman_tree (Counter data) = Ok root /\
    archiver_huffman.huffman_bits data = Ok bitstr /\
    summed root /\ leaf_table root ≡ₚ Counter data /\
    len bitstr = tree_cost root /\
    huffman_cost (map snd (Counter data)) (tree_cost root).
Proof.
  intros Hc.
  destruct (huffman_codes data Hc)
    as (root & cb & bitstr & Htree & Hfull & Hinner & Hleaves & Hcb & Hcodes & Hjoin & Hbits).
  destruct (build_huffman_tree_cost (Counter data)) as (root' & Htree' & Hsum & Htable & Hcost).
  { by apply codable_Counter. }
  assert (root' = root) as -> by congruence.
  exists root, bitstr. split_and!; try done.
  rewrite (length_join_codes _ _ _ Hjoin).
  rewrite <- (Counter_weighted (fun b => length (default [] (dict_get cb b)))).
  unfold tree_cost.
  assert (Hp : map (fun kv : byte * Z => (kv.2, length (default [] (dict_get cb kv.1))))
                 (Counter data) ≡ₚ
               map (fun kv : byte * Z => (kv.2, length (default [] (dict_get cb kv.1))))
                 (leaf_table root)).
  { apply Permutation_map. by symmetry. }
  rewrite (weighted_length_Permutation _ _ Hp). unfold leaf_table. rewrite map_map.
  f_equal. apply map_ext_in. intros [s [c d]] Hin. simpl. f_equal.
  apply list_elem_of_In in Hin as Hin'.
  destruct (leaf_rows_code root Hsum 0 s c d Hin') as (p & Hp1 & ->).
  assert (Hs : s ∈ data).
  { apply list_elem_of_In, keys_Counter. apply list_elem_of_In.
    rewrite <- Hleaves. by eapply code_at_leaves. }
  destruct (Hcodes s Hs) as (p' & Hp' & ->).
  assert (p' = p) as ->; [|done].
  apply (code_at_unique root p' p s); [done|done|].
  rewrite Hleaves. apply NoDup_keys_Counter.
Qed.

(** ** Prefix-free codes *)

(** The codes of a tree are prefix-free: a path that ends at a leaf is not
    the beginning of a path to another leaf. *)
Lemma code_at_prefix (n : Node) (p q : bits) (s s' : byte) :
  code_at n p s -> code_at n (p ++ q) s' -> q = [] /\ s = s'.
Proof.
  induction 1 as [fr s l r|fr a r p s _ IH|fr l b p s _ IH]; simpl; intros H'.
  - by inversion H'.
  - inversion H'; subst. by apply IH.
  - inversion H'; subst. by apply IH.
Qed.

Lemma prefix_free_nil (cs : list bits) : prefix_free cs -> [] ∈ cs -> cs = [[]].
Proof.
  intros Hpf Hin. destruct Hpf as [|c cs Hc Hpf]; [by apply elem_of_nil in Hin|].
  destruct cs as [|c' cs]; [by apply list_elem_of_singleton in Hin as <-|].
  exfalso. apply Forall_cons in Hc as [[H1 H2] Hc].
  apply elem_of_cons in Hin as [<-|Hin].
  - apply H1, prefix_nil.
  - apply elem_of_cons in Hin as [<-|Hin]; [apply H2, prefix_nil|].
    rewrite Forall_forall in Hc. destruct (Hc [] Hin) as [_ H]. apply H, prefix_nil.
Qed.

Lemma kraft_sum_tails (M : nat) (cs : list bits) :
  Forall (fun c => c <> []) cs ->
  kraft_sum (S M) (map length cs) =
  kraft_sum M (map length (tails false cs)) + kraft_sum M (map length (tails true cs)).
Proof.
  induction 1 as [|[|b t] cs Hc _ IH]; [done|done|].
  cbn [map kraft_sum foldr tails]. fold (kraft_sum (S M) (map length cs)). rewrite IH.
  destruct b; simpl; unfold kraft_sum; lia.
Qed.

Lemma tails_prefix_free (b : bool) (cs : list bits) :
  prefix_free cs -> prefix_free (tails b cs).
Proof.
  induction 1 as [|c cs Hc Hpf IH]; [constructor|].
  destruct c as [|b' t]; simpl; [done|]. case_decide as Hb; [|done]. subst b'.
  constructor; [|done]. clear -Hc.
  induction Hc as [|c cs [H1 H2] _ IH]; [constructor|].
  destruct c as [|b' t']; simpl; [done|]. case_decide as Hb; [|done]. subst b'.
  constructor; [|done]. split; intros H; [apply H1|apply H2]; by apply prefix_cons.
Qed.

Lemma tails_length (b : bool) (M : nat) (cs : list bits) :
  Forall (fun c => (length c <= S M)%nat) cs ->
  Forall (fun c => (length c <= M)%nat) (tails b cs).
Proof.
  induction 1 as [|[|b' t] cs Hc _ IH]; simpl; [constructor|done|].
  case_decide; [|done]. constructor; [simpl in Hc; lia|done].
Qed.

(** Kraft's inequality for the lengths of a prefix-free code. *)
Lemma prefix_free_kraft_sum (M : nat) : forall cs : list bits,
  Forall (fun c => (length c <= M)%nat) cs -> prefix_free cs ->
  kraft_sum M (map length cs) <= 2 ^ Z.of_nat M.
Proof.
  induction M as [|M IH]; intros cs Hlen Hpf.
  - destruct cs as [|c cs]; [done|].
    assert (Hin : [] ∈ c :: cs).
    { apply Forall_cons in Hlen as [Hc _]. destruct c; [left|simpl in Hc; lia]. }
    rewrite (prefix_free_nil _ Hpf Hin). done.
  - destruct (decide ([] ∈ cs)) as [Hin|Hnin].
    + rewrite (prefix_free_nil _ Hpf Hin). simpl. lia.
    + rewrite kraft_sum_tails.
      2:{ apply Forall_forall. by intros c Hc ->. }
      pose proof (IH _ (tails_length false M cs Hlen) (tails_prefix_free false cs Hpf)).
      pose proof (IH _ (tails_length true M cs Hlen) (tails_prefix_free true cs Hpf)).
      rewrite Nat2Z.inj_succ, Z.pow_succ_r by lia. lia.
Qed.

Lemma prefix_free_kraft (cs : list bits) : prefix_free cs -> kraft (map length cs).
Proof.
  intros Hpf. exists (max_list (map length cs)).
  assert (Hlen : Forall (fun c => (length c <= max_list (map length cs))%nat) cs).
  { apply Forall_forall. intros c Hc. apply max_list_elem_of_le.
    apply list_elem_of_In, in_map. by apply list_elem_of_In. }
  split; [by apply Forall_map|]. by apply prefix_free_kraft_sum.
Qed.

(** A code for the symbols [ks] in which no symbol's word is a prefix of
    another's. *)
Lemma prefix_free_map (code : byte -> bits) (ks : list byte) :
  NoDup ks ->
  (forall a b, a ∈ ks -> b ∈ ks -> a <> b -> ~ code a `prefix_of` code b) ->
  prefix_free (map code ks).
Proof.
  induction 1 as [|k ks Hk _ IH]; intros Hcode; [constructor|].
  simpl. constructor.
  - apply Forall_map, Forall_forall. intros b Hb.
    assert (k <> b) by (by intros ->).
    split; apply Hcode; (done || by left || by right).
  - apply IH. intros a b Ha Hb. apply Hcode; by right.
Qed.

(** ** The size of the Huffman code *)

(** No code lengths that satisfy Kraft's inequality on the bytes of the input
    give fewer bits than the code of [huffman_encode]. *)
Lemma huffman_bits_least (data : bytes) (f : byte -> nat) :
  codable data -> kraft (map f (keys (Counter data))) ->
  exists bitstr,
    archiver_huffman.huffman_bits data = Ok bitstr /\
    len bitstr <= foldr (fun b acc => Z.of_nat (f b) + acc) 0 data.
Proof.
  intros Hc Hk.
  destruct (huffman_bits_cost data Hc) as (root & bitstr & _ & Hbits & _ & _ & Hlen & Hcost).
  exists bitstr. split; [done|].
  rewrite Hlen, <- Counter_weighted.
  apply (huffman_cost_optimal _ _ Hcost).
  - apply Forall_map. eapply Forall_impl; [apply Counter_positive|]. simpl. lia.
  - by rewrite map_map.
  - unfold keys in Hk. by rewrite map_map in Hk |- *.
Qed.

Lemma length_concat_codes (code : byte -> bits) (data : bytes) :
  len (concat (map code data)) =
  foldr (fun b acc => Z.of_nat (length (code b)) + acc) 0 data.
Proof.
  unfold len. induction data as [|b data IH]; simpl; [done|].
  rewrite length_app. lia.
Qed.

Lemma huffman_bits_at_least_one (data : bytes) :
  codable data ->
  exists bitstr, archiver_huffman.huffman_bits data = Ok bitstr /\ len data <= len bitstr.
Proof.
  intros Hc.
  destruct (huffman_codes data Hc)
    as (root & cb & bitstr & _ & _ & Hinner & _ & _ & Hcodes & Hjoin & Hbits).
  exists bitstr. split; [done|]. rewrite (length_join_codes _ _ _ Hjoin).
  clear Hjoin Hbits Hc. unfold len. induction data as [|b data IH]; simpl; [done|].
  destruct (Hcodes b ltac:(left)) as (p & Hp & ->). simpl.
  pose proof (code_at_inner _ _ _ Hp Hinner).
  assert (1 <= length p)%nat by (destruct p; [done|simpl; lia]).
  assert (IH' : Z.of_nat (length data) <=
    foldr (fun b acc => Z.of_nat (length (default [] (dict_get cb b))) + acc) 0 data).
  { apply IH. intros s Hs. apply Hcodes. by right. }
  lia.
Qed.

Lemma kraft_bytes (ks : list byte) : (length ks <= 256)%nat -> kraft (map (fun _ => 8%nat) ks).
Proof.
  intros Hlen. exists 8%nat. split; [apply Forall_map, Forall_forall; lia|].
  assert (H : kraft_sum 8 (map (fun _ => 8%nat) ks) = Z.of_nat (length ks)).
  { induction ks as [|k ks IH]; [done|].
    cbn [map kraft_sum foldr length]. fold (kraft_sum 8 (map (fun _ => 8%nat) ks)).
    rewrite IH by (simpl in Hlen; lia). rewrite Nat.sub_diag. simpl (2 ^ _). lia. }
  rewrite H. change (2 ^ Z.of_nat 8) with 256. lia.
Qed.

(** The code book of [build_codes] for an input with two different bytes or
    more gives every byte of the input a code of at least one bit, and it is
    prefix-free: the code of a byte is not the beginning of the code of
    another byte. *)
Theorem codebook_prefix_free (data : bytes) :
  codable data ->
  exists root cb,
    archiver_huffman.build_huffman_tree (Counter data) = Ok root /\
    build_codes root [] [] = Ok cb /\
    (forall s, s ∈ data -> exists p, dict_get cb s = Some p /\ p <> []) /\
    (forall s s' p p', s ∈ data -> s' ∈ data ->
       dict_get cb s = Some p -> dict_get cb s' = Some p' ->
       p `prefix_of` p' -> s = s').
Proof.
  intros Hc.
  destruct (huffman_codes data Hc)
    as (root & cb & bitstr & Htree & _ & Hinner & _ & Hcb & Hcodes & _).
  exists root, cb. split_and!; [done|done|..].
  - intros s Hs. destruct (Hcodes s Hs) as (p & Hp & Hget).
    exists p. split; [done|]. by eapply code_at_inner.
  - intros s s' p p' Hs Hs' Hget Hget' [q ->].
    destruct (Hcodes s Hs) as (p0 & Hp0 & Hget0).
    destruct (Hcodes s' Hs') as (p1 & Hp1 & Hget1).
    assert (p0 = p) as -> by congruence. assert (p1 = p ++ q) as -> by congruence.
    by destruct (code_at_prefix _ _ _ _ _ Hp0 Hp1).
Qed.

Lemma codebook_prefix_free_witness :
  exists root cb,
    archiver_huffman.build_huffman_tree (Counter [x61; x62; x61]) = Ok root /\
    build_codes root [] [] = Ok cb /\
    (forall s, s ∈ [x61; x62; x61] -> exists p, dict_get cb s = Some p /\ p <> []) /\
    (forall s s' p p', s ∈ [x61; x62; x61] -> s' ∈ [x61; x62; x61] ->
       dict_get cb s = Some p -> dict_get cb s' = Some p' ->
       p `prefix_of` p' -> s = s').
Proof. exact (codebook_prefix_free [x61; x62; x61] codable_aba). Defined.

(** The Huffman code of [huffman_encode] is optimal: whatever prefix-free
    code is used for the bytes of the input (two different bytes or more),
    the input takes at least as many bits in it as [huffman_encode] produces
    before padding. *)
Theorem huffman_code_optimal (data : bytes) (code : byte -> bits) :
  codable data ->
  (forall a b, a ∈ data -> b ∈ data -> a <> b -> ~ code a `prefix_of` code b) ->
  exists bitstr,
    archiver_huffman.huffman_bits data = Ok bitstr /\
    len bitstr <= len (concat (map code data)).
Proof.
  intros Hc Hcode.
  destruct (huffman_bits_least data (fun b => length (code b)) Hc) as (bitstr & Hbits & Hle).
  - rewrite <- (map_map code length). apply prefix_free_kraft, prefix_free_map.
    + apply NoDup_keys_Counter.
    + intros a b Ha Hb. apply Hcode; by apply list_elem_of_In, keys_Counter, list_elem_of_In.
  - exists bitstr. split; [done|]. by rewrite length_concat_codes.
Qed.

Lemma huffman_code_optimal_witness :
  exists bitstr,
    archiver_huffman.huffman_bits [x61; x62; x61] = Ok bitstr /\
    len bitstr <= len (concat (map (fun b => [bool_decide (b = x61); true]) [x61; x62; x61])).
Proof.
  apply (huffman_code_optimal [x61; x62; x61] (fun b => [bool_decide (b = x61); true])
           codable_aba).
  intros a b Ha Hb Hne [k Hk].
  assert (Hin : forall c : byte, c ∈ [x61; x62; x61] -> c = x61 \/ c = x62).
  { intros c H. repeat (apply elem_of_cons in H as [H|H]; [auto|]).
    by apply elem_of_nil in H. }
  apply Hin in Ha as Ha'. apply Hin in Hb as Hb'.
  destruct Ha' as [-> | ->], Hb' as [-> | ->]; done.
Defined.

(** The payload of [huffman_encode] is never longer than the input, and
    never shorter than an eighth of it: every byte takes at least one bit
    and, in total, the bytes take at most eight bits apiece. *)
Theorem huffman_payload_bounds (data : bytes) :
  codable data ->
  exists encoded service,
    archiver_huffman.huffman_encode data = Ok (encoded, service) /\
    len data <= 8 * len encoded /\ len encoded <= len data.
Proof.
  intros Hc.
  destruct (huffman_encode_explicit data Hc)
    as (root & bitstr & encoded & _ & _ & Hbits & _ & Hpad & Hlen & _ & Henc).
  destruct (huffman_bits_at_least_one data Hc) as (bitstr1 & Hbits1 & Hlow).
  destruct (huffman_bits_least data (fun _ => 8%nat) Hc) as (bitstr2 & Hbits2 & Hhigh).
  { apply kraft_bytes. pose proof (length_Counter data) as H. unfold len, keys in *.
    rewrite length_map. lia. }
  assert (bitstr1 = bitstr) as -> by congruence.
  assert (bitstr2 = bitstr) as -> by congruence.
  assert (Hsum : foldr (fun (_ : byte) acc => Z.of_nat 8 + acc) 0 data = 8 * len data).
  { unfold len. clear. induction data; simpl foldr; simpl length; lia. }
  rewrite Hsum in Hhigh.
  eexists encoded, _. split; [exact Henc|]. lia.
Qed.

Lemma huffman_payload_bounds_witness :
  exists encoded service,
    archiver_huffman.huffman_encode [x61; x62; x61] = Ok (encoded, service) /\
    len [x61; x62; x61] <= 8 * len encoded /\ len encoded <= len [x61; x62; x61].
Proof. exact (huffman_payload_bounds [x61; x62; x61] codable_aba). Defined.

(** ** The entropy bound *)

Lemma Rsum_le {A} (f g : A -> R) (l : list A) :
  Forall (fun x => (f x <= g x)%R) l -> (Rsum f l <= Rsum g l)%R.
Proof. induction 1; simpl; lra. Qed.

Lemma Rsum_lt {A} (f g : A -> R) (l : list A) :
  l <> [] -> Forall (fun x => (f x < g x)%R) l -> (Rsum f l < Rsum g l)%R.
Proof.
  intros Hne H. induction H as [|x l Hx H IH]; [done|].
  simpl. destruct l as [|y l]; [simpl; lra|].
  specialize (IH ltac:(done)). lra.
Qed.

Lemma Rsum_ext {A} (f g : A -> R) (l : list A) :
  Forall (fun x => f x = g x) l -> Rsum f l = Rsum g l.
Proof. induction 1 as [|x l Hx _ IH]; simpl; [done|]. by rewrite Hx, IH. Qed.

Lemma Rsum_plus {A} (f g : A -> R) (l : list A) :
  Rsum (fun x => (f x + g x)%R) l = (Rsum f l + Rsum g l)%R.
Proof. induction l as [|x l IH]; simpl; [lra|]. rewrite IH. lra. Qed.

Lemma Rsum_scale {A} (k : R) (f : A -> R) (l : list A) :
  Rsum (fun x => (k * f x)%R) l = (k * Rsum f l)%R.
Proof. induction l as [|x l IH]; simpl; [lra|]. rewrite IH. lra. Qed.

Lemma Rsum_map {A B} (h : A -> B) (f : B -> R) (l : list A) :
  Rsum f (map h l) = Rsum (fun x => f (h x)) l.
Proof. induction l as [|x l IH]; simpl; [done|]. by rewrite IH. Qed.

Lemma IZR_weighted_length (L : list (Z * nat)) :
  IZR (weighted_length L) = Rsum (fun wl => (IZR wl.1 * INR wl.2)%R) L.
Proof.
  induction L as [|[w l] L IH]; simpl; [done|].
  by rewrite plus_IZR, mult_IZR, <- INR_IZR_INZ, IH.
Qed.

Lemma IZR_sum (ws : list Z) : IZR (foldr Z.add 0 ws) = Rsum IZR ws.
Proof. induction ws as [|w ws IH]; simpl; [done|]. by rewrite plus_IZR, IH. Qed.

(** Kraft's inequality, in the real numbers. *)
Lemma IZR_kraft_sum (M : nat) (ls : list nat) :
  Forall (fun l => (l <= M)%nat) ls ->
  IZR (kraft_sum M ls) = (2 ^ M * Rsum (fun l => (/ 2) ^ l) ls)%R.
Proof.
  induction 1 as [|l ls Hl _ IH]; simpl; [lra|].
  fold (kraft_sum M ls). rewrite plus_IZR, IH, <- pow_IZR.
  assert (Hpow : (2 ^ M = 2 ^ (M - l) * 2 ^ l)%R).
  { rewrite <- pow_add. f_equal. lia. }
  rewrite Hpow, pow_inv.
  assert (Hnz : (2 ^ l <> 0)%R) by (apply pow_nonzero; lra).
  generalize dependent (2 ^ l)%R. generalize (2 ^ (M - l))%R. intros a b _ Hb.
  by field.
Qed.

Lemma kraft_real (ls : list nat) : kraft ls -> (Rsum (fun l => (/ 2) ^ l) ls <= 1)%R.
Proof.
  intros (M & Hle & Hsum). apply IZR_le in Hsum.
  rewrite (IZR_kraft_sum M ls Hle), <- pow_IZR in Hsum.
  assert (0 < 2 ^ M)%R by (apply pow_lt; lra). nra.
Qed.

Lemma ln_2_pos : (0 < ln 2)%R.
Proof. pose proof ln_lt_2. lra. Qed.

Lemma ln_le_minus_1 (x : R) : (0 < x)%R -> (ln x <= x - 1)%R.
Proof.
  intros Hx. pose proof (exp_ineq1_le (ln x)) as H. rewrite exp_ln in H by done. lra.
Qed.

(** One term of Gibbs' inequality. *)
Lemma gibbs_term (n c : R) (l : nat) :
  (0 < n)%R -> (0 < c)%R ->
  (c * log2 (n / c) <= c * INR l + (n * (/ 2) ^ l - c) / ln 2)%R.
Proof.
  intros Hn Hc. pose proof ln_2_pos as H2.
  assert (Hp : (0 < (/ 2) ^ l)%R) by (apply pow_lt; lra).
  assert (Hnc : (0 < n / c)%R) by (by apply Rdiv_lt_0_compat).
  pose proof (ln_le_minus_1 (n / c * (/ 2) ^ l) ltac:(by apply Rmult_lt_0_compat)) as Hln.
  rewrite ln_mult, ln_pow, ln_Rinv in Hln by (done || lra).
  unfold log2.
  assert (Heq : (c * (n / c * (/ 2) ^ l - 1) = n * (/ 2) ^ l - c)%R) by (field; lra).
  assert (Hmul : (c * (ln (n / c) + INR l * - ln 2) <= n * (/ 2) ^ l - c)%R) by nra.
  apply (Rmult_le_reg_r (ln 2)); [done|].
  replace (c * (ln (n / c) / ln 2) * ln 2)%R with (c * ln (n / c))%R by (field; lra).
  replace ((c * INR l + (n * (/ 2) ^ l - c) / ln 2) * ln 2)%R
    with (c * INR l * ln 2 + (n * (/ 2) ^ l - c))%R by (field; lra).
  lra.
Qed.

Lemma Rsum_gibbs (n k : R) (L : list (Z * nat)) :
  (k <> 0)%R ->
  Rsum (fun wl : Z * nat => (IZR wl.1 * INR wl.2 + (n * (/ 2) ^ wl.2 - IZR wl.1) / k)%R) L =
  (Rsum (fun wl => (IZR wl.1 * INR wl.2)%R) L +
   (n * Rsum (fun l => (/ 2) ^ l) (map snd L) - Rsum IZR (map fst L)) / k)%R.
Proof.
  intros Hk. induction L as [|[w l] L IH]; simpl; [by field|]. rewrite IH. by field.
Qed.

(** Gibbs' inequality for code lengths: lengths that satisfy Kraft's
    inequality cost at least the entropy of the weights. *)
Lemma gibbs (n : Z) (L : list (Z * nat)) :
  0 < n -> Forall (fun wl => 1 <= wl.1) L -> foldr Z.add 0 (map fst L) = n ->
  kraft (map snd L) ->
  (Rsum (fun wl => IZR wl.1 * log2 (IZR n / IZR wl.1)) L <= IZR (weighted_length L))%R.
Proof.
  intros Hn Hpos Hsum Hk. pose proof ln_2_pos as H2.
  apply IZR_lt in Hn as Hn'.
  etrans.
  { apply (Rsum_le _ (fun wl : Z * nat =>
             (IZR wl.1 * INR wl.2 + (IZR n * (/ 2) ^ wl.2 - IZR wl.1) / ln 2)%R)).
    eapply Forall_impl; [exact Hpos|]. intros [w l] Hw. simpl in *.
    apply gibbs_term; [done|]. apply IZR_lt. lia. }
  rewrite Rsum_gibbs by lra. rewrite <- IZR_sum, Hsum, <- IZR_weighted_length.
  pose proof (kraft_real _ Hk) as Hkr.
  assert ((IZR n * Rsum (fun l => (/ 2) ^ l) (map snd L) - IZR n) / ln 2 <= 0)%R; [|lra].
  apply Rmult_le_reg_r with (r := ln 2); [done|].
  unfold Rdiv. rewrite Rmult_assoc, Rinv_l by lra. nra.
Qed.

Lemma entropy_scaled (data : bytes) :
  0 < len data ->
  (IZR (len data) * entropy data =
   Rsum (fun kv : byte * Z => IZR kv.2 * log2 (IZR (len data) / IZR kv.2)) (Counter data))%R.
Proof.
  intros Hn. apply IZR_lt in Hn. unfold entropy. rewrite <- Rsum_scale.
  apply Rsum_ext, Forall_forall. intros kv _. field. lra.
Qed.

(** Shannon's lower bound: code lengths for the bytes of the input that
    satisfy Kraft's inequality take at least [n * H] bits. *)
Lemma entropy_lower (data : bytes) (f : byte -> nat) :
  0 < len data -> kraft (map f (keys (Counter data))) ->
  (IZR (len data) * entropy data <=
   IZR (foldr (fun b acc => Z.of_nat (f b) + acc) 0 data)%Z)%R.
Proof.
  intros Hn Hk. rewrite entropy_scaled by done. rewrite <- Counter_weighted.
  pose proof (gibbs (len data) (map (fun kv : byte * Z => (kv.2, f kv.1)) (Counter data)) Hn)
    as H.
  rewrite Rsum_map in H. apply H.
  - apply Forall_map. apply Counter_positive.
  - rewrite map_map. simpl. apply Counter_sum.
  - rewrite map_map. simpl. unfold keys in Hk. by rewrite map_map in Hk.
Qed.

Lemma shannon_length_spec (n c : Z) :
  1 <= c -> c <= n ->
  n <= 2 ^ Z.of_nat (shannon_length n c) * c /\
  (shannon_length n c = 0%nat \/ 2 ^ (Z.of_nat (shannon_length n c) - 1) * c < n).
Proof.
  intros Hc Hn. unfold shannon_length.
  pose proof (Z.div_mod (n + c - 1) c ltac:(lia)) as Hdiv.
  pose proof (Z.mod_pos_bound (n + c - 1) c ltac:(lia)) as Hmod.
  set (q := (n + c - 1) / c) in *. set (r := (n + c - 1) mod c) in *.
  clearbody q r.
  assert (Hq : 1 <= q) by nia.
  destruct (decide (q = 1)) as [->|Hq1].
  - rewrite Z.log2_up_1. change (Z.to_nat 0) with 0%nat.
    change (2 ^ Z.of_nat 0) with 1. split; [lia|by left].
  - pose proof (Z.log2_up_spec q ltac:(lia)) as [Hlow Hhigh].
    pose proof (Z.log2_up_nonneg q). rewrite Z2Nat.id by done.
    split; [nia|right].
    replace (Z.log2_up q - 1) with (Z.pred (Z.log2_up q)) by lia. nia.
Qed.

(** Lengths [l] with [n <= 2 ^ l * c] for weights [c] that add up to [n]
    satisfy Kraft's inequality. *)
Lemma kraft_sum_weights (n : Z) (M : nat) (L : list (Z * nat)) :
  Forall (fun wl => (wl.2 <= M)%nat /\ n <= 2 ^ Z.of_nat wl.2 * wl.1) L ->
  n * kraft_sum M (map snd L) <= 2 ^ Z.of_nat M * foldr Z.add 0 (map fst L).
Proof.
  induction 1 as [|[c l] L [Hl Hc] _ IH]; simpl in *; [lia|].
  fold (kraft_sum M (map snd L)).
  assert (Hpow : 2 ^ Z.of_nat M = 2 ^ Z.of_nat (M - l) * 2 ^ Z.of_nat l).
  { rewrite <- Z.pow_add_r by lia. f_equal. lia. }
  pose proof (Z.pow_pos_nonneg 2 (Z.of_nat (M - l)) ltac:(lia) ltac:(lia)).
  rewrite Hpow in IH |- *. nia.
Qed.

Lemma kraft_weights (n : Z) (L : list (Z * nat)) :
  0 < n -> Forall (fun wl => n <= 2 ^ Z.of_nat wl.2 * wl.1) L ->
  foldr Z.add 0 (map fst L) = n -> kraft (map snd L).
Proof.
  intros Hn HL Hsum. exists (max_list (map snd L)).
  assert (Hmax : Forall (fun l => (l <= max_list (map snd L))%nat) (map snd L)).
  { apply Forall_forall. intros l Hl. by apply max_list_elem_of_le. }
  split; [done|].
  pose proof (kraft_sum_weights n (max_list (map snd L)) L) as H.
  rewrite Hsum in H.
  assert (n * kraft_sum (max_list (map snd L)) (map snd L) <=
          2 ^ Z.of_nat (max_list (map snd L)) * n); [|nia].
  apply H. rewrite Forall_map in Hmax.
  rewrite Forall_forall in Hmax, HL |- *. intros wl Hin. split; [by apply Hmax|by apply HL].
Qed.

(** Shannon's length is less than one bit above [log2 (n / c)]. *)
Lemma shannon_term (n c : Z) :
  1 <= c -> c <= n ->
  (IZR c * INR (shannon_length n c) < IZR c * (log2 (IZR n / IZR c) + 1))%R.
Proof.
  intros Hc Hn. destruct (shannon_length_spec n c Hc Hn) as [_ Hl].
  pose proof ln_2_pos as H2.
  assert (Hc' : (0 < IZR c)%R) by (apply IZR_lt; lia).
  assert (Hn' : (IZR c <= IZR n)%R) by (by apply IZR_le).
  apply Rmult_lt_compat_l; [done|]. unfold log2.
  assert (Hge : (1 <= IZR n / IZR c)%R).
  { apply (Rmult_le_reg_r (IZR c)); [done|]. unfold Rdiv.
    rewrite Rmult_assoc, Rinv_l by lra. lra. }
  destruct (shannon_length n c) as [|l].
  - simpl. assert (0 <= ln (IZR n / IZR c))%R.
    { destruct (Rle_lt_or_eq_dec _ _ Hge) as [Hlt| <-]; [|rewrite ln_1; lra].
      pose proof (ln_increasing 1 _ ltac:(lra) Hlt) as H. rewrite ln_1 in H. lra. }
    assert (0 <= ln (IZR n / IZR c) / ln 2)%R; [|lra].
    apply Rmult_le_reg_r with (r := ln 2); [done|].
    unfold Rdiv. rewrite Rmult_assoc, Rinv_l by lra. lra.
  - destruct Hl as [|Hl]; [done|].
    replace (Z.of_nat (S l) - 1) with (Z.of_nat l) in Hl by lia.
    apply IZR_lt in Hl. rewrite mult_IZR, <- pow_IZR in Hl.
    assert (Hlt : (2 ^ l < IZR n / IZR c)%R).
    { apply (Rmult_lt_reg_r (IZR c)); [done|]. unfold Rdiv.
      rewrite Rmult_assoc, Rinv_l by lra. lra. }
    assert (Hp : (0 < 2 ^ l)%R) by (apply pow_lt; lra).
    pose proof (ln_increasing _ _ Hp Hlt) as Hln. rewrite ln_pow in Hln by lra.
    rewrite S_INR.
    assert (INR l < ln (IZR n / IZR c) / ln 2)%R; [|lra].
    apply Rmult_lt_reg_r with (r := ln 2); [done|].
    unfold Rdiv at 1. rewrite Rmult_assoc, Rinv_l by lra. lra.
Qed.

(** Shannon's lengths for the bytes of an input satisfy Kraft's inequality
    and take less than [n * (H + 1)] bits. *)
Lemma shannon_lengths (data : bytes) :
  0 < len data ->
  exists f : byte -> nat,
    kraft (map f (keys (Counter data))) /\
    (IZR (foldr (fun b acc => Z.of_nat (f b) + acc) 0 data)%Z <
     IZR (len data) * (entropy data + 1))%R.
Proof.
  intros Hn.
  set (f := fun s => shannon_length (len data) (default 1 (dict_get (Counter data) s))).
  assert (Hf : Forall (fun kv : byte * Z => f kv.1 = shannon_length (len data) kv.2)
                 (Counter data)).
  { apply Forall_forall. intros [s c] Hin. unfold f. simpl.
    rewrite (dict_get_In (Counter data) s c); [done|by apply list_elem_of_In|].
    apply NoDup_keys_Counter. }
  pose proof (Counter_bound data) as Hb.
  exists f. split.
  - pose proof (kraft_weights (len data)
                  (map (fun kv : byte * Z => (kv.2, f kv.1)) (Counter data)) Hn) as H.
    rewrite !map_map in H. simpl in H. unfold keys. rewrite map_map.
    apply H; [|apply Counter_sum].
    apply Forall_map. rewrite Forall_forall in Hf, Hb |- *.
    intros kv Hin. simpl. rewrite (Hf kv Hin).
    apply shannon_length_spec; apply (Hb kv Hin).
  - rewrite <- Counter_weighted, IZR_weighted_length, Rsum_map. simpl.
    rewrite Rmult_plus_distr_l, Rmult_1_r, entropy_scaled by done.
    apply Rlt_le_trans with
      (Rsum (fun kv : byte * Z =>
               IZR kv.2 * log2 (IZR (len data) / IZR kv.2) + IZR kv.2) (Counter data))%R.
    + apply Rsum_lt.
      * intros Hnil. pose proof (Counter_sum data) as Hs. rewrite Hnil in Hs.
        simpl in Hs. lia.
      * rewrite Forall_forall in Hf, Hb |- *. intros kv Hin. rewrite (Hf kv Hin).
        pose proof (shannon_term (len data) kv.2 ltac:(apply (Hb kv Hin))
                      ltac:(apply (Hb kv Hin))) as H.
        lra.
    + rewrite Rsum_plus, <- (Rsum_map snd IZR), <- IZR_sum, Counter_sum. lra.
Qed.

(** The entropy bound: for an input of [n] bytes with two different bytes or
    more, the code bits of [huffman_encode] (the concatenated codes, before
    padding) number at least [n * H] and less than [n * (H + 1)], where [H]
    is the empirical zeroth-order entropy of the input. *)
Theorem huffman_bits_entropy (data : bytes) :
  codable data ->
  exists bitstr,
    archiver_huffman.huffman_bits data = Ok bitstr /\
    (IZR (len data) * entropy data <= IZR (len bitstr) <
     IZR (len data) * (entropy data + 1))%R.
Proof.
  intros Hc.
  assert (Hn : 0 < len data).
  { destruct Hc as [(a & _ & Ha & _) _]. unfold len. destruct data; [|simpl; lia].
    by apply elem_of_nil in Ha. }
  destruct (huffman_codes data Hc)
    as (root & cb & bitstr & _ & _ & _ & _ & _ & Hcodes & Hjoin & Hbits).
  exists bitstr. split; [done|]. split.
  - rewrite (length_join_codes _ _ _ Hjoin).
    apply (entropy_lower data (fun b => length (default [] (dict_get cb b))) Hn).
    rewrite <- (map_map (fun b => default [] (dict_get cb b)) length).
    apply prefix_free_kraft, prefix_free_map; [apply NoDup_keys_Counter|].
    intros a b Ha Hb Hne [q Hq].
    assert (Ha' : a ∈ data) by (by apply list_elem_of_In, keys_Counter, list_elem_of_In).
    assert (Hb' : b ∈ data) by (by apply list_elem_of_In, keys_Counter, list_elem_of_In).
    destruct (Hcodes a Ha') as (pa & Hpa & Hgeta).
    destruct (Hcodes b Hb') as (pb & Hpb & Hgetb).
    rewrite Hgeta, Hgetb in Hq. simpl in Hq. subst pb.
    by destruct (code_at_prefix _ _ _ _ _ Hpa Hpb).
  - destruct (shannon_lengths data Hn) as (f & Hk & Hlt).
    destruct (huffman_bits_least data f Hc Hk) as (bitstr' & Hbits' & Hle).
    assert (bitstr' = bitstr) as -> by congruence.
    apply IZR_le in Hle. lra.
Qed.

Lemma huffman_bits_entropy_witness :
  exists bitstr,
    archiver_huffman.huffman_bits [x61; x62; x61] = Ok bitstr /\
    (IZR (len [x61; x62; x61]) * entropy [x61; x62; x61] <= IZR (len bitstr) <
     IZR (len [x61; x62; x61]) * (entropy [x61; x62; x61] + 1))%R.
Proof. exact (huffman_bits_entropy [x61; x62; x61] codable_aba). Defined.

(** ** The two decoders compared *)

Lemma dict_set_not_nil {K V} `{EqDecision K} (d : dict K V) (k : K) (v : V) :
  dict_set d k v <> [].
Proof. destruct d as [|[k' v'] d]; simpl; [done|]. by case_decide. Qed.

Lemma read_table_not_nil (n : nat) (service : bytes) (offset : nat)
    (freqs table : dict byte Z) :
  read_table n service offset freqs = Ok table -> (0 < n)%nat \/ freqs <> [] ->
  table <> [].
Proof.
  revert offset freqs. induction n as [|n IH]; intros offset freqs H Hne; simpl in H.
  - destruct Hne; [lia|congruence].
  - destruct (unpack_from_BI service offset) as [[sym fr]|]; [|done]. simpl in H.
    apply (IH _ _ H). right. apply dict_set_not_nil.
Qed.

(** Before [orig_size] bytes are out, the test [len(out) == orig_size] of
    the archiver and the test [len(out) >= orig_size] of the universal
    decoder stop the loop at the same bit. *)
Lemma decode_walk_stop_agree (orig_size : Z) (root : Node) (bitstr : bits) :
  forall (node : Node) (out : bytes), len out < orig_size ->
  decode_walk (fun n => bool_decide (orig_size <= n)) root bitstr node out =
  decode_walk (fun n => bool_decide (n = orig_size)) root bitstr node out.
Proof.
  induction bitstr as [|bit rest IH]; intros node out Hlen; [done|].
  cbn [decode_walk].
  destruct (if bit then right node else left node) as [node'|]; [|done].
  destruct (symbol node') as [s|]; [|by apply IH].
  assert (Hl : len (out ++ [s]) = len out + 1).
  { unfold len. rewrite length_app. simpl. lia. }
  destruct (decide (len (out ++ [s]) = orig_size)) as [Heq|Hne].
  - rewrite !bool_decide_eq_true_2 by lia. done.
  - rewrite !bool_decide_eq_false_2 by lia. apply IH. lia.
Qed.

Lemma decode_walk_length (orig_size : Z) (root : Node) (bitstr : bits) :
  forall (node : Node) (out res : bytes), len out < orig_size ->
  decode_walk (fun n => bool_decide (orig_size <= n)) root bitstr node out = Ok res ->
  len res <= orig_size.
Proof.
  induction bitstr as [|bit rest IH]; intros node out res Hlen H.
  - simpl in H. simplify_eq. lia.
  - cbn [decode_walk] in H.
    destruct (if bit then right node else left node) as [node'|]; [|done].
    destruct (symbol node') as [s|]; [|by eapply IH].
    assert (Hl : len (out ++ [s]) = len out + 1).
    { unfold len. rewrite length_app. simpl. lia. }
    case_bool_decide as Hstop.
    + simplify_eq. lia.
    + eapply IH; [|exact H]. lia.
Qed.

(** On a service blob that declares at least one symbol, and for an
    [orig_size] of at least 1, [huffman_decode_bytes] of the universal
    decoder and [huffman_decode] of the archiver do the same: the same bytes,
    or the same exception. *)
Theorem decoders_agree (encoded service : bytes) (orig_size : Z) :
  (4 <= length service)%nat -> le_int (take 2 (drop 2 service)) <> 0 ->
  1 <= orig_size ->
  universal_decoder.huffman_decode_bytes encoded service orig_size =
  archiver_huffman.huffman_decode encoded service orig_size.
Proof.
  intros Hlen Hsyms Hsize.
  unfold universal_decoder.huffman_decode_bytes, archiver_huffman.huffman_decode.
  rewrite decide_False by (unfold len; lia).
  rewrite !unpack_from_uint_ok by lia. cbn [mbind result_bind].
  pose proof (le_int_nonneg (take 2 (drop 2 service))) as Hnn.
  destruct (read_table _ service 4 []) as [freqs|] eqn:Htable; [|done].
  cbn [mbind result_bind].
  apply read_table_not_nil in Htable; [|left; lia].
  rewrite universal_build_huffman_tree by done.
  destruct (archiver_huffman.build_huffman_tree freqs) as [root|]; [|done].
  cbn [mbind result_bind mret result_ret].
  rewrite decode_walk_stop_agree by (unfold len; simpl; lia).
  destruct (decode_walk _ root _ root []) as [res|] eqn:Hwalk; [|done].
  cbn [mbind result_bind]. f_equal.
  rewrite <- decode_walk_stop_agree in Hwalk by (unfold len; simpl; lia).
  apply decode_walk_length in Hwalk; [|unfold len; simpl; lia].
  unfold slice_to. rewrite decide_True by lia. apply take_ge. unfold len in Hwalk. lia.
Qed.

Lemma decoders_agree_witness :
  universal_decoder.huffman_decode_bytes [x40] table_AB 2 =
  archiver_huffman.huffman_decode [x40] table_AB 2.
Proof.
  apply (decoders_agree [x40] table_AB 2); [simpl; lia|by vm_compute|lia].
Defined.

(** ** What the adaptive selector saves *)

(** In adaptive mode, on an input with two different bytes or more, the
    selector returns, and what it returns is never larger than the input:
    either the input itself, stored, or a Huffman payload whose length and
    that of its service blob (checksum included) together stay below the
    length of the input.  Inputs of 16 bytes or fewer are always stored: the
    table of two symbols alone takes 14 bytes. *)
Theorem adaptive_selector_size (X : Externals) (data : bytes) (enable_crc : bool) :
  codable data ->
  exists codec payload service size,
    intelligent_encode_file X data None enable_crc =
      Ok (Some (codec, payload, service, size)) /\
    (codec = 0 /\ payload = data /\ service = [] \/
     codec = 3 /\ 16 < len data /\ len payload + len service < len data).
Proof.
  intros Hc.
  destruct (huffman_encode_explicit data Hc)
    as (root & bitstr & encoded & _ & _ & Hbits & _ & Hpad & Hlen & _ & Henc).
  set (meta := (le_bytes 2 _ ++ _)) in Henc.
  pose proof (huffman_service_length _ _ _ Hc Henc) as Hservice. clearbody meta.
  destruct (codable_Counter data Hc) as [Hk _].
  destruct (huffman_bits_at_least_one data Hc) as (bitstr' & Hbits' & Hlow).
  assert (bitstr' = bitstr) as -> by congruence.
  cbv zeta in Hpad, Hlen.
  assert (Hk' : 2 <= len (Counter data)) by (unfold len; lia).
  unfold intelligent_encode_file. rewrite Henc. cbn [mbind result_bind]. cbv zeta.
  destruct enable_crc.
  - case_decide as Hcmp.
    + eexists _, _, _, _. split; [done|]. by left.
    + rewrite pack_crc_ok. cbn [mbind result_bind].
      eexists _, _, _, _. split; [done|]. right.
      assert (Hl : len (meta ++ le_bytes 4 (Z.land (crc32 X data) 4294967295)) =
                   len meta + 4).
      { unfold len. rewrite length_app, length_le_bytes. lia. }
      rewrite Hl. lia.
  - case_decide as Hcmp.
    + eexists _, _, _, _. split; [done|]. by left.
    + eexists _, _, _, _. split; [done|]. right. lia.
Qed.

Lemma adaptive_selector_size_witness :
  exists codec payload service size,
    intelligent_encode_file py [x61; x62; x61] None true =
      Ok (Some (codec, payload, service, size)) /\
    (codec = 0 /\ payload = [x61; x62; x61] /\ service = [] \/
     codec = 3 /\ 16 < len [x61; x62; x61] /\
     len payload + len service < len [x61; x62; x61]).
Proof. exact (adaptive_selector_size py [x61; x62; x61] true codable_aba). Defined.

(** ** The tree and the decoders on any table *)

(** [build_huffman_tree] on any table of two rows or more, such as a decoder
    reads from a service blob: it returns a tree whose leaves are the rows
    of the table, in which every node without a symbol has two children and
    the sum of their frequencies; the frequency of the root is the sum of all
    counts. *)
Theorem build_huffman_tree_shape (freqs : dict byte Z) :
  (2 <= length freqs)%nat ->
  exists root,
    archiver_huffman.build_huffman_tree freqs = Ok root /\
    universal_decoder.build_huffman_tree freqs = Ok (Some root) /\
    summed root /\ symbol root = None /\ leaf_table root ≡ₚ freqs /\
    freq root = foldr Z.add 0 (map snd freqs).
Proof.
  intros Hlen.
  destruct (build_huffman_tree_cost freqs Hlen) as (root & Htree & Hsum & Htable & _).
  destruct (build_huffman_tree_full freqs Hlen) as (root' & Htree' & _ & Hinner & _).
  assert (root' = root) as -> by congruence.
  exists root. split_and!; try done.
  - rewrite universal_build_huffman_tree, Htree; [done|].
    intros ->. simpl in Hlen. lia.
  - rewrite (freq_leaf_table root Hsum).
    apply (Permutation_map snd) in Htable. clear -Htable.
    induction Htable; simpl in *; lia.
Qed.

Lemma build_huffman_tree_shape_witness :
  exists root,
    archiver_huffman.build_huffman_tree [(x41, 3); (x42, 1); (x43, 1)] = Ok root /\
    universal_decoder.build_huffman_tree [(x41, 3); (x42, 1); (x43, 1)] = Ok (Some root) /\
    summed root /\ symbol root = None /\
    leaf_table root ≡ₚ [(x41, 3); (x42, 1); (x43, 1)] /\
    freq root = foldr Z.add 0 (map snd [(x41, 3); (x42, 1); (x43, 1)]).
Proof.
  apply (build_huffman_tree_shape [(x41, 3); (x42, 1); (x43, 1)]). simpl. lia.
Defined.

(** In a tree where every node without a symbol has two children the
    decoding walk cannot fail, whatever the bits. *)
Lemma decode_walk_total (stop : Z -> bool) (root : Node) (bitstr : bits) :
  full_tree root -> symbol root = None ->
  forall (node : Node) (out : bytes), full_tree node -> symbol node = None ->
  exists res, decode_walk stop root bitstr node out = Ok res.
Proof.
  intros Hroot Hinner. induction bitstr as [|bit rest IH]; intros node out Hnode Hsym.
  - by exists out.
  - cbn [decode_walk]. destruct Hnode as [fr s l r|fr a b Ha Hb]; [done|].
    assert (Hchild : exists c, (if bit then right (mkNode fr None (Some a) (Some b))
                                 else left (mkNode fr None (Some a) (Some b))) = Some c /\
                               full_tree c).
    { destruct bit; [by exists b|by exists a]. }
    destruct Hchild as (c & -> & Hc).
    destruct (symbol c) as [s|] eqn:Hs.
    + destruct (stop _); [by eexists|]. by apply IH.
    + by apply IH.
Qed.

(** With a table of two symbols or more in the service blob, neither
    decoder raises, whatever the payload and whatever [orig_size]: a damaged
    payload is decoded to some bytes, and only a checksum can tell. *)
Theorem huffman_decode_returns (encoded service : bytes) (orig_size : Z)
    (freqs : dict byte Z) :
  (4 <= length service)%nat ->
  read_table (Z.to_nat (le_int (take 2 (drop 2 service)))) service 4 [] = Ok freqs ->
  (2 <= length freqs)%nat ->
  (exists out, archiver_huffman.huffman_decode encoded service orig_size = Ok out) /\
  (exists out, universal_decoder.huffman_decode_bytes encoded service orig_size = Ok out).
Proof.
  intros Hlen Htable Hk.
  destruct (build_huffman_tree_full freqs Hk) as (root & Htree & Hfull & Hinner & _).
  unfold universal_decoder.huffman_decode_bytes, archiver_huffman.huffman_decode.
  rewrite decide_False by (unfold len; lia).
  rewrite !unpack_from_uint_ok by lia. cbn [mbind result_bind].
  rewrite Htable. cbn [mbind result_bind].
  rewrite universal_build_huffman_tree by (intros ->; simpl in Hk; lia).
  rewrite Htree. cbn [mbind result_bind mret result_ret].
  split.
  - apply decode_walk_total; done.
  - destruct (decode_walk_total (fun n => bool_decide (orig_size <= n)) root
                (bitstr_of encoded (le_int (take 2 (drop 0 service)))) Hfull Hinner
                root [] Hfull Hinner) as [res ->].
    by eexists.
Qed.

Lemma huffman_decode_returns_witness :
  (exists out, archiver_huffman.huffman_decode [xff; x00] table_AB 5 = Ok out) /\
  (exists out, universal_decoder.huffman_decode_bytes [xff; x00] table_AB 5 = Ok out).
Proof.
  apply (huffman_decode_returns [xff; x00] table_AB 5 [(x41, 1); (x42, 1)]);
    [simpl; lia|by vm_compute|simpl; lia].
Defined.

(** ** Runs in a world *)

Lemma perform_app (w : world) (made a b : list event) :
  perform w made (a ++ b) =
    match perform w made a with
    | (made1, None) => perform w made1 b
    | (made1, Some e) => (made1, Some e)
    end.
Proof.
  revert made. induction a as [|call a IH]; intros made; simpl; [done|].
  destruct (w made call); [done|]. apply IH.
Qed.

(** The calls made are calls of the computation, in its order. *)
Lemma perform_prefix (w : world) (pre todo : list event) :
  exists made, (perform w pre todo).1 = pre ++ made /\ made `prefix_of` todo /\
    ((perform w pre todo).2 = None -> made = todo).
Proof.
  revert pre. induction todo as [|call todo IH]; intros pre; simpl.
  - exists []. by rewrite app_nil_r.
  - destruct (w pre call).
    + exists []. rewrite app_nil_r. split_and!; [done|apply prefix_nil|done].
    + destruct (IH (pre ++ [call])) as (made & Hmade & Hpre & Hall).
      exists (call :: made). rewrite Hmade, <- app_assoc.
      split_and!; [done|by apply prefix_cons|]. intros H. by rewrite (Hall H).
Qed.

Lemma perform_Forall (P : event -> Prop) (w : world) (pre todo : list event) :
  Forall P pre -> Forall P todo -> Forall P (perform w pre todo).1.
Proof.
  intros Hdone Htodo.
  destruct (perform_prefix w pre todo) as (made & -> & [k ->] & _).
  apply Forall_app in Htodo as [Hmade _]. by apply Forall_app.
Qed.

(** In a world that lets every call through nothing is lost. *)
Lemma perform_accepting (w : world) (pre todo : list event) :
  (forall made call, w made call = None) ->
  perform w pre todo = (pre ++ todo, None).
Proof.
  intros Hw. revert pre. induction todo as [|call todo IH]; intros pre; simpl.
  - by rewrite app_nil_r.
  - rewrite Hw, IH, <- app_assoc. done.
Qed.

Lemma run_in_accepting (w : world) (m : io unit) (file : bytes) :
  (forall made call, w made call = None) -> run_in w m file = run m file.
Proof.
  intros Hw. unfold run_in, run, in_world. rewrite perform_accepting by done.
  by destruct (m file) as [evs [[]|]].
Qed.

(** A world acts on a computation call by call: running [m] and then [f]
    in the world is running [m] in it and, when that goes through, [f]
    after it. *)
Lemma in_world_bind {A B} (w : world) (pre : list event) (m : io A) (f : A -> io B)
    (rest : bytes) :
  in_world w pre ((m ≫= f) rest) =
    match in_world w pre (m rest) with
    | (made1, Ok (a, rest')) => in_world w made1 (f a rest')
    | (made1, Err e) => (made1, Err e)
    end.
Proof.
  unfold in_world, mbind, io_bind.
  destruct (m rest) as [evs [[a rest']|e]]; simpl.
  - destruct (perform w pre evs) as [made1 [e|]] eqn:Hpre; simpl.
    + destruct (f a rest') as [evs' r]. simpl. by rewrite perform_app, Hpre.
    + destruct (f a rest') as [evs' r]. simpl. by rewrite perform_app, Hpre.
  - by destruct (perform w pre evs) as [made1 [e'|]].
Qed.

(** When the calls of a run are known, so is the run in any world. *)
Lemma run_in_calls (w : world) (m : io unit) (file : bytes) (calls : list event) :
  run m file = (calls, None) -> run_in w m file = perform w [] calls.
Proof.
  unfold run, run_in, in_world. destruct (m file) as [evs [[]|]]; [|done].
  intros [= ->]. simpl. by destruct (perform w [] calls) as [made1 [e|]].
Qed.


Lemma in_world_calls {A} (w : world) (pre calls : list event) (r : result A) :
  in_world w pre (calls, r) =
    match perform w pre calls with
    | (made1, Some e) => (made1, Err e)
    | (made1, None) => (made1, r)
    end.
Proof. reflexivity. Qed.

Lemma io_bind_ext {A B} (m : io A) (f g : A -> io B) (rest : bytes) :
  (forall a rest', f a rest' = g a rest') -> (m ≫= f) rest = (m ≫= g) rest.
Proof.
  intros H. unfold mbind, io_bind. destruct (m rest) as [evs [[a rest']|]]; [|done].
  by rewrite H.
Qed.

Lemma for_each_ext {A} (f g : A -> io unit) (l : list A) (rest : bytes) :
  (forall a rest', f a rest' = g a rest') -> for_each f l rest = for_each g l rest.
Proof.
  intros H. revert rest. induction l as [|a l IH]; intros rest; [done|].
  rewrite !for_each_cons, H. destruct (g a rest) as [evs [[[] rest']|]]; [|done].
  by rewrite IH.
Qed.

Section emits_only.
Context (P : event -> Prop).

Lemma emits_only_ret {A} (a : A) : emits_only P (mret a).
Proof. intros rest. constructor. Qed.

Lemma emits_only_bind {A B} (m : io A) (f : A -> io B) :
  emits_only P m -> (forall a, emits_only P (f a)) -> emits_only P (m ≫= f).
Proof.
  intros Hm Hf rest. unfold mbind, io_bind. specialize (Hm rest).
  destruct (m rest) as [evs [[a rest']|]]; [|done].
  specialize (Hf a rest'). destruct (f a rest') as [evs' r]. simpl in *.
  by apply Forall_app.
Qed.

Lemma emits_only_emit (e : event) : P e -> emits_only P (emit e).
Proof. intros He rest. by repeat constructor. Qed.

Lemma emits_only_lift {A} (r : result A) : emits_only P (lift r).
Proof. intros rest. unfold lift. destruct r; constructor. Qed.

Lemma emits_only_raise {A} (e : exn) : emits_only P (raise e : io A).
Proof. intros rest. constructor. Qed.

Lemma emits_only_f_read (n : Z) : emits_only P (f_read n).
Proof. intros rest. unfold f_read. case_decide; constructor. Qed.

Lemma emits_only_read_uint (w : nat) : emits_only P (read_uint w).
Proof.
  apply emits_only_bind; [apply emits_only_f_read|]. intros b. apply emits_only_lift.
Qed.

Lemma emits_only_read_u8 : emits_only P read_u8.
Proof.
  apply emits_only_bind; [apply emits_only_f_read|].
  intros [|x b]; [apply emits_only_raise|apply emits_only_ret].
Qed.

Lemma emits_only_read_entry (X : Externals) : emits_only P (read_entry X).
Proof.
  unfold read_entry.
  repeat (apply emits_only_bind;
            [first [apply emits_only_read_u8 | apply emits_only_read_uint
                   | apply emits_only_f_read | apply emits_only_lift
                   | case_decide; [apply emits_only_ret|apply emits_only_f_read]]
            |intros ?]).
  apply emits_only_ret.
Qed.

Lemma emits_only_read_entries (X : Externals) (n : nat) : emits_only P (read_entries X n).
Proof.
  induction n as [|n IH]; simpl; [apply emits_only_ret|].
  apply emits_only_bind; [apply emits_only_read_entry|]. intros e.
  apply emits_only_bind; [apply IH|]. intros es. apply emits_only_ret.
Qed.

Lemma emits_only_read_stored (e : entry_meta) : emits_only P (read_stored e).
Proof. unfold read_stored. case_decide; [apply emits_only_ret|apply emits_only_f_read]. Qed.

Lemma emits_only_for_each {A} (body : A -> io unit) (l : list A) :
  (forall a, emits_only P (body a)) -> emits_only P (for_each body l).
Proof.
  intros H. induction l as [|a l IH]; simpl; [apply emits_only_ret|].
  apply emits_only_bind; [apply H|]. intros _. apply IH.
Qed.

End emits_only.

Lemma restore_unverified_quiet (d : decoder_id) (decompress : bytes -> result bytes)
    (files_only : bool) (outdir : Path) (e : entry_meta) :
  emits_only no_report (restore_unverified d decompress files_only outdir e).
Proof.
  unfold restore_unverified.
  apply emits_only_bind; [by apply emits_only_emit|]. intros _.
  apply emits_only_bind; [apply emits_only_read_stored|]. intros stored.
  destruct (_ && _); [apply emits_only_ret|].
  apply emits_only_bind; [apply emits_only_lift|]. intros raw.
  apply emits_only_bind; [by apply emits_only_emit|]. intros _.
  by apply emits_only_emit.
Qed.

(** ** The v2 paths and the checksum *)

Lemma decode_v2_entry_unverified (X : Externals) (h : header) (outdir : Path)
    (e : entry_meta) (rest : bytes) :
  alg_noctx h <> 3 ->
  decode_v2_entry X h outdir e rest =
  restore_unverified V2 (if decide (alg_noctx h = 2) then zlib_decompress X else Ok)
    false outdir e rest.
Proof.
  intros Hcodec. unfold decode_v2_entry, restore_unverified. io_unfold.
  destruct (read_stored e rest) as [evs [[stored rest']|err]]; [|done].
  rewrite decide_False by done. simpl.
  destruct (decide (alg_noctx h = 2)); [|done].
  by destruct (zlib_decompress X stored).
Qed.

Lemma extract_entry_unverified (X : Externals) (h : header) (outdir : Path)
    (e : entry_meta) (rest : bytes) :
  alg_noctx h <> 3 ->
  extract_entry X h outdir e rest = restore_unverified Extract Ok true outdir e rest.
Proof.
  intros Hcodec. unfold extract_entry, restore_unverified. io_unfold.
  unfold archiver_huffman.ENTRY_FILE, archiver_huffman.ALG_NOCTX_HUFFMAN.
  destruct (read_stored e rest) as [evs [[stored rest']|err]]; [|done].
  simpl. destruct (decide (entry_type e = 1)) as [Hfile|Hfile].
  - rewrite bool_decide_eq_true_2 by done. simpl. by rewrite decide_False by done.
  - by rewrite bool_decide_eq_false_2 by done.
Qed.

(** After the header, a table-driven decoder is the loop over the entries
    the table holds. *)
Lemma decoder_after_header (X : Externals) (outdir : Path)
    (step : header -> entry_meta -> io unit) (archive rest : bytes) (h : header) :
  read_header archive = ([], Ok (h, rest)) ->
  (h' ← read_header;
   entries_meta ← read_entries X (Z.to_nat (num_entries h'));
   emit (EMkdir outdir);;
   for_each (step h') entries_meta) archive =
  (entries_meta ← read_entries X (Z.to_nat (num_entries h));
   emit (EMkdir outdir);;
   for_each (step h) entries_meta) rest.
Proof.
  intros Hhead. unfold mbind at 1, io_bind at 1. rewrite Hhead.
  match goal with |- (let '(_, _) := ?x in _) = _ => by destruct x end.
Qed.

Lemma unverified_loop_quiet (X : Externals) (n : nat) (outdir : Path) (d : decoder_id)
    (decompress : bytes -> result bytes) (files_only : bool) :
  emits_only no_report
    (entries_meta ← read_entries X n;
     emit (EMkdir outdir);;
     for_each (restore_unverified d decompress files_only outdir) entries_meta).
Proof.
  apply emits_only_bind; [apply emits_only_read_entries|]. intros es.
  apply emits_only_bind; [by apply emits_only_emit|]. intros _.
  apply emits_only_for_each. intros e. apply restore_unverified_quiet.
Qed.

Lemma run_in_Forall (P : event -> Prop) (w : world) (m : io unit) (file : bytes) :
  emits_only P m -> Forall P (run_in w m file).1.
Proof.
  intros Hm. unfold run_in, in_world. specialize (Hm file).
  pose proof (perform_Forall P w [] (m file).1 ltac:(constructor) Hm) as H.
  destruct (perform w [] (m file).1) as [made [e|]]; simpl in *; [done|].
  by destruct (m file).2.
Qed.

(** C10.  In the v2 paths the checksum has a part only in the Huffman
    branch.  On any archive whose header gives another codec, [decode_v2]
    and [extract_archive] are the loop that restores each entry from its
    stored bytes alone ([zlib.decompress] of them for codec 2 in
    [decode_v2]): neither [crc32], nor the service blob, nor the protection
    tag has a part in it, and no mismatch is reported, in whatever world the
    decoder runs. *)
Theorem store_and_zlib_entries_unverified (X : Externals) (w : world) (outdir : Path)
    (archive rest : bytes) (h : header) :
  read_header archive = ([], Ok (h, rest)) -> alg_noctx h <> 3 ->
  run_in w (decode_v2 X outdir) archive =
    run_in w (entries_meta ← read_entries X (Z.to_nat (num_entries h));
              emit (EMkdir outdir);;
              for_each (restore_unverified V2
                          (if decide (alg_noctx h = 2) then zlib_decompress X else Ok)
                          false outdir) entries_meta) rest /\
  run_in w (extract_archive X outdir) archive =
    run_in w (entries_meta ← read_entries X (Z.to_nat (num_entries h));
              emit (EMkdir outdir);;
              for_each (restore_unverified Extract Ok true outdir) entries_meta) rest /\
  Forall no_report (run_in w (decode_v2 X outdir) archive).1 /\
  Forall no_report (run_in w (extract_archive X outdir) archive).1.
Proof.
  intros Hhead Hcodec.
  assert (H2 : decode_v2 X outdir archive =
    (entries_meta ← read_entries X (Z.to_nat (num_entries h));
     emit (EMkdir outdir);;
     for_each (restore_unverified V2
                 (if decide (alg_noctx h = 2) then zlib_decompress X else Ok)
                 false outdir) entries_meta) rest).
  { unfold decode_v2.
    rewrite (decoder_after_header X outdir (fun h => decode_v2_entry X h outdir)
               archive rest h Hhead).
    apply io_bind_ext. intros es rest1. apply io_bind_ext. intros _ rest2.
    apply for_each_ext. intros e rest3. by apply decode_v2_entry_unverified. }
  assert (HX : extract_archive X outdir archive =
    (entries_meta ← read_entries X (Z.to_nat (num_entries h));
     emit (EMkdir outdir);;
     for_each (restore_unverified Extract Ok true outdir) entries_meta) rest).
  { unfold extract_archive.
    rewrite (decoder_after_header X outdir (fun h => extract_entry X h outdir)
               archive rest h Hhead).
    apply io_bind_ext. intros es rest1. apply io_bind_ext. intros _ rest2.
    apply for_each_ext. intros e rest3. by apply extract_entry_unverified. }
  assert (R2 : run_in w (decode_v2 X outdir) archive = run_in w _ rest)
    by (unfold run_in; by rewrite H2).
  assert (RX : run_in w (extract_archive X outdir) archive = run_in w _ rest)
    by (unfold run_in; by rewrite HX).
  split_and!; [exact R2|exact RX|..].
  - rewrite R2. apply run_in_Forall, unverified_loop_quiet.
  - rewrite RX. apply run_in_Forall, unverified_loop_quiet.
Qed.

Lemma store_and_zlib_entries_unverified_witness :
  build_archive py [hi_entry] false true = Ok store_archive /\
  Z.land (crc32 py [x68; x68]) 4294967295 <>
    Z.land (crc32 py (fe_raw hi_entry)) 4294967295 /\
  run_in (fun _ _ => None) (decode_v2 py out_dir) tampered_store_archive =
    ([EMkdir out_dir; EMkdir out_dir; EWrite (Path_of "out/a.txt") [x68; x68];
      EPrint (MsgRestored V2 "a.txt")], None) /\
  run_in (fun _ _ => None) (extract_archive py out_dir) tampered_store_archive =
    ([EMkdir out_dir; EMkdir out_dir; EWrite (Path_of "out/a.txt") [x68; x68];
      EPrint (MsgRestored Extract "a.txt")], None).
Proof.
  split; [by vm_compute|]. split; [by vm_compute|].
  destruct (store_and_zlib_entries_unverified py (fun _ _ => None) out_dir
              tampered_store_archive (drop 26 tampered_store_archive)
              {| version := 2; alg_ctx := 0; alg_noctx := 0; alg_prot := 11;
                 header_size := 58; num_entries := 1 |})
    as (H2 & HX & _).
  - by vm_compute.
  - done.
  - rewrite H2, HX. split; by vm_compute.
Defined.

(** ** Archives of stored entries *)

(** The parts of an archive written by [build_archive]. *)
Lemma build_archive_parts (X : Externals) (entries : list file_entry)
    (huffman crc : bool) (archive : bytes) :
  Forall (fun ent => utf8_valid X (str_encode (fe_relpath ent)) = true) entries ->
  build_archive X entries huffman crc = Ok archive ->
  exists head table coded h,
    archive = head ++ table ++ concat (map fst coded) /\
    parses read_header head h /\
    parses (read_entries X (Z.to_nat (num_entries h))) table
      (zip_with entry_meta_of entries coded) /\
    Forall2 (fun ent c => encode_entry X huffman crc ent = Ok c) entries coded /\
    alg_noctx h = (if huffman then 3 else 0) /\ alg_prot h = (if crc then 11 else 0).
Proof.
  intros Hentries Hbuild. unfold build_archive in Hbuild.
  destruct (encode_entries X huffman crc entries) as [coded|] eqn:Hcoded; [|done].
  cbn [mbind result_bind] in Hbuild.
  destruct (build_table entries coded) as [table|] eqn:Htable; [|done].
  cbn [mbind result_bind] in Hbuild.
  destruct (pack_header _ _ _ _ _ _ _ _) as [head|] eqn:Hhead; [|done].
  cbn [mbind result_bind] in Hbuild.
  assert (archive = head ++ table ++ concat (map fst coded)) as -> by congruence.
  apply encode_entries_Forall2 in Hcoded.
  apply parses_read_header in Hhead; [|done..].
  eexists head, table, coded, _. split_and!; [done|exact Hhead| |done|..].
  - cbn [num_entries]. unfold len. rewrite Nat2Z.id.
    apply parses_read_entries; [by apply Forall2_length in Hcoded|done|done].
  - by destruct huffman.
  - by destruct crc.
Qed.

(** The loop over stored entries, on blocks that have the lengths the table
    gives but need not be the bytes the archive was written with. *)
Lemma for_each_altered (step : entry_meta -> io unit) (d : decoder_id) (outdir : Path)
    (entries altered : list file_entry) (coded : list (bytes * bytes)) :
  Forall2 (fun ent alt => fe_relpath alt = fe_relpath ent /\
                          length (fe_raw alt) = length (fe_raw ent)) entries altered ->
  Forall2 (fun ent c =>
             forall stored rest, length stored = length (fe_raw ent) ->
               step (entry_meta_of ent c) (stored ++ rest) =
                 ([EMkdir (parent (joinpath outdir (Path_of (fe_relpath ent))));
                   EWrite (joinpath outdir (Path_of (fe_relpath ent))) stored;
                   EPrint (MsgRestored d (fe_relpath ent))], Ok (tt, rest)))
    entries coded ->
  forall rest,
    for_each step (zip_with entry_meta_of entries coded)
      (concat (map fe_raw altered) ++ rest) =
      (restore_events d outdir altered, Ok (tt, rest)).
Proof.
  intros Hsame. revert coded.
  induction Hsame as [|ent alt entries altered [Hname Hlen] _ IH];
    intros coded Hsteps rest.
  - by inversion Hsteps.
  - inversion Hsteps as [|? c ? coded' Hstep Hsteps']; subst.
    cbn [zip_with map concat]. rewrite for_each_cons, <- app_assoc.
    rewrite (Hstep _ _ Hlen), (IH _ Hsteps').
    unfold restore_events. simpl. by rewrite Hname.
Qed.

Section store_archives.
Context (X : Externals) (outdir : Path) (crc : bool).
Context (step : header -> entry_meta -> io unit) (d : decoder_id).
Context (Hstep : forall h e stored rest,
  alg_noctx h = 0 -> alg_prot h = (if crc then 11 else 0) ->
  entry_type e = 1 -> (crc = false -> service e = []) ->
  stored_size e = len stored ->
  step h e (stored ++ rest) =
    ([EMkdir (parent (joinpath outdir (Path_of (relpath e))));
      EWrite (joinpath outdir (Path_of (relpath e))) stored;
      EPrint (MsgRestored d (relpath e))], Ok (tt, rest))).

(** A decoder on an archive of stored entries whose blocks were replaced
    by others of the same lengths: it makes the calls that restore the
    blocks it finds. *)
Lemma store_archive_calls (entries altered : list file_entry) (archive : bytes) :
  Forall (fun ent => fe_type ent = 1 /\
                     utf8_valid X (str_encode (fe_relpath ent)) = true) entries ->
  build_archive X entries false crc = Ok archive ->
  Forall2 (fun ent alt => fe_relpath alt = fe_relpath ent /\
                          length (fe_raw alt) = length (fe_raw ent)) entries altered ->
  run (h ← read_header;
       entries_meta ← read_entries X (Z.to_nat (num_entries h));
       emit (EMkdir outdir);;
       for_each (step h) entries_meta)
    (take (length archive - length (concat (map fe_raw entries))) archive ++
     concat (map fe_raw altered)) =
    (EMkdir outdir :: restore_events d outdir altered, None).
Proof.
  intros Hentries Hbuild Hsame.
  destruct (build_archive_parts X entries false crc archive) as
    (head & table & coded & h & -> & Hhead & Htable & Hcoded & Hnoctx & Hprot);
    [eapply Forall_impl; [exact Hentries|]; simpl; tauto|done|].
  assert (Hraw : map fst coded = map fe_raw entries).
  { clear -Hcoded. induction Hcoded as [|ent [stored service] entries coded Henc _ IH];
      [done|].
    apply encode_entry_inv in Henc as (service0 & [-> _] & _). simpl. by rewrite IH. }
  rewrite Hraw.
  replace (length (head ++ table ++ concat (map fe_raw entries)) -
           length (concat (map fe_raw entries)))%nat with (length (head ++ table))
    by (rewrite !length_app; lia).
  rewrite (app_assoc head table), take_app_length, <- app_assoc.
  etrans; [apply (decoder_opens X outdir step head table _ h _ Hhead Htable)|].
  rewrite <- (app_nil_r (concat _)).
  rewrite (for_each_altered (step h) d outdir entries altered coded Hsame); [done|].
  clear -Hentries Hcoded Hnoctx Hprot Hstep.
  induction Hcoded as [|ent [stored service] entries coded Henc _ IH]; [constructor|].
  apply Forall_cons in Hentries as [[Htype _] Hentries].
  constructor; [|by apply IH]. intros stored' rest Hlen.
  apply encode_entry_inv in Henc as (service0 & [-> ->] & ->).
  apply (Hstep h (entry_meta_of ent (fe_raw ent, _)) stored' rest); try done.
  - by intros ->.
  - cbn [stored_size entry_meta_of fst]. unfold len. by rewrite Hlen.
Qed.

End store_archives.

(** The entry steps on a stored file entry. *)
Lemma decode_v2_entry_stored (X : Externals) (outdir : Path) (crc : bool)
    (h : header) (e : entry_meta) (stored rest : bytes) :
  alg_noctx h = 0 -> alg_prot h = (if crc then 11 else 0) ->
  entry_type e = 1 -> (crc = false -> service e = []) ->
  stored_size e = len stored ->
  decode_v2_entry X h outdir e (stored ++ rest) =
    ([EMkdir (parent (joinpath outdir (Path_of (relpath e))));
      EWrite (joinpath outdir (Path_of (relpath e))) stored;
      EPrint (MsgRestored V2 (relpath e))], Ok (tt, rest)).
Proof.
  intros Hnoctx _ _ _ Hsize. unfold decode_v2_entry. io_unfold.
  rewrite read_stored_app by done. rewrite Hnoctx. by rewrite !decide_False by done.
Qed.

Lemma extract_entry_stored (X : Externals) (outdir : Path) (crc : bool)
    (h : header) (e : entry_meta) (stored rest : bytes) :
  alg_noctx h = 0 -> alg_prot h = (if crc then 11 else 0) ->
  entry_type e = 1 -> (crc = false -> service e = []) ->
  stored_size e = len stored ->
  extract_entry X h outdir e (stored ++ rest) =
    ([EMkdir (parent (joinpath outdir (Path_of (relpath e))));
      EWrite (joinpath outdir (Path_of (relpath e))) stored;
      EPrint (MsgRestored Extract (relpath e))], Ok (tt, rest)).
Proof.
  intros Hnoctx _ Hfile _ Hsize. unfold extract_entry. io_unfold.
  rewrite read_stored_app by done.
  unfold archiver_huffman.ENTRY_FILE, archiver_huffman.ALG_NOCTX_HUFFMAN.
  rewrite Hnoctx, Hfile. rewrite decide_True by done. by rewrite decide_False by done.
Qed.





Lemma restore_events_quiet (d : decoder_id) (outdir : Path) (entries : list file_entry) :
  Forall no_report (restore_events d outdir entries).
Proof.
  induction entries as [|ent entries IH]; [constructor|].
  unfold restore_events. simpl. by repeat (constructor; [done|]).
Qed.

(** C9.  The v2 paths do not report the checksum mismatch of an entry that
    is stored uncompressed.  [build_archive] with the checksum on writes the
    CRC-32 of every entry into its service blob and tags the archive as
    protected; when the stored bytes are replaced afterwards by any others
    of the same length, [decode_v2] and [extract_archive] make the calls
    that restore the bytes they find, and none that reports a mismatch, in
    whatever world they run. *)
Theorem crc_mismatch_unreported_for_store (X : Externals) (w : world) (outdir : Path)
    (entries altered : list file_entry) (archive : bytes) :
  Forall (fun ent => fe_type ent = 1 /\
                     utf8_valid X (str_encode (fe_relpath ent)) = true) entries ->
  build_archive X entries false true = Ok archive ->
  Forall2 (fun ent alt => fe_relpath alt = fe_relpath ent /\
                          length (fe_raw alt) = length (fe_raw ent)) entries altered ->
  let damaged :=
    take (length archive - length (concat (map fe_raw entries))) archive ++
    concat (map fe_raw altered) in
  run_in w (decode_v2 X outdir) damaged =
    perform w [] (EMkdir outdir :: restore_events V2 outdir altered) /\
  run_in w (extract_archive X outdir) damaged =
    perform w [] (EMkdir outdir :: restore_events Extract outdir altered) /\
  Forall no_report (run_in w (decode_v2 X outdir) damaged).1 /\
  Forall no_report (run_in w (extract_archive X outdir) damaged).1.
Proof.
  intros Hentries Hbuild Hsame damaged.
  assert (H2 : run_in w (decode_v2 X outdir) damaged =
               perform w [] (EMkdir outdir :: restore_events V2 outdir altered)).
  { apply run_in_calls.
    apply (store_archive_calls X outdir true (fun h => decode_v2_entry X h outdir) V2
             (decode_v2_entry_stored X outdir true) entries altered archive); done. }
  assert (HX : run_in w (extract_archive X outdir) damaged =
               perform w [] (EMkdir outdir :: restore_events Extract outdir altered)).
  { apply run_in_calls.
    apply (store_archive_calls X outdir true (fun h => extract_entry X h outdir) Extract
             (extract_entry_stored X outdir true) entries altered archive); done. }
  split_and!; [done|done|..].
  - rewrite H2. apply perform_Forall; [constructor|].
    constructor; [done|apply restore_events_quiet].
  - rewrite HX. apply perform_Forall; [constructor|].
    constructor; [done|apply restore_events_quiet].
Qed.

Lemma crc_mismatch_unreported_for_store_witness :
  build_archive py [hi_entry] false true = Ok store_archive /\
  Z.land (crc32 py [x68; x68]) 4294967295 <>
    Z.land (crc32 py (fe_raw hi_entry)) 4294967295 /\
  run_in (fun _ _ => None) (decode_v2 py out_dir) tampered_store_archive =
    ([EMkdir out_dir; EMkdir out_dir; EWrite (Path_of "out/a.txt") [x68; x68];
      EPrint (MsgRestored V2 "a.txt")], None) /\
  run_in (fun _ _ => None) (extract_archive py out_dir) tampered_store_archive =
    ([EMkdir out_dir; EMkdir out_dir; EWrite (Path_of "out/a.txt") [x68; x68];
      EPrint (MsgRestored Extract "a.txt")], None).
Proof.
  assert (Hbuild : build_archive py [hi_entry] false true = Ok store_archive)
    by by vm_compute.
  split; [exact Hbuild|]. split; [by vm_compute|].
  destruct (crc_mismatch_unreported_for_store py (fun _ _ => None) out_dir [hi_entry]
              [{| fe_type := 1; fe_relpath := "a.txt"; fe_raw := [x68; x68] |}]
              store_archive) as (H2 & HX & _).
  - by repeat constructor.
  - exact Hbuild.
  - by repeat constructor.
  - assert (E : tampered_store_archive =
      take (length store_archive - length (concat (map fe_raw [hi_entry]))) store_archive ++
      concat (map fe_raw [{| fe_type := 1; fe_relpath := "a.txt"; fe_raw := [x68; x68] |}]))
      by by vm_compute.
    rewrite E, H2, HX. split; by vm_compute.
Defined.

(** ** No check on paths *)



(** ** The decoders in a world *)



(** A file entry of a v3 archive whose service blob is empty or starts with
    byte 0: the step of [decode_v3] calls [mkdir] for the directory of the
    target, prints at most one mismatch message, writes the stored bytes as
    they are and prints; the step returns when the world lets these calls
    through, and ends with the exception of the first call it refuses. *)
Theorem v3_store_entry_written (X : Externals) (h : header) (outdir : Path)
    (e : entry_meta) (rest stored rest' : bytes) :
  read_stored e rest = ([], Ok (stored, rest')) ->
  entry_type e = 1 -> (service e = [] \/ exists meta, service e = x00 :: meta) ->
  exists report,
    (report = [] \/ report = [EPrint (MsgCrcMismatch V3 (relpath e))]) /\
    forall (w : world) (made : list event),
      in_world w made (decode_v3_entry X h outdir e rest) =
      in_world w made
        (EMkdir (parent (joinpath outdir (Path_of (relpath e)))) :: report ++
         [EWrite (joinpath outdir (Path_of (relpath e))) stored;
          EPrint (MsgRestored V3 (relpath e))], Ok (tt, rest')).
Proof.
  intros Hread Hfile Hservice.
  destruct (v3_store_entry_calls X h outdir e rest stored rest' Hread Hfile Hservice)
    as (report & Hcalls & Hreport).
  exists report. split; [done|]. intros w made. by rewrite Hcalls.
Qed.

Lemma v3_store_entry_written_witness :
  exists report,
    (report = [] \/ report = [EPrint (MsgCrcMismatch V3 "x.bin")]) /\
    forall (w : world) (made : list event),
      in_world w made
        (decode_v3_entry py (protected_header 0) out_dir
           {| entry_type := 1; relpath := "x.bin"; orig_size := 2; stored_size := 2;
              service := [x00] |} [x68; x69]) =
      in_world w made
        (EMkdir out_dir :: report ++
         [EWrite (Path_of "out/x.bin") [x68; x69]; EPrint (MsgRestored V3 "x.bin")],
         Ok (tt, [])).
Proof.
  exact (v3_store_entry_written py (protected_header 0) out_dir
    {| entry_type := 1; relpath := "x.bin"; orig_size := 2; stored_size := 2;
       service := [x00] |} [x68; x69] [x68; x69] [] eq_refl eq_refl
    (or_intror (ex_intro _ [] eq_refl))).
Defined.

(** An entry step of [decode_v1]: the checksum is looked for in the first
    4 bytes of the service blob, whatever the codec; a mismatch is printed
    and the bytes are written all the same, as far as the world lets the
    calls through.  A failure of [zlib.decompress] (codec 2) ends the run
    after the call of [mkdir]. *)
Theorem decode_v1_entry_spec (X : Externals) (h : header) (outdir : Path)
    (e : entry_meta) (rest stored rest' : bytes) (w : world) (made : list event) :
  read_stored e rest = ([], Ok (stored, rest')) ->
  let target := joinpath outdir (Path_of (relpath e)) in
  in_world w made (decode_v1_entry X h outdir e rest) =
  in_world w made
    match (if decide (alg_noctx h = 2) then zlib_decompress X stored else Ok stored) with
    | Ok raw =>
        (EMkdir (parent target) ::
         (if decide (alg_prot h = 11 /\ 4 <= len (service e) /\
                     Z.land (crc32 X raw) 4294967295 <> le_int (take 4 (service e)))
          then [EPrint (MsgCrcMismatch V1 (relpath e))] else []) ++
         [EWrite target raw; EPrint (MsgRestored V1 (relpath e))], Ok (tt, rest'))
    | Err err => ([EMkdir (parent target)], Err err)
    end.
Proof.
  intros Hread target.
  by rewrite (decode_v1_entry_calls X h outdir e rest stored rest' Hread).
Qed.

Lemma decode_v1_entry_spec_witness :
  in_world (fun made call => match call with EWrite _ _ => Some OSError | _ => None end) []
    (decode_v1_entry py (protected_header 0) out_dir entry_zero_crc [x68; x69]) =
    ([EMkdir out_dir; EPrint (MsgCrcMismatch V1 "a.txt")], Err OSError).
Proof.
  rewrite (decode_v1_entry_spec py (protected_header 0) out_dir entry_zero_crc
             [x68; x69] [x68; x69] [] _ [] eq_refl).
  reflexivity.
Defined.

(** An entry whose kind is not 1: [extract_archive] and [decode_v3] call
    [mkdir] for the directory of its path, skip its stored bytes and write
    nothing; [decode_v2] does not look at the kind and goes on to write the
    entry as a file.  The calls are made as far as the world lets them
    through. *)
Theorem non_file_entries (X : Externals) (h : header) (outdir : Path)
    (e : entry_meta) (rest stored rest' : bytes) (w : world) (made : list event) :
  read_stored e rest = ([], Ok (stored, rest')) ->
  entry_type e <> 1 ->
  let target := joinpath outdir (Path_of (relpath e)) in
  in_world w made (extract_entry X h outdir e rest) =
    in_world w made ([EMkdir (parent target)], Ok (tt, rest')) /\
  in_world w made (decode_v3_entry X h outdir e rest) =
    in_world w made ([EMkdir (parent target)], Ok (tt, rest')) /\
  (alg_noctx h = 0 ->
   in_world w made (decode_v2_entry X h outdir e rest) =
     in_world w made
       ([EMkdir (parent target); EWrite target stored;
         EPrint (MsgRestored V2 (relpath e))], Ok (tt, rest'))).
Proof.
  intros Hread Htype target.
  destruct (non_file_entry_calls X h outdir e rest stored rest' Hread Htype)
    as (H1 & H2 & H3).
  split_and!; [by rewrite H1|by rewrite H2|]. intros Hc. by rewrite (H3 Hc).
Qed.

Lemma non_file_entries_witness :
  let w : world := fun made call =>
    match call with EWrite _ _ => Some OSError | _ => None end in
  let e := {| entry_type := 0; relpath := "d/x"; orig_size := 0; stored_size := 2;
              service := [] |} in
  in_world w [] (extract_entry py (protected_header 0) out_dir e [x68; x69]) =
    ([EMkdir (Path_of "out/d")], Ok (tt, [])) /\
  in_world w [] (decode_v3_entry py (protected_header 0) out_dir e [x68; x69]) =
    ([EMkdir (Path_of "out/d")], Ok (tt, [])) /\
  in_world w [] (decode_v2_entry py (protected_header 0) out_dir e [x68; x69]) =
    ([EMkdir (Path_of "out/d")], Err OSError).
Proof.
  intros w e.
  destruct (non_file_entries py (protected_header 0) out_dir e [x68; x69] [x68; x69] []
              w [] eq_refl ltac:(done)) as (H1 & H2 & H3).
  rewrite H1, H2, (H3 eq_refl). by repeat split.
Defined.


